(** * SemaSYCL: kernel-signature flattening, entry-point synthesis,
      device reachability analysis and integration-header emission

    A shallow embedding of [clang/lib/Sema/SemaSYCL.cpp].  The Clang
    declaration/type graph the pass reads is represented by finite trees
    (a record type carries its fields, its methods and its template
    arguments); sets of declarations are [gset]s, the call graph is a
    [gmap]; code that can hit [llvm_unreachable], a failed [assert] or an
    out-of-range dereference returns [None]. *)

From stdpp Require Import base option list strings gmap.
From Stdlib Require Import ZArith Lia.

Local Open Scope Z_scope.
Set Warnings "-register-all,-clear-no-such-hyp".

(** ** Machine integers *)

Module Ints.

  (** [unsigned] (32 bits). *)
Definition to_unsigned (z : Z) : Z := z mod 2 ^ 32.

  (** [uint64_t]. *)
Definition to_uint64 (z : Z) : Z := z mod 2 ^ 64.

  (** [n - 1] on an [unsigned] count [n]: zero wraps around. *)
Definition unsigned_pred (n : nat) : Z :=
    match n with
    | O => 2 ^ 32 - 1
    | S m => Z.of_nat m
    end.

  (** [int] (32 bits, two's complement). *)
Definition to_int (z : Z) : Z := (z + 2 ^ 31) mod 2 ^ 32 - 2 ^ 31.

End Ints.

(** ** The declaration and type graph (external to the pass, read-only) *)

Definition SourceLocation := nat.
Bind Scope nat_scope with SourceLocation.

(** [SourceLocation()]: the invalid (empty) location. *)
Definition NoLoc : SourceLocation := 0%nat.

Inductive BuiltinKind :=
| BT_Void | BT_Bool | BT_Char | BT_Int | BT_UInt | BT_Long | BT_ULong
| BT_Float | BT_Double.

Inductive LangAS :=
| AS_Default | AS_opencl_global | AS_opencl_local | AS_opencl_constant
| AS_opencl_private.

Record Qualifiers := mkQualifiers {
  q_const : bool;
  q_volatile : bool;
  q_addressSpace : LangAS
}.

Inductive TagKind := TTK_Struct | TTK_Class | TTK_Union.

(** [clang::Decl::Kind], the kinds this pass meets. *)
Inductive DeclKind :=
| DK_TranslationUnit | DK_Namespace | DK_CXXRecord
| DK_ClassTemplateSpecialization | DK_ClassTemplate | DK_Function
| DK_LinkageSpec.

#[global] Instance DeclKind_eq_dec : EqDecision DeclKind.
Proof. solve_decision. Defined.

(** A chain of declaration contexts, innermost first, ending at the
    translation unit (whose parent is null). *)
Inductive DeclContext :=
| TranslationUnitDecl
| NamedContext (kind : DeclKind) (name : string) (parent : DeclContext).

Definition getDeclKind (Ctx : DeclContext) : DeclKind :=
  match Ctx with
  | TranslationUnitDecl => DK_TranslationUnit
  | NamedContext k _ _ => k
  end.

Definition isTranslationUnit (Ctx : DeclContext) : bool :=
  match Ctx with TranslationUnitDecl => true | _ => false end.

(** A declaration that can be forward declared: a record or a class
    template.  [d_addr] stands for the identity of the declaration (its
    address), [d_printed] for the text Clang's declaration printer gives
    under the forward-declaration policy. *)
Record NamedDecl := mkNamedDecl {
  d_addr : nat;
  d_name : string;
  d_context : DeclContext;
  d_isCompleteDefinition : bool;
  d_begin : SourceLocation;
  d_printed : string
}.

(** A capture of a lambda, by its kind; a capture of a variable (by copy
    or by reference) holds the place where the variable is declared. *)
Inductive LambdaCapture :=
| LCK_This
| LCK_StarThis
| LCK_ByCopy (VarLocation : SourceLocation)
| LCK_ByRef (VarLocation : SourceLocation)
| LCK_VLAType.

(** [getCapturedVar()->getLocation()]: only a capture of a variable has a
    captured variable. *)
Definition getCapturedVar (Cpt : LambdaCapture) : option SourceLocation :=
  match Cpt with
  | LCK_ByCopy Loc | LCK_ByRef Loc => Some Loc
  | LCK_This | LCK_StarThis | LCK_VLAType => None
  end.

(** The part of a record declaration that holds no type. *)
Record RecordInfo := mkRecordInfo {
  rd_decl : NamedDecl;
  rd_kind : DeclKind;
  rd_tag : TagKind;
  rd_specializedTemplate : option NamedDecl;
  rd_isStandardLayout : bool;
  rd_isLambda : bool;
  rd_location : SourceLocation;
  (* [captures_begin()]: the capture listed first; [None] (a null
     pointer) when the record is no lambda or captures nothing *)
  rd_capturesBegin : option LambdaCapture
}.

(** Types are canonical (no typedef sugar): [getCanonicalType] and
    [getOriginalType] are the identity on them.  A pointer keeps the
    qualifiers of its pointee. *)
Inductive QualType :=
| BuiltinType (k : BuiltinKind)
| EnumType (name : string)
| PointerType (q : Qualifiers) (pointee : QualType)
| ReferenceType (pointee : QualType)
| ArrayType (elem : QualType) (n : N)
| RecordType (RD : CXXRecordDecl)
with CXXRecordDecl :=
| mkCXXRecordDecl (info : RecordInfo) (targs : list TemplateArgument)
    (flds : list FieldDecl) (meths : list CXXMethodDecl)
with FieldDecl :=
| mkFieldDecl (name : string) (ty : QualType) (bitOffset : Z)
    (loc : SourceLocation)
with CXXMethodDecl :=
| mkCXXMethodDecl (name : string) (params : list QualType) (ret : QualType)
with TemplateArgument :=
| TA_Type (T : QualType)
| TA_Integral (v : Z)
| TA_Pack (elems : list TemplateArgument)
| TA_Template (name : string)
| TA_Expression.

Definition rd_info (RD : CXXRecordDecl) : RecordInfo :=
  match RD with mkCXXRecordDecl i _ _ _ => i end.
Definition getTemplateArgs (RD : CXXRecordDecl) : list TemplateArgument :=
  match RD with mkCXXRecordDecl _ a _ _ => a end.
Definition fields (RD : CXXRecordDecl) : list FieldDecl :=
  match RD with mkCXXRecordDecl _ _ f _ => f end.
Definition methods (RD : CXXRecordDecl) : list CXXMethodDecl :=
  match RD with mkCXXRecordDecl _ _ _ m => m end.

Definition fld_name (F : FieldDecl) : string :=
  match F with mkFieldDecl n _ _ _ => n end.
Definition fld_type (F : FieldDecl) : QualType :=
  match F with mkFieldDecl _ t _ _ => t end.
Definition fld_bitOffset (F : FieldDecl) : Z :=
  match F with mkFieldDecl _ _ o _ => o end.
Definition fld_loc (F : FieldDecl) : SourceLocation :=
  match F with mkFieldDecl _ _ _ l => l end.

Definition meth_name (M : CXXMethodDecl) : string :=
  match M with mkCXXMethodDecl n _ _ => n end.
Definition meth_params (M : CXXMethodDecl) : list QualType :=
  match M with mkCXXMethodDecl _ p _ => p end.
Definition getReturnType (M : CXXMethodDecl) : QualType :=
  match M with mkCXXMethodDecl _ _ r => r end.
Definition getNumParams (M : CXXMethodDecl) : nat := length (meth_params M).

(** The record seen as a declaration context. *)
Definition asDeclContext (RD : CXXRecordDecl) : DeclContext :=
  NamedContext (rd_kind (rd_info RD)) (d_name (rd_decl (rd_info RD)))
               (d_context (rd_decl (rd_info RD))).

Definition getParent (Ctx : DeclContext) : option DeclContext :=
  match Ctx with
  | TranslationUnitDecl => None
  | NamedContext _ _ p => Some p
  end.

(** *** Type predicates of [clang::Type] *)

Definition getAsCXXRecordDecl (Ty : QualType) : option CXXRecordDecl :=
  match Ty with RecordType RD => Some RD | _ => None end.

Definition isStructureOrClassType (Ty : QualType) : bool :=
  match Ty with
  | RecordType RD =>
      match rd_tag (rd_info RD) with
      | TTK_Struct | TTK_Class => true
      | TTK_Union => false
      end
  | _ => false
  end.

Definition isPointerType (Ty : QualType) : bool :=
  match Ty with PointerType _ _ => true | _ => false end.

(** Arithmetic, enumeration and pointer types are scalar; [void], records,
    references and arrays are not. *)
Definition isScalarType (Ty : QualType) : bool :=
  match Ty with
  | BuiltinType BT_Void => false
  | BuiltinType _ => true
  | EnumType _ => true
  | PointerType _ _ => true
  | _ => false
  end.

Fixpoint isStandardLayoutType (Ty : QualType) : bool :=
  match Ty with
  | BuiltinType _ | EnumType _ | PointerType _ _ => true
  | ReferenceType _ => false
  | ArrayType e _ => isStandardLayoutType e
  | RecordType RD => rd_isStandardLayout (rd_info RD)
  end.

(** ** [Util]: recognising the special SYCL classes *)

Module Util.

Definition DeclContextDesc : Type := DeclKind * string.

  (** Walks the declaration contexts outwards from the type, comparing
      kind and name with [Scopes] taken innermost first. *)
Fixpoint matchScopes (RevScopes : list DeclContextDesc)
      (Ctx : option DeclContext) : option bool :=
    match RevScopes with
    | [] => C ← Ctx; Some (isTranslationUnit C)
    | Scope :: rest =>
        C ← Ctx;
        let DK := getDeclKind C in
        if negb (bool_decide (DK = Scope.1)) then Some false
        else
          Name ← match C with
                 | NamedContext DK_ClassTemplateSpecialization n _
                 | NamedContext DK_CXXRecord n _
                 | NamedContext DK_Namespace n _ => Some n
                 | _ => None (* decl kind not supported *)
                 end;
          if negb (String.eqb Name Scope.2) then Some false
          else matchScopes rest (getParent C)
    end.

Definition matchQualifiedTypeName (Ty : QualType)
      (Scopes : list DeclContextDesc) : option bool :=
    match getAsCXXRecordDecl Ty with
    | None => Some false (* only classes/structs supported *)
    | Some RecTy => matchScopes (rev Scopes) (Some (asDeclContext RecTy))
    end.

Definition AccessorScopes : list DeclContextDesc :=
    [(DK_Namespace, "cl"); (DK_Namespace, "sycl");
     (DK_ClassTemplateSpecialization, "accessor")]%string.

Definition SamplerScopes : list DeclContextDesc :=
    [(DK_Namespace, "cl"); (DK_Namespace, "sycl");
     (DK_CXXRecord, "sampler")]%string.

Definition isSyclAccessorType (Ty : QualType) : bool :=
    bool_decide (matchQualifiedTypeName Ty AccessorScopes = Some true).

Definition isSyclSamplerType (Ty : QualType) : bool :=
    bool_decide (matchQualifiedTypeName Ty SamplerScopes = Some true).

End Util.

(** ** Diagnostics *)

Inductive RestrictKind :=
| KernelGlobalVariable
| KernelRTTI
| KernelNonConstStaticDataVariable
| KernelCallVirtualFunction
| KernelCallRecursiveFunction
| KernelCallFunctionPointer
| KernelAllocateStorage
| KernelUseExceptions
| KernelUseAssembly.

Inductive DiagID :=
| err_sycl_restrict (K : RestrictKind)
| note_sycl_recursive_function_declared_here (K : RestrictKind)
| err_sycl_non_std_layout_type
| err_conflicting_sycl_kernel_attributes
| note_conflicting_attribute
| err_sycl_kernel_name_class_not_top_level.

Record Diagnostic := Diag {
  diag_loc : SourceLocation;
  diag_id : DiagID
}.

(** ** A state-and-failure monad for the imperative code

    [None] is an aborted run: [llvm_unreachable], a failed [assert], or a
    dereference the C++ leaves undefined. *)

Definition SE (S A : Type) : Type := S → option (A * S).

#[global] Instance SE_ret {S} : MRet (SE S) := λ A (a : A) s, Some (a, s).
#[global] Instance SE_bind {S} : MBind (SE S) := λ A B (f : A → SE S B) (m : SE S A) s,
  match m s with
  | Some (a, s') => f a s'
  | None => None
  end.

Definition unreachable {S A} : SE S A := λ _, None.
Definition gets {S A} (f : S → A) : SE S A := λ s, Some (f s, s).
Definition modify {S} (f : S → S) : SE S unit := λ s, Some (tt, f s).

(** [for (x : l) body]. *)
Definition forM_ {S A} (body : A → SE S unit) : list A → SE S unit :=
  fix go l :=
    match l with
    | [] => mret tt
    | x :: l' => body x ;; go l'
    end.

(** The final state of a run, when it completes. *)
Definition exec {S A} (m : SE S A) (s : S) : option S := snd <$> m s.

(** ** 4.1 Kernel signature builder *)

Module Builder.

  (** [ParamDesc]: type and identifier of one kernel parameter; the
      [TypeSourceInfo] of the tuple is the trivial one of the type. *)
Record ParamDesc := mkParamDesc {
    pd_type : QualType;
    pd_name : string
  }.

Definition makeParamDesc (Src : FieldDecl) (Ty : QualType) : ParamDesc :=
    mkParamDesc Ty ("_arg_" +:+ fld_name Src).

  (** Return [__init] method. *)
Definition getInitMethod (CRD : CXXRecordDecl) : option CXXMethodDecl :=
    List.find (λ Method, String.eqb (meth_name Method) "__init") (methods CRD).

Record State := mkState {
    ParamDescs : list ParamDesc;
    Diags : list Diagnostic
  }.

Definition CreateAndAddPrmDsc (Fld : FieldDecl) (ArgType : QualType)
      : SE State unit :=
    modify (λ s, mkState (ParamDescs s ++ [makeParamDesc Fld ArgType]) (Diags s)).

Definition Report (Loc : SourceLocation) (D : DiagID) : SE State unit :=
    modify (λ s, mkState (ParamDescs s) (Diags s ++ [Diag Loc D])).

Definition createSpecialSYCLObjParamDesc (Fld : FieldDecl)
      (ArgTy : QualType) : SE State unit :=
    match getAsCXXRecordDecl ArgTy with
    | None => unreachable (* Special SYCL object must be of a record type *)
    | Some RecordDecl =>
        match getInitMethod RecordDecl with
        | None => unreachable (* must have the __init method *)
        | Some InitMethod =>
            forM_ (λ PD, CreateAndAddPrmDsc Fld PD) (meth_params InitMethod)
        end
    end.

Fixpoint createParamDescForWrappedAccessors (Fld : FieldDecl)
      (ArgTy : QualType) {struct ArgTy} : SE State unit :=
    match ArgTy with
    | RecordType Wrapper =>
        forM_ (λ WrapperFld,
                 let FldType := fld_type WrapperFld in
                 if isStructureOrClassType FldType then
                   if Util.isSyclAccessorType FldType then
                     (* accessor field is found - create descriptor *)
                     createSpecialSYCLObjParamDesc WrapperFld FldType
                   else
                     (* field is some class or struct - recursively check
                        for accessor fields *)
                     createParamDescForWrappedAccessors WrapperFld FldType
                 else mret tt)
              (fields Wrapper)
    | _ => unreachable
    end.

Definition setAddressSpace (Q : Qualifiers) (A : LangAS) : Qualifiers :=
    mkQualifiers (q_const Q) (q_volatile Q) A.

  (** [V->getLocation()], where [V] is the variable of the capture listed
      first when there is one ([Cpt] is never advanced), and the field
      otherwise; a first capture that has no captured variable leaves
      [cast<DeclaratorDecl>] without a declaration. *)
Definition reportLocation (KernelObj : CXXRecordDecl) (Fld : FieldDecl)
      : option SourceLocation :=
    match rd_capturesBegin (rd_info KernelObj) with
    | Some Cpt => getCapturedVar Cpt
    | None => Some (fld_loc Fld)
    end.

Definition buildArgTys_field (KernelObj : CXXRecordDecl) (Fld : FieldDecl)
      : SE State unit :=
    let ArgTy := fld_type Fld in
    if Util.isSyclAccessorType ArgTy || Util.isSyclSamplerType ArgTy then
      createSpecialSYCLObjParamDesc Fld ArgTy
    else if isStructureOrClassType ArgTy then
      (if negb (isStandardLayoutType ArgTy) then
         match reportLocation KernelObj Fld with
         | Some Loc => Report Loc err_sycl_non_std_layout_type
         | None => unreachable
         end
       else mret tt) ;;
      CreateAndAddPrmDsc Fld ArgTy ;;
      (* Create descriptors for each accessor field in the class or struct *)
      createParamDescForWrappedAccessors Fld ArgTy
    else if isPointerType ArgTy then
      match ArgTy with
      | PointerType Quals PointeeTy =>
          (* Pointer Arguments need to be in the global address space *)
          let ModTy :=
            PointerType (setAddressSpace Quals AS_opencl_global) PointeeTy in
          CreateAndAddPrmDsc Fld ModTy
      | _ => unreachable
      end
    else if isScalarType ArgTy then CreateAndAddPrmDsc Fld ArgTy
    else unreachable (* Unsupported kernel parameter type *).

Definition buildArgTys (KernelObj : CXXRecordDecl) : SE State unit :=
    forM_ (buildArgTys_field KernelObj) (fields KernelObj).

End Builder.

(** ** 4.2 Entry point synthesizer *)

(** A variable or parameter declaration.  Two declarations are the same
    object when they are the same parameter of the same function, or the
    same variable of the same context. *)
Inductive DeclaratorDecl :=
| ParmVarDecl (fn : string) (scopeIndex : nat) (name : string) (ty : QualType)
| VarDecl (dc : string) (name : string) (ty : QualType).

Definition decl_type (D : DeclaratorDecl) : QualType :=
  match D with ParmVarDecl _ _ _ t | VarDecl _ _ t => t end.

Definition same_decl (a b : DeclaratorDecl) : bool :=
  match a, b with
  | ParmVarDecl f i _ _, ParmVarDecl g j _ _ => String.eqb f g && Nat.eqb i j
  | VarDecl d n _, VarDecl d' n' _ => String.eqb d d' && String.eqb n n'
  | _, _ => false
  end.

Inductive Member :=
| MemberField (F : FieldDecl)
| MemberMethod (M : CXXMethodDecl).

(** Statements and expressions: the nodes the synthesizer builds, and
    [OtherStmt] for every other node of a kernel caller's body. *)
Inductive Stmt :=
| DeclStmt (D : DeclaratorDecl)
| DeclRefExpr (D : DeclaratorDecl) (Ty : QualType) (Loc : SourceLocation)
| MemberExpr (Base : Stmt) (M : Member)
| ImplicitCastExpr (Ty : QualType) (Sub : Stmt)      (* CK_LValueToRValue *)
| BinaryOperator (Lhs Rhs : Stmt) (Ty : QualType)    (* BO_Assign *)
| CXXMemberCallExpr (Callee : Stmt) (Args : list Stmt) (ResultTy : QualType)
| CompoundStmt (Body : list Stmt) (LBraceLoc RBraceLoc : SourceLocation)
| OtherStmt (Class : string) (Children : list Stmt).

Inductive CallingConv := CC_C | CC_OpenCLKernel.

(** Attributes.  [addr] stands for the identity (the address) of an
    attribute written in the source. *)
Inductive Attr :=
| SYCLDeviceAttr
| OpenCLKernelAttr
| AsmLabelAttr (Label : string)
| ArtificialAttr
| SYCLKernelAttr
| IntelReqdSubGroupSizeAttr (addr : nat) (SubGroupSize : Z)
                            (Loc : SourceLocation)
| ReqdWorkGroupSizeAttr (addr : nat) (XDim YDim ZDim : Z)
                        (Loc : SourceLocation)
| VecTypeHintAttr (addr : nat) (Loc : SourceLocation).

#[global] Instance Attr_eq_dec : EqDecision Attr.
Proof. solve_decision. Defined.

(** [attr::Kind]. *)
Inductive AttrKind :=
| AK_SYCLDevice | AK_OpenCLKernel | AK_AsmLabel | AK_Artificial
| AK_SYCLKernel | AK_IntelReqdSubGroupSize | AK_ReqdWorkGroupSize
| AK_VecTypeHint.

#[global] Instance AttrKind_eq_dec : EqDecision AttrKind.
Proof. solve_decision. Defined.

Definition getKind (A : Attr) : AttrKind :=
  match A with
  | SYCLDeviceAttr => AK_SYCLDevice
  | OpenCLKernelAttr => AK_OpenCLKernel
  | AsmLabelAttr _ => AK_AsmLabel
  | ArtificialAttr => AK_Artificial
  | SYCLKernelAttr => AK_SYCLKernel
  | IntelReqdSubGroupSizeAttr _ _ _ => AK_IntelReqdSubGroupSize
  | ReqdWorkGroupSizeAttr _ _ _ _ _ => AK_ReqdWorkGroupSize
  | VecTypeHintAttr _ _ => AK_VecTypeHint
  end.

(** [getAttr<T>()]: the first attribute of the kind. *)
Definition getAttr (K : AttrKind) (Attrs : list Attr) : option Attr :=
  List.find (λ A, bool_decide (getKind A = K)) Attrs.

Definition hasAttr (K : AttrKind) (Attrs : list Attr) : bool :=
  bool_decide (is_Some (getAttr K Attrs)).

Record FunctionDecl := mkFunctionDecl {
  fn_name : string;
  fn_returnType : QualType;
  fn_callConv : CallingConv;
  fn_params : list DeclaratorDecl;
  fn_templateArgs : list TemplateArgument;
  fn_attrs : list Attr;
  fn_body : option Stmt;
  fn_location : SourceLocation
}.

Definition getKernelObjectType (Caller : FunctionDecl) : option CXXRecordDecl :=
  P ← head (fn_params Caller); getAsCXXRecordDecl (decl_type P).

Module KernelBodyTransform.

  (** [TransformDeclRefExpr]: a reference to [MappingPair.first] is
      rebuilt as a reference to [MappingPair.second], of its type and
      with an empty location; any other reference is returned as it
      is. *)
Definition TransformDeclRefExpr (MappingPair : DeclaratorDecl * DeclaratorDecl)
      (Ref : DeclaratorDecl) (Ty : QualType) (Loc : SourceLocation) : Stmt :=
    if same_decl Ref MappingPair.1 then
      let NewDecl := MappingPair.2 in
      DeclRefExpr NewDecl (decl_type NewDecl) NoLoc
    else DeclRefExpr Ref Ty Loc.

  (** [RebuildCompoundStmt]: builds a new compound statement but clears
      the source locations. *)
Definition RebuildCompoundStmt (LBraceLoc : SourceLocation)
      (Statements : list Stmt) (RBraceLoc : SourceLocation) : Stmt :=
    CompoundStmt Statements NoLoc NoLoc.

  (** Modelled from the spec: the traversal that [KernelBodyTransform]
      inherits from [TreeTransform] (clang's [TreeTransform.h], which is
      not among the sources), by which [TransformStmt] reaches the nodes
      of a body.  Following section 4.2, step 4, of the specification it
      is a syntactic rewrite of the whole body that preserves all
      expression structure: every node is rebuilt from its rewritten
      children, a reference by [TransformDeclRefExpr] and a compound
      statement by [RebuildCompoundStmt], the two members the source
      overrides. *)
Fixpoint TransformStmt (MappingPair : DeclaratorDecl * DeclaratorDecl)
      (S : Stmt) : Stmt :=
    match S with
    | DeclRefExpr Ref Ty Loc => TransformDeclRefExpr MappingPair Ref Ty Loc
    | CompoundStmt Statements LBraceLoc RBraceLoc =>
        RebuildCompoundStmt LBraceLoc
          (map (TransformStmt MappingPair) Statements) RBraceLoc
    | DeclStmt D => DeclStmt D
    | MemberExpr Base M => MemberExpr (TransformStmt MappingPair Base) M
    | ImplicitCastExpr Ty Sub =>
        ImplicitCastExpr Ty (TransformStmt MappingPair Sub)
    | BinaryOperator L R Ty =>
        BinaryOperator (TransformStmt MappingPair L)
                       (TransformStmt MappingPair R) Ty
    | CXXMemberCallExpr C Args Ty =>
        CXXMemberCallExpr (TransformStmt MappingPair C)
                          (map (TransformStmt MappingPair) Args) Ty
    | OtherStmt C Children =>
        OtherStmt C (map (TransformStmt MappingPair) Children)
    end.

End KernelBodyTransform.

Module Synth.
  Import Builder.

Definition CreateOpenCLKernelDeclaration (Name : string)
      (ParamDescs : list ParamDesc) : FunctionDecl :=
    let Params :=
      imap (λ i PD, ParmVarDecl Name i (pd_name PD) (pd_type PD)) ParamDescs in
    mkFunctionDecl Name (BuiltinType BT_Void) CC_OpenCLKernel Params []
      [SYCLDeviceAttr; OpenCLKernelAttr; AsmLabelAttr Name; ArtificialAttr]
      None NoLoc.

  (** [KernelFuncParam] is an iterator over the parameters of the kernel,
      kept as its distance from [param_begin()]. *)
Record State := mkState {
    KernelFuncParam : Z;
    BodyStmts : list Stmt
  }.

  Section Body.
    (** The parameters of the kernel being given a body. *)
    Variable Params : list DeclaratorDecl.

    (** [*It]: undefined outside the parameter array. *)
Definition deref (It : Z) : option DeclaratorDecl :=
      if bool_decide (0 ≤ It) then Params !! Z.to_nat It else None.

Definition push_back (S : Stmt) : SE State unit :=
      modify (λ s, mkState (KernelFuncParam s) (BodyStmts s ++ [S])).

    (** [std::advance(KernelFuncParam, n)]. *)
Definition advance (n : Z) : SE State unit :=
      modify (λ s, mkState (KernelFuncParam s + n) (BodyStmts s)).

Definition getExprForKernelParameter (paramTy : QualType) (DRE : Stmt)
        : Stmt :=
      ImplicitCastExpr paramTy DRE.

    (** The references to the [NumParams] parameters from [KFP] on. *)
Definition ParamDREs_from (KFP : Z) (NumParams : nat)
        : option (list Stmt) :=
      mapM (λ I : nat,
              P ← deref (KFP + Z.of_nat I);
              Some (DeclRefExpr P (decl_type P) NoLoc))
           (seq 0 NumParams).

    (** Creates the [__init] call of a special SYCL object: accessor or
        sampler.  [NumParams - 1] is computed on [unsigned] and added to
        the iterator as a 64-bit difference. *)
Definition getExprForSpecialSYCLObj (paramTy : QualType)
        (Field : FieldDecl) (CRD : option CXXRecordDecl) (Base : Stmt)
        : SE State unit :=
      match CRD ≫= getInitMethod with
      | None => unreachable (* must have the __init method *)
      | Some InitMethod =>
          let NumParams := getNumParams InitMethod in
          KFP ← gets KernelFuncParam;
          match ParamDREs_from KFP NumParams with
          | None => unreachable
          | Some ParamDREs =>
              advance (Ints.unsigned_pred NumParams) ;;
              (* [kernel_obj or wrapper object].special_obj *)
              let SpecialObjME := MemberExpr Base (MemberField Field) in
              (* [kernel_obj or wrapper object].special_obj.__init *)
              let ME := MemberExpr SpecialObjME (MemberMethod InitMethod) in
              let ResultTy := getReturnType InitMethod in
              (* kernel_parameters *)
              let ParamStmts :=
                zip_with getExprForKernelParameter
                         (meth_params InitMethod) ParamDREs in
              push_back (CXXMemberCallExpr ME ParamStmts ResultTy)
          end
      end.

    (** Recursively search for accessor fields to initialize them with
        kernel parameters. *)
Fixpoint getExprForWrappedAccessorInit (CRD : CXXRecordDecl)
        (Base : Stmt) {struct CRD} : SE State unit :=
      match CRD with
      | mkCXXRecordDecl _ _ flds _ =>
          forM_ (λ WrapperFld,
                   let FldType := fld_type WrapperFld in
                   if isStructureOrClassType FldType then
                     if Util.isSyclAccessorType FldType then
                       (* start from the next target function parameter *)
                       advance 1 ;;
                       getExprForSpecialSYCLObj FldType WrapperFld
                         (getAsCXXRecordDecl FldType) Base
                     else
                       let NewBase := MemberExpr Base (MemberField WrapperFld) in
                       match FldType with
                       | RecordType WrapperFldCRD =>
                           getExprForWrappedAccessorInit WrapperFldCRD NewBase
                       | _ => unreachable
                       end
                   else mret tt)
                flds
      end.

Definition initField (KernelObjCloneRef : Stmt) (Field : FieldDecl)
        : SE State unit :=
      let FieldType := fld_type Field in
      let CRD := getAsCXXRecordDecl FieldType in
      (if Util.isSyclAccessorType FieldType
          || Util.isSyclSamplerType FieldType then
         getExprForSpecialSYCLObj FieldType Field CRD KernelObjCloneRef
       else if bool_decide (is_Some CRD) || isScalarType FieldType then
         KFP ← gets KernelFuncParam;
         match deref KFP with
         | None => unreachable
         | Some P =>
             let ParamType := decl_type P in
             let DRE := DeclRefExpr P ParamType NoLoc in
             let Lhs := MemberExpr KernelObjCloneRef (MemberField Field) in
             let Rhs := ImplicitCastExpr ParamType DRE in
             (* lambda.field = kernel_parameter *)
             push_back (BinaryOperator Lhs Rhs FieldType) ;;
             match CRD with
             | Some CRD => getExprForWrappedAccessorInit CRD Lhs
             | None => mret tt
             end
         end
       else unreachable (* Unsupported field type *)) ;;
      advance 1.

  End Body.

  (** Creates body for new OpenCL kernel: the declaration of the local
      kernel object, the initialization of its fields from the kernel
      parameters, and the transformed body of the kernel caller. *)
Definition CreateOpenCLKernelBody (KernelCallerFunc : FunctionDecl)
      (KernelDecl : FunctionDecl) : option Stmt :=
    LC ← getKernelObjectType KernelCallerFunc;
    let KernelObjClone :=
      VarDecl (fn_name KernelDecl) (d_name (rd_decl (rd_info LC)))
              (RecordType LC) in
    let DS := DeclStmt KernelObjClone in
    let KernelObjCloneRef := DeclRefExpr KernelObjClone (RecordType LC) NoLoc in
    let Params := fn_params KernelDecl in
    s ← exec (if bool_decide (Params ≠ []) then
                forM_ (initField Params KernelObjCloneRef) (fields LC)
              else mret tt)
             (mkState 0 [DS]);
    FunctionBody ← fn_body KernelCallerFunc;
    KernelObjParam ← head (fn_params KernelCallerFunc);
    let NewBody :=
      KernelBodyTransform.TransformStmt (KernelObjParam, KernelObjClone)
                                        FunctionBody in
    Some (CompoundStmt (BodyStmts s ++ [NewBody]) NoLoc NoLoc).

End Synth.

(** ** 4.4 Integration header: the kernel descriptor registry *)

Module IntHeader.

Inductive kernel_param_kind_t :=
  | kind_accessor
  | kind_std_layout
  | kind_sampler
  | kind_pointer.

  (** [Info] is an [int], [Offset] an [unsigned]. *)
Record KernelParamDesc := mkKernelParamDesc {
    Kind : kernel_param_kind_t;
    Info : Z;
    Offset : Z
  }.

Record KernelDesc := mkKernelDesc {
    Name : string;
    NameType : QualType;
    Params : list KernelParamDesc
  }.

  (** The header object: [KernelDescs], in registration order. *)
Definition SYCLIntegrationHeader := list KernelDesc.

Definition startKernel (KernelName : string) (KernelNameType : QualType)
      : SE SYCLIntegrationHeader unit :=
    modify (λ KernelDescs, KernelDescs ++ [mkKernelDesc KernelName KernelNameType []]).

  (** [Info] and [Offset] are converted to the parameter types [int] and
      [unsigned] at the call. *)
Definition addParamDesc (Kind : kernel_param_kind_t) (Info Offset : Z)
      : SE SYCLIntegrationHeader unit :=
    λ KernelDescs,
      match last KernelDescs with
      | None => None (* no kernels *)
      | Some K =>
          let PD := mkKernelParamDesc Kind (Ints.to_int Info)
                                      (Ints.to_unsigned Offset) in
          Some (tt, removelast KernelDescs
                      ++ [mkKernelDesc (Name K) (NameType K) (Params K ++ [PD])])
      end.

  (** [getTemplateArgs()[i].getAsIntegral().getExtValue()]. *)
Definition getIntegralArg (RD : CXXRecordDecl) (i : nat) : option Z :=
    match getTemplateArgs RD !! i with
    | Some (TA_Integral v) => Some v
    | _ => None
    end.

  (** The target of given SYCL accessor type. *)
Definition getAccessTarget (AccTy : CXXRecordDecl) : option Z :=
    Ints.to_unsigned <$> getIntegralArg AccTy 3.

  Section Populate.
    (** [ASTContext::getTypeSizeInChars]. *)
    Variable getTypeSizeInChars : QualType → Z.

    (** Offset (in bytes) of a field in its record:
        [Layout.getFieldOffset(Fld->getFieldIndex()) / 8] on [uint64_t]. *)
Definition fieldOffsetInBytes (Fld : FieldDecl) : Z :=
      Ints.to_uint64 (fld_bitOffset Fld) / 8.

    (** The [Info] field of the descriptor of an accessor packs the target
        and the dimension of the accessor. *)
Definition populateHeaderForAccessor (ArgTy : QualType) (Offset : Z)
        : SE SYCLIntegrationHeader unit :=
      match getAsCXXRecordDecl ArgTy with
      | None => unreachable (* accessor must be of a record type *)
      | Some AccTy =>
          if negb (bool_decide
                     (rd_kind (rd_info AccTy) = DK_ClassTemplateSpecialization))
          then unreachable
          else
            match getIntegralArg AccTy 1, getAccessTarget AccTy with
            | Some D, Some Target =>
                let Dims := Ints.to_int D in
                let Info := Ints.to_int (Z.lor Target (Z.shiftl Dims 11)) in
                addParamDesc kind_accessor Info Offset
            | _, _ => unreachable
            end
      end.

Fixpoint populateHeaderForWrappedAccessors (ArgTy : QualType)
        (Offset : Z) {struct ArgTy} : SE SYCLIntegrationHeader unit :=
      match ArgTy with
      | RecordType Wrapper =>
          forM_ (λ WrapperFld,
                   let FldType := fld_type WrapperFld in
                   if isStructureOrClassType FldType then
                     (* offset (in bytes) of the field in the wrapper *)
                     let OffsetInWrapper := fieldOffsetInBytes WrapperFld in
                     if Util.isSyclAccessorType FldType then
                       populateHeaderForAccessor FldType
                         (Ints.to_uint64 (Offset + OffsetInWrapper))
                     else
                       populateHeaderForWrappedAccessors FldType
                         (Ints.to_uint64 (Offset + OffsetInWrapper))
                   else mret tt)
                (fields Wrapper)
      | _ => unreachable
      end.

Definition populateIntHeader_field (Fld : FieldDecl)
        : SE SYCLIntegrationHeader unit :=
      let ArgTy := fld_type Fld in
      (* Get offset in bytes *)
      let Offset := fieldOffsetInBytes Fld in
      if Util.isSyclAccessorType ArgTy then
        populateHeaderForAccessor ArgTy Offset
      else if Util.isSyclSamplerType ArgTy then
        match getAsCXXRecordDecl ArgTy ≫= Builder.getInitMethod with
        | None => unreachable (* sampler must have __init method *)
        | Some InitMethod =>
            (* sampler __init method has only one argument *)
            match meth_params InitMethod !! 0%nat with
            | None => unreachable
            | Some SamplerArg =>
                let Sz := getTypeSizeInChars SamplerArg in
                addParamDesc kind_sampler (Ints.to_unsigned Sz)
                             (Ints.to_unsigned Offset)
            end
        end
      else if isPointerType ArgTy then
        let Sz := getTypeSizeInChars (fld_type Fld) in
        addParamDesc kind_pointer (Ints.to_unsigned Sz) (Ints.to_unsigned Offset)
      else if isStructureOrClassType ArgTy || isScalarType ArgTy then
        (* an object of standard layout type or scalar *)
        let Sz := getTypeSizeInChars (fld_type Fld) in
        addParamDesc kind_std_layout (Ints.to_unsigned Sz)
                     (Ints.to_unsigned Offset) ;;
        (* check for accessor fields in structure or class *)
        if isStructureOrClassType ArgTy then
          populateHeaderForWrappedAccessors ArgTy Offset
        else mret tt
      else unreachable (* unsupported kernel parameter type *).

    (** Adds necessary data describing given kernel to the integration
        header. *)
Definition populateIntHeader (Name : string) (NameType : QualType)
        (KernelObjTy : CXXRecordDecl) : SE SYCLIntegrationHeader unit :=
      startKernel Name NameType ;;
      forM_ populateIntHeader_field (fields KernelObjTy).

  End Populate.

End IntHeader.

(** ** 4.4 Integration header: emission *)

Module Emit.
  Import IntHeader.

  (** The emitted text, line by line.  A constructor other than [Text]
      stands for the line (or lines) the quoted format prints, with the
      values streamed into it. *)
Inductive Line :=
  | Text (s : string)
    (* the quoted [Name], followed by a comma when [comma] *)
  | NameElem (Name : string) (comma : bool)
    (* ["  //--- " Name] *)
  | SigComment (Name : string)
    (* ["  { kernel_param_kind_t::" TyStr ", " Info ", " Offset " },"] *)
  | SigElem (TyStr : string) (Info Offset : Z)
    (* ["  " CurStart [","] " // " Name] *)
  | StartElem (CurStart : Z) (comma : bool) (Name : string)
    (* [template <> struct KernelInfo<NameType> { ... };] with
       [getName() { return "Name"; }], [getNumParams() { return N; }] and
       [getParamDesc(unsigned i) { return kernel_signatures[i+CurStart]; }] *)
  | KernelInfoSpec (NameTypeStr : string) (Name : string) (N : nat)
                   (CurStart : Z).

  (** Returns a string ID of given parameter kind. *)
Definition paramKind2Str (K : kernel_param_kind_t) : string :=
    match K with
    | kind_accessor => "kind_accessor"
    | kind_std_layout => "kind_std_layout"
    | kind_sampler => "kind_sampler"
    | kind_pointer => "kind_pointer"
    end.

Record State := mkState {
    Out : list Line;
    Printed : gset nat;
    Diags : list Diagnostic
  }.

Definition print (L : list Line) : SE State unit :=
    modify (λ s, mkState (Out s ++ L) (Printed s) (Diags s)).

Definition Report (Loc : SourceLocation) (D : DiagID) : SE State unit :=
    modify (λ s, mkState (Out s) (Printed s) (Diags s ++ [Diag Loc D])).

  (** [Printed.insert(D).second]. *)
Definition Printed_insert (D : NamedDecl) : SE State bool :=
    λ s, Some (bool_decide (d_addr D ∉ Printed s),
               mkState (Out s) ({[d_addr D]} ∪ Printed s) (Diags s)).

  (** The enclosing namespaces of a declaration, outermost first, and
      whether the walk stopped at something else than the translation
      unit. *)
Fixpoint enclosingNamespaces (DC : DeclContext) : list string * bool :=
    match DC with
    | TranslationUnitDecl => ([], false)
    | NamedContext DK_Namespace name parent =>
        let r := enclosingNamespaces parent in (r.1 ++ [name], r.2)
    | NamedContext _ _ _ => ([], true)
    end.

  (** Emits a forward declaration, wrapped into namespaces if needed. *)
Definition emitFwdDecl (D : NamedDecl) : SE State unit :=
    let NS := enclosingNamespaces (d_context D) in
    let NamespaceCnt := length NS.1 in
    let NSStr :=
      String.concat "" (map (λ n, "namespace " +:+ n +:+ " { ") NS.1) in
    (if NS.2 && d_isCompleteDefinition D then
       (* defined class constituting the kernel name is not globally
          accessible *)
       Report (d_begin D) err_sycl_kernel_name_class_not_top_level
     else mret tt) ;;
    if bool_decide (0 < NamespaceCnt)%nat then
      print [Text NSStr; Text (d_printed D +:+ ";");
             Text (String.concat "" (replicate NamespaceCnt "}"))]
    else
      print [Text (d_printed D +:+ ";")].

  (** Emits forward declarations of classes and template classes on which
      declaration of given type depends. *)
Fixpoint emitForwardClassDecls (T : QualType) {struct T} : SE State unit :=
    match T with
    | PointerType _ Pointee =>
        (* peel off the pointer types *)
        emitForwardClassDecls Pointee
    | RecordType (mkCXXRecordDecl info Args _ _) =>
        if bool_decide (rd_kind info = DK_ClassTemplateSpecialization) then
          (* first, recurse into template parameters *)
          forM_ (λ Arg,
                   match Arg with
                   | TA_Type AT => emitForwardClassDecls AT
                   | TA_Pack Pack =>
                       forM_ (λ PT,
                                match PT with
                                | TA_Type PT' => emitForwardClassDecls PT'
                                | _ => mret tt
                                end)
                             Pack
                   | TA_Template _ =>
                       unreachable (* template template arguments not
                                      supported *)
                   | _ => mret tt
                   end)
                Args ;;
          (* second, the template class being specialized *)
          match rd_specializedTemplate info with
          | None => unreachable (* template declaration must be available *)
          | Some CTD =>
              fresh ← Printed_insert CTD;
              if fresh : bool then emitFwdDecl CTD else mret tt
          end
        else
          fresh ← Printed_insert (rd_decl info);
          if fresh : bool then emitFwdDecl (rd_decl info) else mret tt
    | _ => mret tt
    end.

  (** Removes all ["(anonymous namespace)::"] substrings from given
      string: the search resumes where the last one was erased. *)
Definition AnonNS : string := "(anonymous namespace)::".

Fixpoint eraseAnonNamespace_fuel (fuel : nat) (Str : string) : string :=
    match fuel with
    | O => Str
    | S fuel' =>
        match Str with
        | EmptyString => EmptyString
        | String c rest =>
            if String.prefix AnonNS Str then
              eraseAnonNamespace_fuel fuel'
                (String.substring (String.length AnonNS)
                   (String.length Str - String.length AnonNS) Str)
            else String c (eraseAnonNamespace_fuel fuel' rest)
        end
    end.

Definition eraseAnonNamespace (Str : string) : string :=
    eraseAnonNamespace_fuel (S (String.length Str)) Str.

  (** [kernel_names]: one string per kernel. *)
Fixpoint emit_names (I size : nat) (Ks : list KernelDesc) : list Line :=
    match Ks with
    | [] => []
    | K :: Ks' =>
        NameElem (Name K) (bool_decide (I < size - 1)%nat)
        :: emit_names (S I) size Ks'
    end.

  (** [kernel_signatures]: per kernel a comment line, one element per
      parameter descriptor, and an empty line. *)
Definition emit_signature (K : KernelDesc) : list Line :=
    SigComment (Name K)
    :: map (λ P, SigElem (paramKind2Str (Kind P)) (Info P) (Offset P)) (Params K)
    ++ [Text ""].

  (** [kernel_signature_start]: [CurStart] is an [unsigned]. *)
Fixpoint emit_starts (I size : nat) (CurStart : Z) (Ks : list KernelDesc)
      : list Line :=
    match Ks with
    | [] => []
    | K :: Ks' =>
        StartElem CurStart (bool_decide (I < size - 1)%nat) (Name K)
        :: emit_starts (S I) size
             (Ints.to_unsigned (CurStart + (Z.of_nat (length (Params K)) + 1)))
             Ks'
    end.

  Section Emit.
    (** [QualType::getAsString]. *)
    Variable getAsString : QualType → string.

    (** Specializations of [KernelInfo] for kernel function types. *)
Fixpoint emit_KernelInfo (CurStart : Z) (Ks : list KernelDesc)
        : list Line :=
      match Ks with
      | [] => []
      | K :: Ks' =>
          let N := length (Params K) in
          KernelInfoSpec (eraseAnonNamespace (getAsString (NameType K)))
                         (Name K) N CurStart
          :: emit_KernelInfo (Ints.to_unsigned (CurStart + Z.of_nat N)) Ks'
      end.

    (** [SYCLIntegrationHeader::emit(raw_ostream &O)]. *)
Definition emit (KernelDescs : SYCLIntegrationHeader) : SE State unit :=
      print [Text "// This is auto-generated SYCL integration header.";
             Text "";
             Text "#include <CL/sycl/detail/kernel_desc.hpp>";
             Text "";
             Text "// Forward declarations of templated kernel function types:"] ;;
      forM_ (λ K, emitForwardClassDecls (NameType K)) KernelDescs ;;
      print [Text "";
             Text "namespace cl {";
             Text "namespace sycl {";
             Text "namespace detail {";
             Text "";
             Text "// names of all kernels defined in the corresponding source";
             Text "static constexpr";
             Text "const char* const kernel_names[] = {"] ;;
      print (emit_names 0 (length KernelDescs) KernelDescs) ;;
      print [Text "};"; Text "";
             Text "// array representing signatures of all kernels defined in the";
             Text "// corresponding source";
             Text "static constexpr";
             Text "const kernel_param_desc_t kernel_signatures[] = {"] ;;
      print (concat (map emit_signature KernelDescs)) ;;
      print [Text "};"; Text "";
             Text "// indices into the kernel_signatures array, each representing a start of";
             Text "// kernel signature descriptor subarray of the kernel_signatures array;";
             Text "// the index order in this array corresponds to the kernel name order in the";
             Text "// kernel_names array";
             Text "static constexpr";
             Text "const unsigned kernel_signature_start[] = {"] ;;
      print (emit_starts 0 (length KernelDescs) 0 KernelDescs) ;;
      print [Text "};"; Text "";
             Text "// Specializations of this template class encompasses information";
             Text "// about a kernel. The kernel is identified by the template";
             Text "// parameter type.";
             Text "template <class KernelNameType> struct KernelInfo;";
             Text "";
             Text "// Specializations of KernelInfo for kernel function types:"] ;;
      print (emit_KernelInfo 0 KernelDescs) ;;
      print [Text "";
             Text "} // namespace detail";
             Text "} // namespace sycl";
             Text "} // namespace cl";
             Text ""].

    (** *** Emission to a named file

        [openFileForWrite] is the host file system: it opens (creating or
        truncating) the named file, or fails with an error message. *)
    Variable openFileForWrite : string → string + nat.

Record Outcome := mkOutcome {
      (* the value returned *)
      result : bool;
      (* what was written, and to which descriptor *)
      written : option (nat * list Line);
      (* [llvm::errs()] *)
      errs : list string;
      emit_diags : list Diagnostic
    }.

    (** [SYCLIntegrationHeader::emit(const StringRef &IntHeaderName)];
        [None] when the emission itself is aborted. *)
Definition emit_file (KernelDescs : SYCLIntegrationHeader)
        (IntHeaderName : string) : option Outcome :=
      if bool_decide (IntHeaderName = "") then Some (mkOutcome false None [] [])
      else
        match openFileForWrite IntHeaderName with
        | inl EC =>
            (* compilation will fail on absent include file - don't need
               to fail here *)
            Some (mkOutcome false None ["Error: " +:+ EC] [])
        | inr IntHeaderFD =>
            s ← exec (emit KernelDescs) (mkState [] ∅ []);
            Some (mkOutcome true (Some (IntHeaderFD, Out s)) [] (Diags s))
        end.

  End Emit.

  (** *** The arrays a C++ compiler reads in the emitted text *)

  (** The elements of [kernel_signatures], in order. *)
Definition kernel_signatures (L : list Line) : list (string * Z * Z) :=
    omap (λ l, match l with
               | SigElem TyStr Inf Off => Some (TyStr, Inf, Off)
               | _ => None
               end) L.

  (** The elements of [kernel_signature_start], in order. *)
Definition kernel_signature_start (L : list Line) : list Z :=
    omap (λ l, match l with StartElem C _ _ => Some C | _ => None end) L.

  (** The specializations of [KernelInfo], as (name, parameter count, the
      constant added to [i] by [getParamDesc]). *)
Definition KernelInfos (L : list Line) : list (string * nat * Z) :=
    omap (λ l, match l with
               | KernelInfoSpec _ Nm N C => Some (Nm, N, C)
               | _ => None
               end) L.

  (** [KernelInfo<...>::getParamDesc(i)] of a specialization whose
      constant is [CurStart]: [kernel_signatures[i+CurStart]], with [i]
      and the sum [unsigned]. *)
Definition getParamDesc (L : list Line) (CurStart : Z) (i : Z)
      : option (string * Z * Z) :=
    kernel_signatures L !! Z.to_nat (Ints.to_unsigned (i + CurStart)).

End Emit.

(** ** Generating the OpenCL kernel of a kernel caller function *)

Module Sema.
  Import Builder IntHeader Synth.

Record State := mkState {
    SyclIntHeader : SYCLIntegrationHeader;
    SyclKernels : list FunctionDecl;
    Diags : list Diagnostic
  }.

  Section Construct.
    Variable getTypeSizeInChars : QualType → Z.
    (** The mangled name of a kernel name type. *)
    Variable constructKernelName : QualType → string.

Definition ConstructOpenCLKernel (KernelCallerFunc : FunctionDecl)
        : SE State FunctionDecl :=
      λ S,
        LE ← getKernelObjectType KernelCallerFunc;
        (* Build list of kernel arguments *)
        B ← exec (buildArgTys LE) (Builder.mkState [] (Diags S));
        (* Extract name from kernel caller parameters and mangle it. *)
        KernelNameType ← match fn_templateArgs KernelCallerFunc with
                         | TA_Type T :: _ => Some T
                         | _ => None
                         end;
        let Name := constructKernelName KernelNameType in
        H ← exec (populateIntHeader getTypeSizeInChars Name KernelNameType LE)
                 (SyclIntHeader S);
        let OpenCLKernel :=
          CreateOpenCLKernelDeclaration Name (Builder.ParamDescs B) in
        OpenCLKernelBody ← CreateOpenCLKernelBody KernelCallerFunc OpenCLKernel;
        let OpenCLKernel :=
          mkFunctionDecl (fn_name OpenCLKernel) (fn_returnType OpenCLKernel)
            (fn_callConv OpenCLKernel) (fn_params OpenCLKernel)
            (fn_templateArgs OpenCLKernel) (fn_attrs OpenCLKernel)
            (Some OpenCLKernelBody) (rd_location (rd_info LE)) in
        Some (OpenCLKernel,
              mkState H (SyclKernels S ++ [OpenCLKernel]) (Builder.Diags B)).

  End Construct.

End Sema.

(** ** 4.3 Device reachability and restriction analysis *)

Module Marker.

  (** A call expression of a function body, as [VisitCallExpr] reads it:
      where it stands, the function it calls directly (none for a call
      through a function value), and its arguments' types and places. *)
Record CallExpr := mkCallExpr {
    getExprLoc : SourceLocation;
    getDirectCallee : option string;
    arguments : list (QualType * SourceLocation)
  }.

  (** A construction, as [VisitCXXConstructExpr] reads it: its
      arguments' types and places, the constructor, and the destructor
      of the constructed type when that type has a user-declared
      destructor. *)
Record CXXConstructExpr := mkCXXConstructExpr {
    ctor_arguments : list (QualType * SourceLocation);
    getConstructor : string;
    getDestructor : option string
  }.

  (** A variable, as [VisitMemberExpr] and [VisitDeclRefExpr] read it;
      [vd_isConstQualified] is
      [getType().getNonReferenceType().isConstQualified()]. *)
Record VarInfo := mkVarInfo {
    vd_isConstQualified : bool;
    vd_isStaticDataMember : bool;
    vd_hasGlobalStorage : bool;
    vd_isStaticLocal : bool;
    vd_isParmVarDecl : bool
  }.

  (** A member access: where it stands, and the member when it is a
      variable (a static data member). *)
Record MemberExprInfo := mkMemberExprInfo {
    me_exprLoc : SourceLocation;
    me_memberVarDecl : option VarInfo
  }.

  (** A reference to a declaration: its type, where its source range
      begins, its [getExprLoc()] and [getLocation()], and the declaration
      when it is a variable. *)
Record DeclRefExprInfo := mkDeclRefExprInfo {
    dre_type : QualType;
    dre_begin : SourceLocation;
    dre_exprLoc : SourceLocation;
    dre_location : SourceLocation;
    dre_varDecl : option VarInfo
  }.

  (** A [new] expression: where it stands and its allocation function,
      with whether that is a replaceable global allocation function. *)
Record CXXNewExpr := mkCXXNewExpr {
    new_exprLoc : SourceLocation;
    getOperatorNew : option (string * bool)
  }.

  (** A callback of the traversal of a body: the member [Visit...] of
      [MarkDeviceFunction] that is called, with what it reads of the
      node it is called on. *)
Inductive Callback :=
  | OnCallExpr (e : CallExpr)
  | OnCXXConstructExpr (E : CXXConstructExpr)
  | OnCXXTypeidExpr (ExprLoc : SourceLocation)
  | OnCXXDynamicCastExpr (ExprLoc : SourceLocation)
  | OnTypedefNameDecl (UnderlyingType : QualType) (Location : SourceLocation)
  | OnRecordDecl (TypeForDecl : QualType) (Location : SourceLocation)
  | OnParmVarDecl (Ty : QualType) (Location : SourceLocation)
  | OnVarDecl (Ty : QualType) (Location : SourceLocation)
  | OnMemberExpr (E : MemberExprInfo)
  | OnDeclRefExpr (E : DeclRefExprInfo)
  | OnCXXNewExpr (E : CXXNewExpr)
  | OnCXXThrowExpr (ExprLoc : SourceLocation)
  | OnCXXCatchStmt (BeginLoc : SourceLocation)
  | OnCXXTryStmt (BeginLoc : SourceLocation)
  | OnSEHTryStmt (BeginLoc : SourceLocation)
  | OnGCCAsmStmt (BeginLoc : SourceLocation)
  | OnMSAsmStmt (BeginLoc : SourceLocation).

  (** A function, named by its canonical declaration.  [FD_body] is
      present when the function has a definition, and stands for that
      body as the visitor sees it: the callbacks that [TraverseStmt]
      makes on it, in order (which nodes a body has, and in which order
      [RecursiveASTVisitor] hands them to the members of the visitor, is
      not in the sources and is taken as given). *)
Record FD := mkFD {
    FD_attrs : list Attr;
    FD_location : SourceLocation;
    FD_begin : SourceLocation;
    FD_returnType : QualType;
    FD_isVirtual : bool;
    FD_body : option (list Callback);
    FD_isInvalidDecl : bool
  }.

Definition addAttr (A : Attr) (F : FD) : FD :=
    mkFD (FD_attrs F ++ [A]) (FD_location F) (FD_begin F) (FD_returnType F)
         (FD_isVirtual F) (FD_body F) (FD_isInvalidDecl F).

Definition setInvalidDecl (F : FD) : FD :=
    mkFD (FD_attrs F) (FD_location F) (FD_begin F) (FD_returnType F)
         (FD_isVirtual F) (FD_body F) true.

  (** [Sema] and the [MarkDeviceFunction] visitor.  [KernelSet] is
      iterated over, so it is kept as a duplicate-free list in insertion
      order. *)
Record State := mkState {
    Decls : gmap string FD;
    SyclKernels : list string;
    Diags : list Diagnostic;
    KernelSet : list string;
    RecursiveSet : gset string
  }.

Definition Diag_ (Loc : SourceLocation) (D : DiagID) : SE State unit :=
    modify (λ s, mkState (Decls s) (SyclKernels s) (Diags s ++ [Diag Loc D])
                         (KernelSet s) (RecursiveSet s)).

  (** A function the map does not hold is a declaration with no
      attribute and no definition. *)
Definition emptyFD : FD :=
    mkFD [] NoLoc NoLoc (BuiltinType BT_Void) false None false.

Definition lookupFD (Ds : gmap string FD) (F : string) : FD :=
    default emptyFD (Ds !! F).

Definition update_decl (F : string) (f : FD → FD) : SE State unit :=
    modify (λ s, mkState (<[F := f (lookupFD (Decls s) F)]> (Decls s))
                         (SyclKernels s) (Diags s)
                         (KernelSet s) (RecursiveSet s)).

Definition AddSyclKernel (F : string) : SE State unit :=
    modify (λ s, mkState (Decls s) (SyclKernels s ++ [F]) (Diags s)
                         (KernelSet s) (RecursiveSet s)).

  (** [KernelSet.insert(F).second]. *)
Definition KernelSet_insert (F : string) : SE State bool :=
    λ s, if bool_decide (F ∈ KernelSet s) then Some (false, s)
         else Some (true, mkState (Decls s) (SyclKernels s) (Diags s)
                                  (KernelSet s ++ [F]) (RecursiveSet s)).

Definition RecursiveSet_insert (F : string) : SE State unit :=
    modify (λ s, mkState (Decls s) (SyclKernels s) (Diags s) (KernelSet s)
                         ({[F]} ∪ RecursiveSet s)).

Definition getDecl (F : string) : SE State FD :=
    gets (λ s, lookupFD (Decls s) F).

  (** Marks a definition as device code and schedules it. *)
Definition markDefinition (F : string) : SE State unit :=
    D ← getDecl F;
    if bool_decide (is_Some (FD_body D)) then
      if negb (hasAttr AK_SYCLDevice (FD_attrs D)) then
        update_decl F (addAttr SYCLDeviceAttr) ;;
        AddSyclKernel F
      else mret tt
    else mret tt.

  Section Visitor.
    (** The call graph for this translation unit: the functions each
        function calls. *)
    Variable SYCLCG : gmap string (list string).
    Variable SYCLAllowFuncPtr : bool.
    (** The diagnostics of the type check of a type used at a place. *)
    Variable CheckSYCLType : QualType → SourceLocation → list Diagnostic.

Definition CheckSYCLType_ (Ty : QualType) (Loc : SourceLocation)
        : SE State unit :=
      modify (λ s, mkState (Decls s) (SyclKernels s)
                           (Diags s ++ CheckSYCLType Ty Loc)
                           (KernelSet s) (RecursiveSet s)).

Definition VisitCallExpr (e : CallExpr) : SE State unit :=
      forM_ (λ Arg, CheckSYCLType_ Arg.1 Arg.2) (arguments e) ;;
      match getDirectCallee e with
      | Some Callee =>
          D ← getDecl Callee;
          RS ← gets RecursiveSet;
          (if bool_decide (Callee ∈ RS) then
             Diag_ (getExprLoc e) (err_sycl_restrict KernelCallRecursiveFunction) ;;
             Diag_ (FD_begin D)
               (note_sycl_recursive_function_declared_here
                  KernelCallRecursiveFunction)
           else mret tt) ;;
          (if FD_isVirtual D then
             Diag_ (getExprLoc e) (err_sycl_restrict KernelCallVirtualFunction)
           else mret tt) ;;
          CheckSYCLType_ (FD_returnType D) (FD_begin D) ;;
          markDefinition Callee
      | None =>
          if negb SYCLAllowFuncPtr then
            Diag_ (getExprLoc e) (err_sycl_restrict KernelCallFunctionPointer)
          else mret tt
      end.

    (** The same for a constructor or a destructor: the definition is
        marked and scheduled whether it is marked already or not. *)
Definition markDefinition_again (F : string) : SE State unit :=
      D ← getDecl F;
      if bool_decide (is_Some (FD_body D)) then
        update_decl F (addAttr SYCLDeviceAttr) ;;
        AddSyclKernel F
      else mret tt.

Definition VisitCXXConstructExpr (E : CXXConstructExpr) : SE State unit :=
      forM_ (λ Arg, CheckSYCLType_ Arg.1 Arg.2) (ctor_arguments E) ;;
      let Ctor := getConstructor E in
      markDefinition_again Ctor ;;
      match getDestructor E with
      | Some Dtor => markDefinition_again Dtor
      | None => mret tt
      end.

Definition VisitCXXTypeidExpr (ExprLoc : SourceLocation) : SE State unit :=
      Diag_ ExprLoc (err_sycl_restrict KernelRTTI).

Definition VisitCXXDynamicCastExpr (ExprLoc : SourceLocation)
        : SE State unit :=
      Diag_ ExprLoc (err_sycl_restrict KernelRTTI).

Definition VisitTypedefNameDecl (UnderlyingType : QualType)
        (Location : SourceLocation) : SE State unit :=
      CheckSYCLType_ UnderlyingType Location.

Definition VisitRecordDecl (TypeForDecl : QualType)
        (Location : SourceLocation) : SE State unit :=
      CheckSYCLType_ TypeForDecl Location.

Definition VisitParmVarDecl (Ty : QualType) (Location : SourceLocation)
        : SE State unit :=
      CheckSYCLType_ Ty Location.

Definition VisitVarDecl (Ty : QualType) (Location : SourceLocation)
        : SE State unit :=
      CheckSYCLType_ Ty Location.

Definition VisitMemberExpr (E : MemberExprInfo) : SE State unit :=
      match me_memberVarDecl E with
      | Some VD =>
          let IsConst := vd_isConstQualified VD in
          if negb IsConst && vd_isStaticDataMember VD then
            Diag_ (me_exprLoc E)
                  (err_sycl_restrict KernelNonConstStaticDataVariable)
          else mret tt
      | None => mret tt
      end.

Definition VisitDeclRefExpr (E : DeclRefExprInfo) : SE State unit :=
      CheckSYCLType_ (dre_type E) (dre_begin E) ;;
      match dre_varDecl E with
      | Some VD =>
          let IsConst := vd_isConstQualified VD in
          if negb IsConst && vd_isStaticDataMember VD then
            Diag_ (dre_exprLoc E)
                  (err_sycl_restrict KernelNonConstStaticDataVariable)
          else if negb IsConst && vd_hasGlobalStorage VD
                  && negb (vd_isStaticLocal VD)
                  && negb (vd_isStaticDataMember VD)
                  && negb (vd_isParmVarDecl VD) then
            Diag_ (dre_location E) (err_sycl_restrict KernelGlobalVariable)
          else mret tt
      | None => mret tt
      end.

    (** Memory storage allocation is not allowed in kernels; the
        placement new operator and any user-defined overloads that do
        not allocate storage are permitted. *)
Definition VisitCXXNewExpr (E : CXXNewExpr) : SE State unit :=
      match getOperatorNew E with
      | Some (FD, isReplaceableGlobalAllocationFunction) =>
          if isReplaceableGlobalAllocationFunction : bool then
            Diag_ (new_exprLoc E) (err_sycl_restrict KernelAllocateStorage)
          else markDefinition FD
      | None => mret tt
      end.

Definition VisitCXXThrowExpr (ExprLoc : SourceLocation) : SE State unit :=
      Diag_ ExprLoc (err_sycl_restrict KernelUseExceptions).

Definition VisitCXXCatchStmt (BeginLoc : SourceLocation) : SE State unit :=
      Diag_ BeginLoc (err_sycl_restrict KernelUseExceptions).

Definition VisitCXXTryStmt (BeginLoc : SourceLocation) : SE State unit :=
      Diag_ BeginLoc (err_sycl_restrict KernelUseExceptions).

Definition VisitSEHTryStmt (BeginLoc : SourceLocation) : SE State unit :=
      Diag_ BeginLoc (err_sycl_restrict KernelUseExceptions).

Definition VisitGCCAsmStmt (BeginLoc : SourceLocation) : SE State unit :=
      Diag_ BeginLoc (err_sycl_restrict KernelUseAssembly).

Definition VisitMSAsmStmt (BeginLoc : SourceLocation) : SE State unit :=
      Diag_ BeginLoc (err_sycl_restrict KernelUseAssembly).

    (** One callback of the traversal. *)
Definition Visit (c : Callback) : SE State unit :=
      match c with
      | OnCallExpr e => VisitCallExpr e
      | OnCXXConstructExpr E => VisitCXXConstructExpr E
      | OnCXXTypeidExpr ExprLoc => VisitCXXTypeidExpr ExprLoc
      | OnCXXDynamicCastExpr ExprLoc => VisitCXXDynamicCastExpr ExprLoc
      | OnTypedefNameDecl Ty Loc => VisitTypedefNameDecl Ty Loc
      | OnRecordDecl Ty Loc => VisitRecordDecl Ty Loc
      | OnParmVarDecl Ty Loc => VisitParmVarDecl Ty Loc
      | OnVarDecl Ty Loc => VisitVarDecl Ty Loc
      | OnMemberExpr E => VisitMemberExpr E
      | OnDeclRefExpr E => VisitDeclRefExpr E
      | OnCXXNewExpr E => VisitCXXNewExpr E
      | OnCXXThrowExpr ExprLoc => VisitCXXThrowExpr ExprLoc
      | OnCXXCatchStmt BeginLoc => VisitCXXCatchStmt BeginLoc
      | OnCXXTryStmt BeginLoc => VisitCXXTryStmt BeginLoc
      | OnSEHTryStmt BeginLoc => VisitSEHTryStmt BeginLoc
      | OnGCCAsmStmt BeginLoc => VisitGCCAsmStmt BeginLoc
      | OnMSAsmStmt BeginLoc => VisitMSAsmStmt BeginLoc
      end.

    (** [TraverseStmt] on a body: its callbacks, in order (each returns
        true, so the traversal is never cut short). *)
Definition TraverseStmt (Body : list Callback) : SE State unit :=
      forM_ Visit Body.

    (** The loop of [CollectKernelSet] over the functions [CalleeNode]
        calls; [recurse] is the recursive call.  [VisitedSet] is the
        local copy of the caller's set. *)
Definition CollectKernelSet_callees
        (recurse : string → gset string → SE State unit)
        (CalleeNode : string)
        : list string → gset string → SE State unit :=
      fix loop N VisitedSet :=
        match N with
        | [] => mret tt
        | Callee :: N' =>
            if bool_decide (Callee ∈ VisitedSet) then
              (* There's a stack frame to visit this Callee above this
                 invocation. Do not recurse here. *)
              RecursiveSet_insert Callee ;;
              RecursiveSet_insert CalleeNode ;;
              loop N' VisitedSet
            else
              let VisitedSet := {[Callee]} ∪ VisitedSet in
              recurse Callee VisitedSet ;;
              let VisitedSet := VisitedSet ∖ {[Callee]} in
              loop N' VisitedSet
        end.

    (** Determines whether the function [FD] is recursive.  [CalleeNode]
        is a function which is called either directly or indirectly from
        [FD].  [fuel] bounds the depth of the recursion. *)
Fixpoint CollectKernelSet (fuel : nat) (CalleeNode FD : string)
        (VisitedSet : gset string) : SE State unit :=
      match fuel with
      | O => unreachable
      | S fuel' =>
          fresh ← KernelSet_insert CalleeNode;
          if negb fresh then
            (* Previously seen, stop recursion. *)
            mret tt
          else
            match SYCLCG !! CalleeNode with
            | None => mret tt
            | Some N =>
                CollectKernelSet_callees
                  (λ Callee VisitedSet,
                     CollectKernelSet fuel' Callee FD VisitedSet)
                  CalleeNode N VisitedSet
            end
      end.

    (** [Attrs.insert(A)]: the collected attributes, in insertion order. *)
Definition Attrs_insert (A : Attr) (Attrs : list Attr) : list Attr :=
      if bool_decide (A ∈ Attrs) then Attrs else Attrs ++ [A].

    (** Traverses over CallGraph to collect list of attributes applied to
        functions called by SYCLKernel.  The back of [WorkList] is the
        head of the list; [fuel] bounds the number of iterations. *)
Fixpoint CollectPossibleKernelAttributes_loop (fuel : nat)
        (Decls : gmap string FD) (Visited : gset string)
        (WorkList : list string) (Attrs : list Attr) : option (list Attr) :=
      match WorkList with
      | [] => Some Attrs
      | FD :: WorkList =>
          match fuel with
          | O => None
          | S fuel' =>
              if bool_decide (FD ∈ Visited) then
                (* We've already seen this Decl *)
                CollectPossibleKernelAttributes_loop fuel' Decls Visited
                  WorkList Attrs
              else
                let Visited := {[FD]} ∪ Visited in
                let D := lookupFD Decls FD in
                let Attrs :=
                  match getAttr AK_IntelReqdSubGroupSize (FD_attrs D) with
                  | Some A => Attrs_insert A Attrs
                  | None => Attrs
                  end in
                match SYCLCG !! FD with
                | None =>
                    CollectPossibleKernelAttributes_loop fuel' Decls Visited
                      WorkList Attrs
                | Some N =>
                    let WorkList :=
                      foldl (λ WorkList Callee,
                               if bool_decide (Callee ∉ Visited)
                               then Callee :: WorkList else WorkList)
                            WorkList N in
                    CollectPossibleKernelAttributes_loop fuel' Decls Visited
                      WorkList Attrs
                end
          end
      end.

Definition CollectPossibleKernelAttributes (fuel : nat)
        (Decls : gmap string FD) (SYCLKernel : string) (Attrs : list Attr)
        : option (list Attr) :=
      CollectPossibleKernelAttributes_loop fuel Decls ∅ [SYCLKernel] Attrs.

    (** The body of the loop over the collected attributes: the switch on
        the kind of the attribute. *)
Definition propagateAttr (SYCLKernel : string) (A : Attr)
        : SE State unit :=
      match A with
      | IntelReqdSubGroupSizeAttr _ Size Loc =>
          K ← getDecl SYCLKernel;
          match getAttr AK_IntelReqdSubGroupSize (FD_attrs K) with
          | Some (IntelReqdSubGroupSizeAttr _ ExistingSize ExistingLoc) =>
              if negb (bool_decide (ExistingSize = Size)) then
                Diag_ (FD_location K) err_conflicting_sycl_kernel_attributes ;;
                Diag_ ExistingLoc note_conflicting_attribute ;;
                Diag_ Loc note_conflicting_attribute ;;
                update_decl SYCLKernel setInvalidDecl
              else mret tt
          | Some _ => unreachable
          | None => update_decl SYCLKernel (addAttr A)
          end
      | _ =>
          (* Unexpected attribute was collected by
             CollectPossibleKernelAttributes *)
          unreachable
      end.

Definition MarkDevice_kernel (fuel : nat) (SYCLKernel : string)
        : SE State unit :=
      CollectKernelSet fuel SYCLKernel SYCLKernel ∅ ;;
      (* Let's propagate attributes from device functions to a SYCL
         kernels *)
      Ds ← gets Decls;
      match CollectPossibleKernelAttributes fuel Ds SYCLKernel [] with
      | None => unreachable
      | Some Attrs => forM_ (propagateAttr SYCLKernel) Attrs
      end.

Definition MarkDevice_definition (elt : string) : SE State unit :=
      D ← getDecl elt;
      match FD_body D with
      | Some Body =>
          (if negb (hasAttr AK_SYCLDevice (FD_attrs D)) then
             update_decl elt (addAttr SYCLDeviceAttr) ;;
             AddSyclKernel elt
           else mret tt) ;;
          TraverseStmt Body
      | None => mret tt
      end.

    (** [Sema::MarkDevice]. *)
Definition MarkDevice (fuel : nat) : SE State unit :=
      Kernels ← gets SyclKernels;
      forM_ (MarkDevice_kernel fuel) Kernels ;;
      KS ← gets KernelSet;
      forM_ MarkDevice_definition KS.

  End Visitor.

End Marker.

(** ** The flattening of a kernel object, as the specification words it

    Both the signature builder and the header code generation walk the
    fields of the kernel object in declaration order, depth first, and
    flatten special objects and wrapper aggregates in place.  The walk is
    written here once, as the list of the fields looked at, each with its
    classification and with its byte offset in the kernel object
    accumulated over the enclosing wrappers. *)

Module Flatten.
  Import Builder IntHeader.

Inductive FieldClass :=
  | SpecialObject
  | WrapperAggregate
  | PointerField
  | ScalarField
  | Unsupported
  (* a field of a wrapper that is no class or struct: not looked into *)
  | NotFlattened.

#[global] Instance FieldClass_eq_dec : EqDecision FieldClass.
  Proof. solve_decision. Defined.

  (** The classification of the type of a field of the kernel object, in
      the order [buildArgTys] tests it. *)
Definition classify_buildArgTys (ArgTy : QualType) : FieldClass :=
    if Util.isSyclAccessorType ArgTy || Util.isSyclSamplerType ArgTy
    then SpecialObject
    else if isStructureOrClassType ArgTy then WrapperAggregate
    else if isPointerType ArgTy then PointerField
    else if isScalarType ArgTy then ScalarField
    else Unsupported.

  (** The same, in the order [populateIntHeader] tests it. *)
Definition classify_populateIntHeader (ArgTy : QualType) : FieldClass :=
    if Util.isSyclAccessorType ArgTy then SpecialObject
    else if Util.isSyclSamplerType ArgTy then SpecialObject
    else if isPointerType ArgTy then PointerField
    else if isStructureOrClassType ArgTy || isScalarType ArgTy then
      if isStructureOrClassType ArgTy then WrapperAggregate else ScalarField
    else Unsupported.

  (** The classification of the type of a field of a wrapper, as both
      [createParamDescForWrappedAccessors] and
      [populateHeaderForWrappedAccessors] test it. *)
Definition classify_wrapped (FldType : QualType) : FieldClass :=
    if isStructureOrClassType FldType then
      if Util.isSyclAccessorType FldType then SpecialObject
      else WrapperAggregate
    else NotFlattened.

  (** A field looked at: the fields it is nested in (outermost first),
      its classification, and its offset in the kernel object. *)
Record Visit := mkVisit {
    v_path : list FieldDecl;
    v_field : FieldDecl;
    v_class : FieldClass;
    v_offset : Z
  }.

Definition v_type (v : Visit) : QualType := fld_type (v_field v).

Definition fieldOffsetInBytes := IntHeader.fieldOffsetInBytes.

  (** The fields of a wrapper, depth first. *)
Fixpoint wrapped_visits (path : list FieldDecl) (Ty : QualType)
      (Offset : Z) {struct Ty} : list Visit :=
    match Ty with
    | RecordType Wrapper =>
        flat_map
          (λ F, let c := classify_wrapped (fld_type F) in
                let Off := Ints.to_uint64 (Offset + fieldOffsetInBytes F) in
                mkVisit path F c Off
                :: match c with
                   | WrapperAggregate =>
                       wrapped_visits (path ++ [F]) (fld_type F) Off
                   | _ => []
                   end)
          (fields Wrapper)
    | _ => []
    end.

  (** The walk over the fields of a wrapper, one field at a time. *)
Definition wrapped_field_visits (path : list FieldDecl) (Offset : Z)
      (F : FieldDecl) : list Visit :=
    let c := classify_wrapped (fld_type F) in
    let Off := Ints.to_uint64 (Offset + fieldOffsetInBytes F) in
    mkVisit path F c Off
    :: match c with
       | WrapperAggregate => wrapped_visits (path ++ [F]) (fld_type F) Off
       | _ => []
       end.

Definition field_visits (F : FieldDecl) : list Visit :=
    let c := classify_buildArgTys (fld_type F) in
    let Off := fieldOffsetInBytes F in
    mkVisit [] F c Off
    :: match c with
       | WrapperAggregate => wrapped_visits [F] (fld_type F) Off
       | _ => []
       end.

Definition visit_sequence (Flds : list FieldDecl) : list Visit :=
    flat_map field_visits Flds.

  (** The parameter types of the initialization contract of a type. *)
Definition init_params (Ty : QualType) : list QualType :=
    default [] (meth_params <$> (getAsCXXRecordDecl Ty ≫= getInitMethod)).

Definition toGlobal (Ty : QualType) : QualType :=
    match Ty with
    | PointerType Quals PointeeTy =>
        PointerType (setAddressSpace Quals AS_opencl_global) PointeeTy
    | _ => Ty
    end.

  (** The raw parameter slots a visited field stands for. *)
Definition raw_slots (v : Visit) : list ParamDesc :=
    match v_class v with
    | SpecialObject => makeParamDesc (v_field v) <$> init_params (v_type v)
    | WrapperAggregate =>
        match v_path v with
        | [] => [makeParamDesc (v_field v) (v_type v)]
        | _ => []
        end
    | PointerField => [makeParamDesc (v_field v) (toGlobal (v_type v))]
    | ScalarField => [makeParamDesc (v_field v) (v_type v)]
    | _ => []
    end.

  (** The [Info] of the descriptor of an accessor. *)
Definition accessor_Info (Ty : QualType) : Z :=
    default 0
      (AccTy ← getAsCXXRecordDecl Ty;
       D ← getIntegralArg AccTy 1;
       Target ← getAccessTarget AccTy;
       Some (Ints.to_int (Z.lor Target (Z.shiftl (Ints.to_int D) 11)))).

  Section Descriptors.
    Variable getTypeSizeInChars : QualType → Z.

Definition size_Info (Ty : QualType) : Z :=
      Ints.to_int (Ints.to_unsigned (getTypeSizeInChars Ty)).

    (** The parameter descriptors a visited field stands for. *)
Definition descriptors (v : Visit) : list KernelParamDesc :=
      let Off := Ints.to_unsigned (v_offset v) in
      match v_class v with
      | SpecialObject =>
          if Util.isSyclAccessorType (v_type v) then
            [mkKernelParamDesc kind_accessor (accessor_Info (v_type v)) Off]
          else
            [mkKernelParamDesc kind_sampler
               (size_Info (default (BuiltinType BT_Void)
                                   (init_params (v_type v) !! 0%nat))) Off]
      | WrapperAggregate =>
          match v_path v with
          | [] => [mkKernelParamDesc kind_std_layout (size_Info (v_type v)) Off]
          | _ => []
          end
      | PointerField =>
          [mkKernelParamDesc kind_pointer (size_Info (v_type v)) Off]
      | ScalarField =>
          [mkKernelParamDesc kind_std_layout (size_Info (v_type v)) Off]
      | _ => []
      end.

  End Descriptors.

  (** The accessors nested in a wrapper, in field order, depth first:
      the class or struct fields that are accessors, and those nested in
      the class or struct fields that are not. *)
Fixpoint nested_accessors (Ty : QualType) {struct Ty} : list FieldDecl :=
    match Ty with
    | RecordType Wrapper =>
        flat_map
          (λ F, if isStructureOrClassType (fld_type F) then
                  if Util.isSyclAccessorType (fld_type F) then [F]
                  else nested_accessors (fld_type F)
                else [])
          (fields Wrapper)
    | _ => []
    end.

  (** The same accessors, each with the fields of the wrappers it is
      reached through from the wrapper, outermost first. *)
Fixpoint nested_accessor_paths (Ty : QualType) {struct Ty}
      : list (list FieldDecl * FieldDecl) :=
    match Ty with
    | RecordType Wrapper =>
        flat_map
          (λ F, if isStructureOrClassType (fld_type F) then
                  if Util.isSyclAccessorType (fld_type F) then [([], F)]
                  else (λ pA, (F :: pA.1, pA.2))
                       <$> nested_accessor_paths (fld_type F)
                else [])
          (fields Wrapper)
    | _ => []
    end.

  (** The raw parameter slots of a special object. *)
Definition init_slots (F : FieldDecl) : list ParamDesc :=
    makeParamDesc F <$> init_params (fld_type F).

  (** The special objects nested in a wrapper as the specification words
      them: every accessor or sampler found by scanning the fields of the
      wrapper and of the wrapper aggregates in it, in field order. *)
Fixpoint nested_special_objects (Ty : QualType) {struct Ty}
      : list FieldDecl :=
    match Ty with
    | RecordType Wrapper =>
        flat_map
          (λ F, if Util.isSyclAccessorType (fld_type F)
                   || Util.isSyclSamplerType (fld_type F)
                then [F]
                else if isStructureOrClassType (fld_type F)
                then nested_special_objects (fld_type F)
                else [])
          (fields Wrapper)
    | _ => []
    end.

End Flatten.

(** ** The field initializations of an entry point, as the specification
    words them

    Walking the fields in the order of the signature builder, a plain,
    pointer or aggregate field is assigned the raw parameter allocated to
    it, and a special object has its [__init] called on the raw
    parameters allocated to it, in order; a special object nested in a
    wrapper is reached through the chain of members leading to it. *)

Module BodySpec.
Import Builder Flatten.

Section Statements.
(** The parameters of the entry point, and the reference to the local
    kernel object. *)
Variable Params : list DeclaratorDecl.
Variable KernelObjCloneRef : Stmt.

(** References to the [N] parameters from index [c] on. *)
Definition ParamDREs (c N : nat) : list Stmt :=
  (λ P, DeclRefExpr P (decl_type P) NoLoc) <$> take N (drop c Params).

(** [kernel_obj.f1.f2...], for the fields [path] nested in one
    another. *)
Definition member_chain (path : list FieldDecl) : Stmt :=
  foldl (λ Base F, MemberExpr Base (MemberField F)) KernelObjCloneRef path.

(** [Base.field.__init(params...)]. *)
Definition init_call (Base : Stmt) (Field : FieldDecl)
    (InitMethod : CXXMethodDecl) (Args : list Stmt) : Stmt :=
  CXXMemberCallExpr
    (MemberExpr (MemberExpr Base (MemberField Field)) (MemberMethod InitMethod))
    (zip_with ImplicitCastExpr (meth_params InitMethod) Args)
    (getReturnType InitMethod).

(** [kernel_obj.field = param]. *)
Definition assignment (Field : FieldDecl) (Param : Stmt) (ParamTy : QualType)
    : Stmt :=
  BinaryOperator (MemberExpr KernelObjCloneRef (MemberField Field))
                 (ImplicitCastExpr ParamTy Param) (fld_type Field).

(** The statements initializing a visited field, when the parameters
    below index [c] are allocated to the fields before it. *)
Definition visit_stmts (c : nat) (v : Visit) : list Stmt :=
  let assign :=
    match Params !! c with
    | Some P =>
        [assignment (v_field v) (DeclRefExpr P (decl_type P) NoLoc) (decl_type P)]
    | None => []
    end in
  match v_class v with
  | SpecialObject =>
      match getAsCXXRecordDecl (v_type v) ≫= getInitMethod with
      | Some InitMethod =>
          [init_call (member_chain (v_path v)) (v_field v) InitMethod
                     (ParamDREs c (getNumParams InitMethod))]
      | None => []
      end
  | WrapperAggregate =>
      match v_path v with
      | [] => assign
      | _ => []
      end
  | PointerField | ScalarField => assign
  | _ => []
  end.

Fixpoint body_stmts (c : nat) (visits : list Visit) : list Stmt :=
  match visits with
  | [] => []
  | v :: visits' =>
      visit_stmts c v ++ body_stmts (c + length (raw_slots v)) visits'
  end.

End Statements.

(** A kernel object the pass supports: no field of an unsupported type,
    and every special object has an [__init] that takes at least one
    parameter. *)
Definition supported (v : Visit) : Prop :=
  match v_class v with
  | Unsupported => False
  | SpecialObject =>
      ∃ InitMethod,
        getAsCXXRecordDecl (v_type v) ≫= getInitMethod = Some InitMethod ∧
        (0 < getNumParams InitMethod)%nat
  | _ => True
  end.

(** The [__init] calls on the special objects [As], each given with the
    fields it is reached through from the local kernel object: the call
    on the first takes the parameters of the entry point [Name] from
    index [c] on, as many as its [__init] has, the call on the next one
    those that follow, and so on. *)
Fixpoint init_calls (Name : string) (CloneRef : Stmt) (c : nat)
    (As : list (list FieldDecl * FieldDecl)) : option (list Stmt) :=
  match As with
  | [] => Some []
  | pA :: As' =>
      InitMethod ← getAsCXXRecordDecl (fld_type pA.2) ≫= getInitMethod;
      Calls ← init_calls Name CloneRef (c + getNumParams InitMethod) As';
      Some (init_call (member_chain CloneRef pA.1) pA.2 InitMethod
              (imap (λ k T,
                       DeclRefExpr (ParmVarDecl Name (c + k)
                                      ("_arg_" +:+ fld_name pA.2) T) T NoLoc)
                    (meth_params InitMethod))
            :: Calls)
  end.

End BodySpec.

(** ** Programs used as examples *)

Module Scenario.
  Import Marker.

Definition void : QualType := BuiltinType BT_Void.

Definition callTo (Loc : SourceLocation) (Callee : string) : CallExpr :=
    mkCallExpr Loc (Some Callee) [].

  (** A defined function at [Loc] whose body holds the calls [Calls] and
      nothing else the visitor has a member for. *)
Definition defined (Attrs : list Attr) (Loc : SourceLocation)
      (Calls : list CallExpr) : FD :=
    mkFD Attrs Loc Loc void false (Some (OnCallExpr <$> Calls)) false.

Definition initial (Ds : gmap string FD) (Kernels : list string) : State :=
    mkState Ds Kernels [] [] ∅.

  (** The chain A -> B -> C -> A, with A itself the registered kernel
      entry point. *)
Definition cycleCG : gmap string (list string) :=
    {[ "A" := ["B"]; "B" := ["C"]; "C" := ["A"] ]}%string.

Definition cycleDecls : gmap string FD :=
    {[ "A" := defined [SYCLDeviceAttr; OpenCLKernelAttr] 10 [callTo 11 "B"];
       "B" := defined [] 20 [callTo 21 "C"];
       "C" := defined [] 30 [callTo 31 "A"] ]}%string.

  (** The same chain, called from a kernel entry point K outside it. *)
Definition calledCycleCG : gmap string (list string) :=
    <["K" := ["A"]]> cycleCG.

Definition calledCycleDecls : gmap string FD :=
    <["K" := defined [SYCLDeviceAttr; OpenCLKernelAttr] 1 [callTo 2 "A"]]>
      (<["A" := defined [] 10 [callTo 11 "B"]]> cycleDecls).

  (** A kernel K calling f and g, which require sub-group sizes [v1] and
      [v2]. *)
Definition twoCalleesCG : gmap string (list string) :=
    {[ "K" := ["f"; "g"] ]}%string.

Definition twoCalleesDecls (v1 v2 : Z) : gmap string FD :=
    {[ "K" := defined [SYCLDeviceAttr; OpenCLKernelAttr] 1
                [callTo 2 "f"; callTo 3 "g"];
       "f" := defined [IntelReqdSubGroupSizeAttr 100 v1 101] 10 [];
       "g" := defined [IntelReqdSubGroupSizeAttr 200 v2 201] 20 [] ]}%string.

  (** *** Kernel objects *)

Definition cl_sycl : DeclContext :=
    NamedContext DK_Namespace "sycl"
      (NamedContext DK_Namespace "cl" TranslationUnitDecl).

Definition int : QualType := BuiltinType BT_Int.
Definition float : QualType := BuiltinType BT_Float.

Definition noQuals : Qualifiers := mkQualifiers false false AS_Default.

  (** A class or struct declared (and defined) in [Ctx]. *)
Definition record (addr : nat) (Tag : TagKind) (Name : string)
      (Ctx : DeclContext) (Flds : list FieldDecl)
      (Meths : list CXXMethodDecl) : CXXRecordDecl :=
    mkCXXRecordDecl
      (mkRecordInfo (mkNamedDecl addr Name Ctx true 0 ("class " +:+ Name))
                    DK_CXXRecord Tag None true false 0 None)
      [] Flds Meths.

  (** [cl::sycl::accessor<int, Dims, mode, target>], whose [__init] takes
      the types [InitParams]. *)
Definition accessor (Dims Target : Z) (InitParams : list QualType)
      : QualType :=
    RecordType
      (mkCXXRecordDecl
         (mkRecordInfo
            (mkNamedDecl 50 "accessor" cl_sycl true 0 "class accessor")
            DK_ClassTemplateSpecialization TTK_Class
            (Some (mkNamedDecl 51 "accessor" cl_sycl true 0
                     "template <typename, int, int, int> class accessor"))
            true false 0 None)
         [TA_Type int; TA_Integral Dims; TA_Integral 1026; TA_Integral Target]
         []
         [mkCXXMethodDecl "__init" InitParams void]).

Definition globalPtr (T : QualType) : QualType :=
    PointerType (mkQualifiers false false AS_opencl_global) T.

  (** The usual accessor: one dimension, global buffer, three raw
      parameters. *)
Definition acc1 : QualType := accessor 1 2014 [globalPtr int; int; int].

  (** [cl::sycl::sampler], initialized from one raw parameter. *)
Definition sampler : QualType :=
    RecordType (record 60 TTK_Class "sampler" cl_sycl
                  [mkFieldDecl "impl" int 0 0]
                  [mkCXXMethodDecl "__init" [int] void]).

  (** A special object whose [__init] takes no parameter. *)
Definition acc0 : QualType := accessor 1 2014 [].

  (** A kernel object (a functor) with the given fields. *)
Definition kernelObject (Flds : list FieldDecl) : CXXRecordDecl :=
    record 70 TTK_Class "Functor" TranslationUnitDecl Flds [].

  (** The kernel caller [kernel_caller<Name, KernelType>(KernelType
      KernelFuncObj) { KernelFuncObj(); }]. *)
Definition kernelCaller (KernelObj : CXXRecordDecl) : FunctionDecl :=
    let P := ParmVarDecl "kernel_caller" 0 "KernelFuncObj" (RecordType KernelObj) in
    mkFunctionDecl "kernel_caller" void CC_C [P]
      [TA_Type (RecordType (record 80 TTK_Class "Name" TranslationUnitDecl [] []));
       TA_Type (RecordType KernelObj)]
      [SYCLKernelAttr]
      (Some (CompoundStmt
               [OtherStmt "CXXOperatorCallExpr"
                  [DeclRefExpr P (RecordType KernelObj) 90]] 89 91))
      88.

  (** Sizes of the types of the examples. *)
Definition sizeInChars (T : QualType) : Z :=
    match T with
    | BuiltinType _ | EnumType _ => 4
    | PointerType _ _ => 8
    | _ => 32
    end.

  (** [{ int x; accessor acc; float y; }]. *)
Definition scalarsAndAccessor : CXXRecordDecl :=
    kernelObject [mkFieldDecl "x" int 0 0; mkFieldDecl "acc" acc1 32 0;
                  mkFieldDecl "y" float 288 0].

  (** [struct Mid { int pad; accessor a; }],
      [struct Outer { int n; Mid mid; }] and the kernel object
      [{ int x; Outer w; }]. *)
Definition Mid : CXXRecordDecl :=
    record 71 TTK_Struct "Mid" TranslationUnitDecl
      [mkFieldDecl "pad" int 0 0; mkFieldDecl "a" acc1 64 0] [].

Definition Outer : CXXRecordDecl :=
    record 72 TTK_Struct "Outer" TranslationUnitDecl
      [mkFieldDecl "n" int 0 0; mkFieldDecl "mid" (RecordType Mid) 128 0] [].

Definition nestedAccessor : CXXRecordDecl :=
    kernelObject [mkFieldDecl "x" int 0 0;
                  mkFieldDecl "w" (RecordType Outer) 256 0].

  (** The same, with four gigabytes less 24 bytes of fields between [x]
      and [w]. *)
Definition farNestedAccessor : CXXRecordDecl :=
    kernelObject [mkFieldDecl "x" int 0 0;
                  mkFieldDecl "w" (RecordType Outer) (8 * (2 ^ 32 - 24)) 0].

  (** A wrapper holding a sampler, [struct WithSampler { sampler s; }],
      and the kernel object [{ WithSampler w; }]. *)
Definition WithSampler : CXXRecordDecl :=
    record 73 TTK_Struct "WithSampler" TranslationUnitDecl
      [mkFieldDecl "s" sampler 0 0] [].

Definition wrappedSampler : CXXRecordDecl :=
    kernelObject [mkFieldDecl "w" (RecordType WithSampler) 0 0].

  (** A kernel object whose only field is a special object initialized
      from no parameter. *)
Definition parameterlessSpecial : CXXRecordDecl :=
    kernelObject [mkFieldDecl "a" acc0 0 0].

  (** Two registered kernels with one descriptor each. *)
Definition twoKernels : IntHeader.SYCLIntegrationHeader :=
    [IntHeader.mkKernelDesc "_ZTS2K0"
       (RecordType (record 81 TTK_Class "K0" TranslationUnitDecl [] []))
       [IntHeader.mkKernelParamDesc IntHeader.kind_accessor 4062 0];
     IntHeader.mkKernelDesc "_ZTS2K1"
       (RecordType (record 82 TTK_Class "K1" TranslationUnitDecl [] []))
       [IntHeader.mkKernelParamDesc IntHeader.kind_std_layout 4 0]].

  (** One registered kernel, named after [K<Box>] where [Box] is a class
      template: the argument of [K] is a template template argument. *)
Definition templateTemplateKernel : IntHeader.SYCLIntegrationHeader :=
    [IntHeader.mkKernelDesc "_ZTS1KI3BoxE"
       (RecordType
          (mkCXXRecordDecl
             (mkRecordInfo
                (mkNamedDecl 83 "K" TranslationUnitDecl true 0 "class K")
                DK_ClassTemplateSpecialization TTK_Class
                (Some (mkNamedDecl 84 "K" TranslationUnitDecl true 0
                         "template <template <typename> class> class K"))
                true false 0 None)
             [TA_Template "Box"] [] []))
       []].

End Scenario.

(** ** Notions the further properties are stated with *)

(** [enum target]: the access targets of an accessor, with their
    values. *)
Module Target.

Inductive target :=
| global_buffer
| constant_buffer
| local
| image
| host_buffer
| host_image
| image_array.

Definition value (t : target) : Z :=
  match t with
  | global_buffer => 2014
  | constant_buffer => 2015
  | local => 2016
  | image => 2017
  | host_buffer => 2018
  | host_image => 2019
  | image_array => 2020
  end.

End Target.

(** The call graph as a relation. *)
Module CallGraph.

Section Graph.
Variable SYCLCG : gmap string (list string).

(** The node of [x] lists [y] among the functions [x] calls. *)
Definition calls (x y : string) : Prop :=
  ∃ N, SYCLCG !! x = Some N ∧ y ∈ N.

(** [y] is [x], or is called directly or indirectly from [x]. *)
Definition reachable : relation string := rtc calls.

(** [x] calls itself, directly or indirectly. *)
Definition on_cycle (x : string) : Prop := tc calls x x.

(** A set of functions that holds the callees of its members. *)
Definition closed (KS : list string) : Prop :=
  ∀ x y, x ∈ KS → calls x y → y ∈ KS.

End Graph.

End CallGraph.

(** [getSubGroupSize()] and [getLocation()] of an attribute. *)
Definition getSubGroupSize (A : Attr) : Z :=
  match A with IntelReqdSubGroupSizeAttr _ Size _ => Size | _ => 0 end.

Definition getLocation (A : Attr) : SourceLocation :=
  match A with
  | IntelReqdSubGroupSizeAttr _ _ Loc | ReqdWorkGroupSizeAttr _ _ _ _ Loc
  | VecTypeHintAttr _ Loc => Loc
  | _ => NoLoc
  end.

(** What [MarkDevice] reports for a kernel at [KernelLoc] that carries
    [Existing] when [A] is propagated to it. *)
Definition conflict (KernelLoc : SourceLocation) (Existing A : Attr)
    : list Diagnostic :=
  if bool_decide (getSubGroupSize Existing = getSubGroupSize A) then []
  else [Diag KernelLoc err_conflicting_sycl_kernel_attributes;
        Diag (getLocation Existing) note_conflicting_attribute;
        Diag (getLocation A) note_conflicting_attribute].

(** What the signature builder reports for a field of the kernel object:
    an error when the field is a class or struct, no special object, and
    not of standard layout; the place is that of the variable captured
    first when the kernel object captures, else that of the field (and
    when the first capture has no variable, the builder does not
    return). *)
Definition non_std_layout_report (KernelObj : CXXRecordDecl) (F : FieldDecl)
    : list Diagnostic :=
  if bool_decide (Flatten.classify_buildArgTys (fld_type F)
                  = Flatten.WrapperAggregate)
     && negb (isStandardLayoutType (fld_type F))
  then match Builder.reportLocation KernelObj F with
       | Some Loc => [Diag Loc err_sycl_non_std_layout_type]
       | None => []
       end
  else [].

(** A field the header code generation can describe: an accessor
    carries its dimension and its target as the integral template
    arguments 1 and 3. *)
Definition describable (v : Flatten.Visit) : Prop :=
  Flatten.v_class v = Flatten.SpecialObject →
  Util.isSyclAccessorType (Flatten.v_type v) = true →
  ∃ RD Dims Tgt,
    Flatten.v_type v = RecordType RD
    ∧ IntHeader.getIntegralArg RD 1 = Some Dims
    ∧ IntHeader.getIntegralArg RD 3 = Some Tgt.

(** The opening parenthesis. *)
Definition open_paren : Ascii.ascii :=
  Ascii.Ascii false false false true false true false false.

(** The context of a declaration made in the namespaces [Names],
    outermost first, which are themselves declared in [Outer]. *)
Definition inNamespaces (Names : list string) (Outer : DeclContext)
    : DeclContext :=
  foldl (λ Ctx n, NamedContext DK_Namespace n Ctx) Outer Names.

(** A kernel name type whose forward declarations can be emitted: behind
    its pointers, no class template specialization met in it, in its type
    template arguments or in the type elements of their packs, has a
    template template argument, and the template of each is known. *)
Fixpoint declarable (T : QualType) {struct T} : bool :=
  match T with
  | PointerType _ Pointee => declarable Pointee
  | RecordType (mkCXXRecordDecl info Args _ _) =>
      if bool_decide (rd_kind info = DK_ClassTemplateSpecialization) then
        forallb (λ Arg,
                   match Arg with
                   | TA_Type AT => declarable AT
                   | TA_Pack Pack =>
                       forallb (λ PT,
                                  match PT with
                                  | TA_Type PT' => declarable PT'
                                  | _ => true
                                  end) Pack
                   | TA_Template _ => false
                   | _ => true
                   end) Args
        && bool_decide (is_Some (rd_specializedTemplate info))
      else true
  | _ => true
  end.

(** The visited fields that get a descriptor and parameters of their
    own: the fields of the kernel object and the special objects nested
    in its wrappers; not the wrappers nested in a wrapper, nor the
    fields of a wrapper that are no class or struct. *)
Definition flattened (v : Flatten.Visit) : bool :=
  match Flatten.v_class v with
  | Flatten.SpecialObject | Flatten.PointerField | Flatten.ScalarField => true
  | Flatten.WrapperAggregate => bool_decide (Flatten.v_path v = [])
  | _ => false
  end.

(** ** What the pass reports for a recursive call *)

(** The error [VisitCallExpr] reports at a call of a function marked
    recursive, and the note it puts at the declaration of that function
    (lines 91-99). *)
Definition recursive_call_error (e : Marker.CallExpr) : Diagnostic :=
  Diag (Marker.getExprLoc e) (err_sycl_restrict KernelCallRecursiveFunction).

Definition recursive_function_note (Ds : gmap string Marker.FD)
    (Callee : string) : Diagnostic :=
  Diag (Marker.FD_begin (Marker.lookupFD Ds Callee))
       (note_sycl_recursive_function_declared_here KernelCallRecursiveFunction).




(** * Properties of the pass *)

(** ** Runs of the state-and-failure monad *)

Section SE_facts.
  Context {St : Type}.

Lemma SE_bind_Some {A B} (m : SE St A) (f : A → SE St B) s r :
    (m ≫= f) s = Some r ↔ ∃ a s', m s = Some (a, s') ∧ f a s' = Some r.
  Proof.
    unfold mbind, SE_bind. destruct (m s) as [[a s']|]; naive_solver.
  Qed.

Lemma SE_bind_eq {A B} (m : SE St A) (f : A → SE St B) s a s' :
    m s = Some (a, s') → (m ≫= f) s = f a s'.
  Proof. unfold mbind, SE_bind. by intros ->. Qed.

Lemma exec_Some {A} (m : SE St A) s s' :
    exec m s = Some s' ↔ ∃ a, m s = Some (a, s').
  Proof.
    unfold exec. destruct (m s) as [[a s1]|]; simpl; [|naive_solver].
    split; [intros [= <-]; eauto | intros [? [= <- <-]]; done].
  Qed.

Lemma forM__cons {A} (body : A → SE St unit) x l s :
    forM_ body (x :: l) s = (body x ;; forM_ body l) s.
  Proof. reflexivity. Qed.

Lemma forM__app {A} (body : A → SE St unit) l1 l2 s :
    forM_ body (l1 ++ l2) s = (forM_ body l1 ;; forM_ body l2) s.
  Proof.
    revert s. induction l1 as [|x l1 IH]; intros s; [done|].
    simpl. unfold mbind, SE_bind. destruct (body x s) as [[[] s1]|]; [|done].
    apply IH.
  Qed.


  (** A loop whose body returns wherever an invariant holds, and keeps
      it, returns. *)
Lemma forM__total {A} (I : St → Prop) (body : A → SE St unit) l :
    Forall (λ x, ∀ s, I s → ∃ s', body x s = Some (tt, s') ∧ I s') l →
    ∀ s, I s → ∃ s', forM_ body l s = Some (tt, s') ∧ I s'.
  Proof.
    induction 1 as [|x l Hx _ IH]; intros s Hs; [by exists s|].
    destruct (Hx s Hs) as (s1 & H1 & Hs1). destruct (IH s1 Hs1) as (s' & H2 & Hs').
    exists s'. split; [|done]. rewrite forM__cons. by erewrite SE_bind_eq.
  Qed.

End SE_facts.

(** ** Attribute collection (C10) *)

Section Attributes.
  Import Marker.
  Variable SYCLCG : gmap string (list string).

Definition isReqdSubGroupSize (A : Attr) : Prop :=
    getKind A = AK_IntelReqdSubGroupSize.

Lemma getAttr_Some K l A :
    getAttr K l = Some A → A ∈ l ∧ getKind A = K.
  Proof.
    unfold getAttr. intros H. apply find_some in H as [Hin Hk].
    split; [by apply list_elem_of_In | by apply bool_decide_eq_true in Hk].
  Qed.

Lemma Attrs_insert_Forall (P : Attr → Prop) A Attrs :
    P A → Forall P Attrs → Forall P (Attrs_insert A Attrs).
  Proof.
    intros HA HAs. unfold Attrs_insert. case_bool_decide; [done|].
    apply Forall_app; auto.
  Qed.

  (** Only attributes found by [getAttr<IntelReqdSubGroupSizeAttr>] enter
      the set. *)
Lemma CollectPossibleKernelAttributes_loop_kind fuel Ds :
    ∀ Visited WorkList Attrs R,
      Forall isReqdSubGroupSize Attrs →
      CollectPossibleKernelAttributes_loop SYCLCG fuel Ds Visited WorkList Attrs
        = Some R →
      Forall isReqdSubGroupSize R.
  Proof.
    induction fuel as [|fuel IH]; intros Visited [|FD WorkList] Attrs R HA Hrun;
      simpl in Hrun; try by simplify_eq.
    case_bool_decide; [by eapply IH|].
    assert (Forall isReqdSubGroupSize
              match getAttr AK_IntelReqdSubGroupSize (FD_attrs (lookupFD Ds FD)) with
              | Some A => Attrs_insert A Attrs
              | None => Attrs
              end) as HA'.
    { destruct (getAttr _ _) as [A|] eqn:HgA; [|done].
      apply Attrs_insert_Forall; [|done]. by apply getAttr_Some in HgA as [_ ?]. }
    destruct (SYCLCG !! FD); by eapply IH.
  Qed.

  (** The work list empties: a function is expanded at most once. *)
Lemma CollectPossibleKernelAttributes_loop_total Ds (n : nat) :
    ∀ Visited WorkList Attrs,
      (size (dom SYCLCG ∖ Visited) ≤ n)%nat →
      ∃ fuel0 R, ∀ fuel, (fuel0 ≤ fuel)%nat →
        CollectPossibleKernelAttributes_loop SYCLCG fuel Ds Visited WorkList Attrs
          = Some R.
  Proof.
    induction n as [n IH] using lt_wf_ind.
    intros Visited WorkList. revert Visited.
    induction WorkList as [|FD WorkList IHWL]; intros Visited Attrs Hn.
    - exists 0%nat, Attrs. by intros [|?] _.
    - destruct (decide (FD ∈ Visited)) as [Hin|Hin].
      + destruct (IHWL Visited Attrs Hn) as (f0 & R & HR).
        exists (S f0), R. intros [|fuel] Hf; [lia|]. simpl.
        rewrite bool_decide_true by done. apply HR. lia.
      + destruct (SYCLCG !! FD) as [N|] eqn:HN.
        * assert (size (dom SYCLCG ∖ ({[FD]} ∪ Visited))
                  < size (dom SYCLCG ∖ Visited))%nat as Hlt.
          { apply subset_size. apply elem_of_dom_2 in HN. set_solver. }
          edestruct (IH _ ltac:(eapply Nat.lt_le_trans; [exact Hlt|exact Hn])
                       ({[FD]} ∪ Visited)) as (f0 & R & HR); [reflexivity|].
          exists (S f0), R. intros [|fuel] Hf; [lia|]. simpl.
          rewrite bool_decide_false by done. rewrite HN. apply HR. lia.
        * edestruct (IHWL ({[FD]} ∪ Visited)) as (f0 & R & HR).
          { etrans; [|exact Hn]. apply subseteq_size. set_solver. }
          exists (S f0), R. intros [|fuel] Hf; [lia|]. simpl.
          rewrite bool_decide_false by done. rewrite HN. apply HR. lia.
  Qed.

Lemma CollectPossibleKernelAttributes_loop_mono fuel Ds :
    ∀ fuel' Visited WorkList Attrs R,
      (fuel ≤ fuel')%nat →
      CollectPossibleKernelAttributes_loop SYCLCG fuel Ds Visited WorkList Attrs
        = Some R →
      CollectPossibleKernelAttributes_loop SYCLCG fuel' Ds Visited WorkList Attrs
        = Some R.
  Proof.
    induction fuel as [|fuel IH]; intros fuel' Visited [|FD WorkList] Attrs R Hle Hrun;
      try (by destruct fuel'); try done.
    destruct fuel' as [|fuel']; [lia|]. simpl in *.
    case_bool_decide; [apply IH; [lia|done]|].
    destruct (SYCLCG !! FD); (apply IH; [lia|done]).
  Qed.

  (** The switch over the kind of a collected attribute takes the
      [IntelReqdSubGroupSize] case, which never aborts. *)
Lemma propagateAttr_total SYCLKernel A s :
    isReqdSubGroupSize A → is_Some (propagateAttr SYCLKernel A s).
  Proof.
    intros HA. destruct A; try discriminate HA.
    unfold propagateAttr, getDecl, gets, mbind, SE_bind.
    destruct (getAttr _ _) as [E|] eqn:HE; [|by eexists].
    apply getAttr_Some in HE as [_ HE]. destruct E; try discriminate HE.
    case_bool_decide; simpl; by eexists.
  Qed.

Lemma propagateAttrs_total SYCLKernel Attrs :
    Forall isReqdSubGroupSize Attrs →
    ∀ s, is_Some (forM_ (propagateAttr SYCLKernel) Attrs s).
  Proof.
    induction 1 as [|A Attrs HA _ IH]; intros s; [by eexists|].
    destruct (propagateAttr_total SYCLKernel A s HA) as [[[] s1] H1].
    rewrite forM__cons. erewrite SE_bind_eq by done. apply IH.
  Qed.

End Attributes.

(** C10: every attribute that [CollectPossibleKernelAttributes] puts
    into the collected set is of kind [IntelReqdSubGroupSize]; the walk
    ends, and the loop of [MarkDevice] over the collected attributes
    never reaches the default branch of its switch (it does not abort). *)
Theorem collected_attributes_are_IntelReqdSubGroupSize
    (SYCLCG : gmap string (list string)) (Ds : gmap string Marker.FD)
    (SYCLKernel : string) :
  ∃ fuel0 Attrs,
    (∀ fuel, (fuel0 ≤ fuel)%nat →
       Marker.CollectPossibleKernelAttributes SYCLCG fuel Ds SYCLKernel []
         = Some Attrs) ∧
    Forall (λ A, getKind A = AK_IntelReqdSubGroupSize) Attrs ∧
    ∀ s, is_Some (forM_ (Marker.propagateAttr SYCLKernel) Attrs s).
Proof.
  destruct (CollectPossibleKernelAttributes_loop_total SYCLCG Ds
              (size (dom SYCLCG ∖ (∅ : gset string))) ∅ [SYCLKernel] [])
    as (fuel0 & Attrs & Hrun); [done|].
  assert (Forall isReqdSubGroupSize Attrs) as Hkind.
  { eapply CollectPossibleKernelAttributes_loop_kind; [|by apply (Hrun fuel0)].
    constructor. }
  exists fuel0, Attrs. split_and!; [exact Hrun|exact Hkind|].
  by apply propagateAttrs_total.
Qed.

(** ** The kernel set: termination and frame *)

Section KernelSet.
  Import Marker.
  Variable SYCLCG : gmap string (list string).

  (** What [CollectKernelSet] may change: the kernel set grows, the
      recursive set changes; declarations, registered kernels and
      diagnostics stay. *)
Record grows (s s' : State) : Prop := mkGrows {
    grows_KernelSet : KernelSet s ⊆ KernelSet s';
    grows_Decls : Decls s' = Decls s;
    grows_SyclKernels : SyclKernels s' = SyclKernels s;
    grows_Diags : Diags s' = Diags s
  }.

#[local] Instance grows_refl : Reflexive grows.
  Proof. by intros s. Qed.

#[local] Instance grows_trans : Transitive grows.
  Proof.
    intros s1 s2 s3 [] []. split; [by etrans|congruence..].
  Qed.

  (** Nodes of the call graph not yet in the kernel set. *)
Definition pending (s : State) : nat :=
    size (dom SYCLCG ∖ list_to_set (KernelSet s)).

Lemma grows_pending s s' : grows s s' → (pending s' ≤ pending s)%nat.
  Proof.
    intros [H _ _ _]. unfold pending. apply subseteq_size.
    assert (list_to_set (C := gset string) (KernelSet s)
            ⊆ list_to_set (KernelSet s')) by (intros x; set_solver).
    set_solver.
  Qed.

Lemma RecursiveSet_insert_grows F s :
    ∃ s', RecursiveSet_insert F s = Some (tt, s') ∧ grows s s'.
  Proof. eexists; split; [reflexivity|by split]. Qed.

  (** The depth of the recursion is bounded by the number of call graph
      nodes outside the kernel set. *)
Lemma CollectKernelSet_total (n : nat) :
    ∀ s CalleeNode FD VisitedSet, (pending s ≤ n)%nat →
      ∃ s', grows s s' ∧
        ∀ fuel, (n + 1 ≤ fuel)%nat →
          CollectKernelSet SYCLCG fuel CalleeNode FD VisitedSet s = Some (tt, s').
  Proof.
    induction n as [n IH] using lt_wf_ind.
    intros s CalleeNode FD VisitedSet Hn.
    destruct (decide (CalleeNode ∈ KernelSet s)) as [Hin|Hin].
    { exists s. split; [done|]. intros [|fuel] Hf; [lia|]. simpl.
      unfold KernelSet_insert, mbind, SE_bind. by rewrite bool_decide_true. }
    set (s1 := mkState (Decls s) (SyclKernels s) (Diags s)
                       (KernelSet s ++ [CalleeNode]) (RecursiveSet s)).
    assert (grows s s1) as G1.
    { split; [|done..]. simpl. set_solver. }
    destruct (SYCLCG !! CalleeNode) as [N|] eqn:HN.
    - assert (pending s1 < n)%nat as Hlt.
      { eapply Nat.lt_le_trans; [|exact Hn]. unfold pending.
        apply subset_size. apply elem_of_dom_2 in HN. subst s1. simpl.
        rewrite list_to_set_app_L. simpl.
        assert (CalleeNode ∉ list_to_set (C := gset string) (KernelSet s))
          by (rewrite elem_of_list_to_set; done).
        set_solver. }
      assert (∃ s', grows s1 s' ∧ ∀ fuel', (n ≤ fuel')%nat →
                CollectKernelSet_callees
                  (λ Callee VS, CollectKernelSet SYCLCG fuel' Callee FD VS)
                  CalleeNode N VisitedSet s1 = Some (tt, s')) as (s' & G' & H').
      { clearbody s1. clear Hin G1 HN Hn. revert VisitedSet s1 Hlt.
        induction N as [|Callee N IHN]; intros VisitedSet s1 Hlt.
        - exists s1. by split.
        - simpl. case_bool_decide.
          + destruct (RecursiveSet_insert_grows Callee s1) as (s2 & E2 & G2).
            destruct (RecursiveSet_insert_grows CalleeNode s2) as (s3 & E3 & G3).
            destruct (IHN VisitedSet s3) as (s4 & G4 & E4).
            { pose proof (grows_pending _ _ G2). pose proof (grows_pending _ _ G3). lia. }
            exists s4. split; [by repeat (etrans; [eassumption|])|].
            intros fuel' Hf.
            rewrite (SE_bind_eq _ _ _ _ _ E2), (SE_bind_eq _ _ _ _ _ E3). by apply E4.
          + destruct (IH (pending s1) Hlt s1 Callee FD
                         ({[Callee]} ∪ VisitedSet) ltac:(lia)) as (s2 & G2 & E2).
            destruct (IHN (({[Callee]} ∪ VisitedSet) ∖ {[Callee]}) s2)
              as (s3 & G3 & E3).
            { pose proof (grows_pending _ _ G2). lia. }
            exists s3. split; [by etrans|].
            intros fuel' Hf.
            rewrite (SE_bind_eq _ _ _ _ _ (E2 fuel' ltac:(lia))).
            by apply E3. }
      exists s'. split; [by etrans|]. intros [|fuel] Hf; [lia|]. simpl.
      unfold KernelSet_insert, mbind at 1, SE_bind at 1.
      rewrite bool_decide_false by done. simpl. rewrite HN. apply H'. lia.
    - exists s1. split; [done|]. intros [|fuel] Hf; [lia|]. simpl.
      unfold KernelSet_insert, mbind, SE_bind. rewrite bool_decide_false by done.
      by rewrite HN.
  Qed.

End KernelSet.

(** ** Attribute propagation (C7) *)

Section Propagation.
  Import Marker.

Lemma lookupFD_insert Ds F D : lookupFD (<[F := D]> Ds) F = D.
  Proof. unfold lookupFD. by rewrite lookup_insert_eq. Qed.

Lemma getAttr_app_None K l A :
    getAttr K l = None → getKind A = K → getAttr K (l ++ [A]) = Some A.
  Proof.
    unfold getAttr. induction l as [|B l IH]; simpl; intros Hn HA.
    - by rewrite bool_decide_true.
    - destruct (bool_decide (getKind B = K)); [done|]. by apply IH.
  Qed.

  (** Two collected attributes, on a kernel that carries none: the first
      is attached, the second is compared with it. *)
Lemma propagate_two SYCLKernel a1 v1 l1 a2 v2 l2 s :
    let A1 := IntelReqdSubGroupSizeAttr a1 v1 l1 in
    let A2 := IntelReqdSubGroupSizeAttr a2 v2 l2 in
    let K := lookupFD (Decls s) SYCLKernel in
    getAttr AK_IntelReqdSubGroupSize (FD_attrs K) = None →
    ∃ s', forM_ (propagateAttr SYCLKernel) [A1; A2] s = Some (tt, s') ∧
      FD_attrs (lookupFD (Decls s') SYCLKernel) = FD_attrs K ++ [A1] ∧
      (v1 ≠ v2 →
         Diags s' = Diags s ++ [Diag (FD_location K) err_conflicting_sycl_kernel_attributes;
                                Diag l1 note_conflicting_attribute;
                                Diag l2 note_conflicting_attribute] ∧
         FD_isInvalidDecl (lookupFD (Decls s') SYCLKernel) = true) ∧
      (v1 = v2 →
         Diags s' = Diags s ∧
         FD_isInvalidDecl (lookupFD (Decls s') SYCLKernel) = FD_isInvalidDecl K).
  Proof.
    intros A1 A2 K HK.
    unfold forM_, propagateAttr, mbind, SE_bind, getDecl, gets, update_decl,
      modify, Diag_, mret, SE_ret. simpl.
    fold K. rewrite HK. simpl. rewrite lookupFD_insert. simpl.
    rewrite (getAttr_app_None _ _ A1) by done. subst A1 A2. simpl.
    destruct (decide (v1 = v2)) as [->|Hne].
    - rewrite bool_decide_true by done. simpl. eexists. split; [done|].
      simpl. rewrite lookupFD_insert. by split_and!.
    - rewrite bool_decide_false by done. simpl. eexists. split; [done|].
      simpl. rewrite !lookupFD_insert. simpl. rewrite <- !app_assoc. by split_and!.
  Qed.

End Propagation.

(** C7: when two instances of the required sub-group size attribute reach
    a kernel entry point that carries none, the walk over the kernel ends;
    if their values differ, exactly one conflict diagnostic is produced,
    followed by one note per origin, and the entry point is marked
    invalid; if the values are the same, no diagnostic is produced and
    the attribute is attached. *)
Theorem conflicting_sub_group_sizes
    (SYCLCG : gmap string (list string)) (s : Marker.State)
    (SYCLKernel : string) (a1 a2 : nat) (v1 v2 : Z) (l1 l2 : SourceLocation)
    (fuel0 : nat) :
  let A1 := IntelReqdSubGroupSizeAttr a1 v1 l1 in
  let A2 := IntelReqdSubGroupSizeAttr a2 v2 l2 in
  let K := Marker.lookupFD (Marker.Decls s) SYCLKernel in
  getAttr AK_IntelReqdSubGroupSize (Marker.FD_attrs K) = None →
  Marker.CollectPossibleKernelAttributes SYCLCG fuel0 (Marker.Decls s)
    SYCLKernel [] = Some [A1; A2] →
  ∃ fuel1 s',
    (∀ fuel, (fuel1 ≤ fuel)%nat →
       Marker.MarkDevice_kernel SYCLCG fuel SYCLKernel s = Some (tt, s')) ∧
    let K' := Marker.lookupFD (Marker.Decls s') SYCLKernel in
    (v1 ≠ v2 →
       Marker.Diags s' =
         Marker.Diags s ++
           [Diag (Marker.FD_location K) err_conflicting_sycl_kernel_attributes;
            Diag l1 note_conflicting_attribute;
            Diag l2 note_conflicting_attribute] ∧
       Marker.FD_isInvalidDecl K' = true) ∧
    (v1 = v2 →
       Marker.Diags s' = Marker.Diags s ∧
       Marker.FD_isInvalidDecl K' = Marker.FD_isInvalidDecl K ∧
       getAttr AK_IntelReqdSubGroupSize (Marker.FD_attrs K') = Some A1).
Proof.
  intros A1 A2 K HK Hcollect.
  destruct (CollectKernelSet_total SYCLCG (pending SYCLCG s) s SYCLKernel
              SYCLKernel ∅ ltac:(done)) as (s1 & [_ HD HS HG] & Hks).
  destruct (propagate_two SYCLKernel a1 v1 l1 a2 v2 l2 s1) as (s' & Hrun & Hattrs & Hne & Heq).
  { by rewrite HD. }
  exists (Nat.max fuel0 (pending SYCLCG s + 1)), s'. split.
  - intros fuel Hf. unfold Marker.MarkDevice_kernel.
    rewrite (SE_bind_eq _ _ _ _ _ (Hks fuel ltac:(lia))).
    unfold mbind at 1, SE_bind at 1, gets. rewrite HD.
    unfold Marker.CollectPossibleKernelAttributes in *.
    rewrite (CollectPossibleKernelAttributes_loop_mono SYCLCG fuel0 _ fuel
               _ _ _ _ ltac:(lia) Hcollect).
    exact Hrun.
  - rewrite HD, HG in *. fold K in Hattrs, Hne, Heq. simpl. split_and!.
    + exact Hne.
    + intros E. destruct (Heq E) as [? ?]. split_and!; [done..|].
      rewrite Hattrs. by apply getAttr_app_None.
Qed.

(** The witness of C7: f requires 16 and g requires 32; the attribute of
    g is collected first. *)
Lemma conflicting_sub_group_sizes_witness :
  ∃ fuel1 s',
    (∀ fuel, (fuel1 ≤ fuel)%nat →
       Marker.MarkDevice_kernel Scenario.twoCalleesCG fuel "K"
         (Scenario.initial (Scenario.twoCalleesDecls 16 32) ["K"%string])
       = Some (tt, s')) ∧
    Marker.Diags s' = [Diag 1 err_conflicting_sycl_kernel_attributes;
                       Diag 201 note_conflicting_attribute;
                       Diag 101 note_conflicting_attribute] ∧
    Marker.FD_isInvalidDecl (Marker.lookupFD (Marker.Decls s') "K") = true.
Proof.
  destruct (conflicting_sub_group_sizes Scenario.twoCalleesCG
              (Scenario.initial (Scenario.twoCalleesDecls 16 32) ["K"%string])
              "K" 200 100 32 16 201%nat 101%nat 3)
    as (fuel1 & s' & Hrun & Hne & _).
  - vm_compute. reflexivity.
  - vm_compute. reflexivity.
  - exists fuel1, s'. split; [exact Hrun|]. apply Hne. discriminate.
Defined.

(** The same value on both callees: nothing is reported and the kernel
    gets the attribute. *)
Example same_sub_group_size_attached :
  ∃ s', exec (Marker.MarkDevice Scenario.twoCalleesCG false (λ _ _, []) 3)
             (Scenario.initial (Scenario.twoCalleesDecls 16 16) ["K"%string])
        = Some s' ∧
    Marker.Diags s' = [] ∧
    Marker.FD_isInvalidDecl (Marker.lookupFD (Marker.Decls s') "K") = false ∧
    getAttr AK_IntelReqdSubGroupSize
      (Marker.FD_attrs (Marker.lookupFD (Marker.Decls s') "K"))
    = Some (IntelReqdSubGroupSizeAttr 200 16 201).
Proof. eexists. split; [vm_compute; reflexivity|]. by vm_compute. Qed.

(** ** Recursion detection on two call graphs *)

(** The walk starts from a kernel entry point with an empty path set: the
    entry point itself is on no path.  Were A of the chain A -> B -> C ->
    A registered as the entry point, the call of A from C would not be
    found on the path, and nothing marked or reported.  (The entry points
    the pass registers are declarations it makes itself, which no call
    names.) *)
Example recursion_through_kernel_entry_undetected :
  ∃ s', exec (Marker.MarkDevice Scenario.cycleCG false (λ _ _, []) 4)
             (Scenario.initial Scenario.cycleDecls ["A"%string])
        = Some s' ∧
    Marker.KernelSet s' = ["A"; "B"; "C"]%string ∧
    Marker.RecursiveSet s' = ∅ ∧
    Marker.Diags s' = [].
Proof. eexists. split; [vm_compute; reflexivity|]. by vm_compute. Qed.

(** The same chain called from a kernel entry point: A (entered first) and
    C (which calls it back) are marked, B is not; the calls of A and of C
    are reported, each with a note at the callee. *)
Example recursion_below_kernel_entry_detected :
  ∃ s', exec (Marker.MarkDevice Scenario.calledCycleCG false (λ _ _, []) 5)
             (Scenario.initial Scenario.calledCycleDecls ["K"%string])
        = Some s' ∧
    Marker.RecursiveSet s' = {["A"; "C"]}%string ∧
    Marker.Diags s' =
      [Diag 2 (err_sycl_restrict KernelCallRecursiveFunction);
       Diag 10 (note_sycl_recursive_function_declared_here KernelCallRecursiveFunction);
       Diag 21 (err_sycl_restrict KernelCallRecursiveFunction);
       Diag 30 (note_sycl_recursive_function_declared_here KernelCallRecursiveFunction);
       Diag 31 (err_sycl_restrict KernelCallRecursiveFunction);
       Diag 10 (note_sycl_recursive_function_declared_here KernelCallRecursiveFunction)].
Proof. eexists. split; [vm_compute; reflexivity|]. by vm_compute. Qed.

(** Whatever the call graph, the walk from a kernel entry point ends: its
    depth is bounded by the number of nodes of the call graph. *)
Lemma CollectKernelSet_terminates (SYCLCG : gmap string (list string))
    (s : Marker.State) (SYCLKernel : string) :
  ∃ s', ∀ fuel, (size (dom SYCLCG) + 1 ≤ fuel)%nat →
    Marker.CollectKernelSet SYCLCG fuel SYCLKernel SYCLKernel ∅ s
      = Some (tt, s').
Proof.
  destruct (CollectKernelSet_total SYCLCG (size (dom SYCLCG)) s SYCLKernel
              SYCLKernel ∅) as (s' & _ & H).
  { unfold pending. apply subseteq_size. set_solver. }
  by exists s'.
Qed.

(** ** Induction over the type graph *)

(** What a property of types must give for the types held by a template
    argument: the argument itself when it is a type, the type elements of
    a pack. *)
Definition TA_holds (P : QualType → Prop) (A : TemplateArgument) : Prop :=
  match A with TA_Type T => P T | _ => True end.

Definition TA_Forall (P : QualType → Prop) (A : TemplateArgument) : Prop :=
  match A with
  | TA_Type T => P T
  | TA_Pack Pack => Forall (TA_holds P) Pack
  | _ => True
  end.

Lemma QualType_graph_ind (P : QualType → Prop) :
  (∀ k, P (BuiltinType k)) →
  (∀ n, P (EnumType n)) →
  (∀ q T, P T → P (PointerType q T)) →
  (∀ T, P T → P (ReferenceType T)) →
  (∀ T n, P T → P (ArrayType T n)) →
  (∀ RD, Forall (λ F, P (fld_type F)) (fields RD) →
         Forall (TA_Forall P) (getTemplateArgs RD) →
         P (RecordType RD)) →
  ∀ T, P T.
Proof.
  intros HB HE HP HR HA HRec.
  refine (fix IH (T : QualType) : P T :=
            match T with
            | BuiltinType k => HB k
            | EnumType n => HE n
            | PointerType q T' => HP q T' (IH T')
            | ReferenceType T' => HR T' (IH T')
            | ArrayType T' n => HA T' n (IH T')
            | RecordType (mkCXXRecordDecl info targs flds meths) =>
                HRec (mkCXXRecordDecl info targs flds meths)
                  ((fix goF (l : list FieldDecl)
                      : Forall (λ F, P (fld_type F)) l :=
                      match l with
                      | [] => @List.Forall_nil _ _
                      | mkFieldDecl n ty o lc :: l' =>
                          @List.Forall_cons _ _ (mkFieldDecl n ty o lc) l' (IH ty) (goF l')
                      end) flds)
                  ((fix goA (l : list TemplateArgument)
                      : Forall (TA_Forall P) l :=
                      match l with
                      | [] => @List.Forall_nil _ _
                      | A :: l' =>
                          @List.Forall_cons _ (TA_Forall P) A l'
                            match A return TA_Forall P A with
                            | TA_Type T' => IH T'
                            | TA_Pack Pack =>
                                (fix goP (p : list TemplateArgument)
                                   : Forall (TA_holds P) p :=
                                   match p with
                                   | [] => @List.Forall_nil _ _
                                   | B :: p' =>
                                       @List.Forall_cons _ (TA_holds P) B p'
                                         match B return TA_holds P B with
                                         | TA_Type T' => IH T'
                                         | _ => Logic.I
                                         end (goP p')
                                   end) Pack
                            | _ => Logic.I
                            end (goA l')
                      end) targs)
            end).
Qed.

(** ** The emitted arrays (C1) *)

Section Emitted.
  Import IntHeader Emit.

Definition isText (l : Line) : Prop :=
    match l with Text _ => True | _ => False end.

  (** A step that only appends lines of plain text. *)
Definition prints_text (s s' : Emit.State) : Prop :=
    ∃ L, Out s' = Out s ++ L ∧ Forall isText L.

#[local] Instance prints_text_refl : Reflexive prints_text.
  Proof. intros s. exists []. by rewrite app_nil_r. Qed.

#[local] Instance prints_text_trans : Transitive prints_text.
  Proof.
    intros s1 s2 s3 (L1 & E1 & H1) (L2 & E2 & H2). exists (L1 ++ L2).
    rewrite E2, E1, app_assoc. split; [done|by apply Forall_app].
  Qed.

Lemma forM__rel {St A} (R : St → St → Prop) `{!Reflexive R, !Transitive R}
      (body : A → SE St unit) l :
    Forall (λ x, ∀ s s', body x s = Some (tt, s') → R s s') l →
    ∀ s s', forM_ body l s = Some (tt, s') → R s s'.
  Proof.
    induction 1 as [|x l Hx _ IH]; intros s s' Hrun.
    - by injection Hrun as <-.
    - simpl in Hrun. apply SE_bind_Some in Hrun as ([] & s1 & H1 & H2).
      etrans; [by apply Hx|by apply IH].
  Qed.

Lemma print_text L s s' :
    Forall isText L → print L s = Some (tt, s') → prints_text s s'.
  Proof. intros HL [= <-]. by exists L. Qed.

Lemma Printed_insert_text D b s s' :
    Printed_insert D s = Some (b, s') → prints_text s s'.
  Proof. intros [= <- <-]. simpl. exists []. by rewrite app_nil_r. Qed.

Lemma emitFwdDecl_text D s s' :
    emitFwdDecl D s = Some (tt, s') → prints_text s s'.
  Proof.
    unfold emitFwdDecl. intros Hrun.
    apply SE_bind_Some in Hrun as ([] & s1 & H1 & H2).
    assert (prints_text s s1) as R1.
    { destruct (_ && _); injection H1 as <-; [|done].
      exists []. simpl. by rewrite app_nil_r. }
    etrans; [exact R1|].
    case_bool_decide; (eapply print_text; [|exact H2]); repeat constructor.
  Qed.

Lemma emitForwardClassDecls_text T :
    ∀ s s', emitForwardClassDecls T s = Some (tt, s') → prints_text s s'.
  Proof.
    induction T as [k|n|q T IH|T _|T n _|[info Args flds meths] _ IHA]
      using QualType_graph_ind; intros s s' Hrun;
      try (by injection Hrun as <-).
    - by apply IH.
    - simpl in Hrun, IHA. case_bool_decide.
      + apply SE_bind_Some in Hrun as ([] & s1 & H1 & H2).
        assert (prints_text s s1) as R1.
        { revert H1. apply forM__rel; [apply _..|].
          eapply Forall_impl; [exact IHA|]. intros [T|v|Pack|nm|] HA s2 s3 H23;
            simpl in HA; try (by injection H23 as <-); try discriminate H23;
            [by apply HA|].
          revert H23. apply forM__rel; [apply _..|].
          eapply Forall_impl; [exact HA|]. intros [T|v|Pack'|nm|] HB s4 s5 H45;
            simpl in HB; try (by injection H45 as <-). by apply HB. }
        etrans; [exact R1|].
        destruct (rd_specializedTemplate info) as [CTD|]; [|done].
        apply SE_bind_Some in H2 as (b & s2 & H2 & H3).
        etrans; [by eapply (Printed_insert_text _ _ _ _ H2)|].
        destruct b; [by eapply emitFwdDecl_text|by injection H3 as <-].
      + apply SE_bind_Some in Hrun as (b & s2 & H2 & H3).
        etrans; [by eapply (Printed_insert_text _ _ _ _ H2)|].
        destruct b; [by eapply emitFwdDecl_text|by injection H3 as <-].
  Qed.

  (** The descriptors of a kernel, as the elements printed for them. *)
Definition printed_desc (P : KernelParamDesc) : string * Z * Z :=
    (paramKind2Str (Kind P), Info P, Offset P).

  (** The values an [unsigned] counter takes when [step K] is added after
      each kernel. *)
Fixpoint running (step : KernelDesc → Z) (CurStart : Z)
      (Ks : list KernelDesc) : list Z :=
    match Ks with
    | [] => []
    | K :: Ks' =>
        CurStart :: running step (Ints.to_unsigned (CurStart + step K)) Ks'
    end.

Definition NumParams (K : KernelDesc) : Z := Z.of_nat (length (Params K)).

Lemma views_app L1 L2 :
    kernel_signatures (L1 ++ L2) = kernel_signatures L1 ++ kernel_signatures L2 ∧
    kernel_signature_start (L1 ++ L2)
      = kernel_signature_start L1 ++ kernel_signature_start L2 ∧
    KernelInfos (L1 ++ L2) = KernelInfos L1 ++ KernelInfos L2.
  Proof.
    unfold kernel_signatures, kernel_signature_start, KernelInfos.
    by rewrite !omap_app.
  Qed.

Lemma views_text L :
    Forall isText L →
    kernel_signatures L = [] ∧ kernel_signature_start L = [] ∧ KernelInfos L = [].
  Proof.
    induction 1 as [|[] L Hl _ IH]; try done.
  Qed.

Lemma views_names I size Ks :
    kernel_signatures (emit_names I size Ks) = [] ∧
    kernel_signature_start (emit_names I size Ks) = [] ∧
    KernelInfos (emit_names I size Ks) = [].
  Proof. revert I. induction Ks as [|K Ks IH]; intros I; [done|apply IH]. Qed.

Lemma views_signature K :
    kernel_signatures (emit_signature K) = printed_desc <$> Params K ∧
    kernel_signature_start (emit_signature K) = [] ∧
    KernelInfos (emit_signature K) = [].
  Proof.
    unfold emit_signature, kernel_signatures, kernel_signature_start,
      KernelInfos. simpl.
    induction (Params K) as [|P Ps (I1 & I2 & I3)]; [done|]. simpl.
    by rewrite I1, I2, I3.
  Qed.

Lemma views_signatures Ks :
    kernel_signatures (concat (map emit_signature Ks))
      = concat (map (λ K, printed_desc <$> Params K) Ks) ∧
    kernel_signature_start (concat (map emit_signature Ks)) = [] ∧
    KernelInfos (concat (map emit_signature Ks)) = [].
  Proof.
    induction Ks as [|K Ks (IH1 & IH2 & IH3)]; [done|]. cbn [map concat].
    destruct (views_app (emit_signature K) (concat (map emit_signature Ks)))
      as (E1 & E2 & E3).
    destruct (views_signature K) as (S1 & S2 & S3).
    by rewrite E1, E2, E3, IH1, IH2, IH3, S1, S2, S3.
  Qed.

Lemma views_starts I size C Ks :
    kernel_signatures (emit_starts I size C Ks) = [] ∧
    kernel_signature_start (emit_starts I size C Ks)
      = running (λ K, NumParams K + 1) C Ks ∧
    KernelInfos (emit_starts I size C Ks) = [].
  Proof.
    revert I C. induction Ks as [|K Ks IH]; intros I C; [done|].
    destruct (IH (S I) (Ints.to_unsigned (C + (NumParams K + 1)))) as (I1 & I2 & I3).
    unfold kernel_signatures, kernel_signature_start, KernelInfos in *.
    cbn [emit_starts omap list_omap running]. fold (NumParams K).
    by rewrite I1, I2, I3.
  Qed.

Lemma views_KernelInfo getAsString C Ks :
    kernel_signatures (emit_KernelInfo getAsString C Ks) = [] ∧
    kernel_signature_start (emit_KernelInfo getAsString C Ks) = [] ∧
    KernelInfos (emit_KernelInfo getAsString C Ks)
      = zip (zip (Name <$> Ks) ((λ K, length (Params K)) <$> Ks))
            (running NumParams C Ks).
  Proof.
    revert C. induction Ks as [|K Ks IH]; intros C; [done|].
    destruct (IH (Ints.to_unsigned (C + NumParams K))) as (I1 & I2 & I3).
    unfold kernel_signatures, kernel_signature_start, KernelInfos in *.
    cbn [emit_KernelInfo omap list_omap running fmap list_fmap zip zip_with].
    fold (NumParams K). by rewrite I1, I2, I3.
  Qed.

  (** What a C++ compiler reads in the text [emit] prints: the elements
      of [kernel_signatures] are the descriptors of the kernels, one after
      the other and nothing else; [kernel_signature_start] advances by the
      number of descriptors plus one; the constant of [getParamDesc]
      advances by the number of descriptors. *)
Lemma emit_views getAsString Ks s s' :
    Out s = [] →
    emit getAsString Ks s = Some (tt, s') →
    kernel_signatures (Out s')
      = concat (map (λ K, printed_desc <$> Params K) Ks) ∧
    kernel_signature_start (Out s') = running (λ K, NumParams K + 1) 0 Ks ∧
    KernelInfos (Out s')
      = zip (zip (Name <$> Ks) ((λ K, length (Params K)) <$> Ks))
            (running NumParams 0 Ks).
  Proof.
    intros Hs Hrun. unfold emit in Hrun.
    apply SE_bind_Some in Hrun as ([] & s1 & H1 & Hrun). injection H1 as <-.
    apply SE_bind_Some in Hrun as ([] & s2 & H2 & Hrun).
    assert (prints_text
              (mkState (Out s ++
                 [Text "// This is auto-generated SYCL integration header.";
                  Text ""; Text "#include <CL/sycl/detail/kernel_desc.hpp>";
                  Text "";
                  Text "// Forward declarations of templated kernel function types:"])
                 (Printed s) (Emit.Diags s)) s2) as (Fwd & HF & HFwd).
    { revert H2. apply forM__rel; [apply _..|]. apply Forall_forall.
      intros K _ ? ?. apply emitForwardClassDecls_text. }
    simpl in HF. rewrite Hs in HF. simpl in HF.
    repeat (apply SE_bind_Some in Hrun as ([] & ? & [= <-] & Hrun)).
    injection Hrun as <-. simpl. rewrite HF. clear Hs HF H2.
    destruct (views_text Fwd HFwd) as (F1 & F2 & F3).
    destruct (views_names 0 (length Ks) Ks) as (N1 & N2 & N3).
    destruct (views_signatures Ks) as (S1 & S2 & S3).
    destruct (views_starts 0 (length Ks) 0 Ks) as (T1 & T2 & T3).
    destruct (views_KernelInfo getAsString 0 Ks) as (I1 & I2 & I3).
    unfold kernel_signatures, kernel_signature_start, KernelInfos in *.
    do 6 (cbn [omap list_omap app]; rewrite ?omap_app).
    rewrite F1, F2, F3, N1, N2, N3, S1, S2, S3, T1, T2, T3, I1, I2, I3.
    simpl. by rewrite !app_nil_r.
  Qed.

  (** The number of descriptors of the kernels of a list. *)
Definition descriptors (Ks : list KernelDesc) : list (string * Z * Z) :=
    concat (map (λ K, printed_desc <$> Params K) Ks).

Lemma descriptors_app Ks1 Ks2 :
    descriptors (Ks1 ++ Ks2) = descriptors Ks1 ++ descriptors Ks2.
  Proof. unfold descriptors. by rewrite map_app, concat_app. Qed.

Lemma running_lookup step C pre K post :
    0 ≤ C < 2 ^ 32 →
    running step C (pre ++ K :: post) !! length pre
      = Some ((C + foldr (λ K acc, step K + acc) 0 pre) mod 2 ^ 32).
  Proof.
    revert C. induction pre as [|P pre IH]; intros C HC; simpl.
    - f_equal. rewrite Z.add_0_r. symmetry. by apply Z.mod_small.
    - rewrite IH by (apply Z.mod_pos_bound; lia). f_equal.
      unfold Ints.to_unsigned. rewrite Zplus_mod_idemp_l. f_equal. lia.
  Qed.

Lemma NumParams_total pre :
    foldr (λ K acc, NumParams K + acc) 0 pre = Z.of_nat (length (descriptors pre)).
  Proof.
    induction pre as [|P pre IH]; [done|]. simpl. rewrite IH.
    unfold descriptors. simpl. rewrite length_app, length_fmap.
    unfold NumParams. lia.
  Qed.

Lemma NumParams1_total pre :
    foldr (λ K acc, NumParams K + 1 + acc) 0 pre
      = Z.of_nat (length (descriptors pre)) + Z.of_nat (length pre).
  Proof.
    induction pre as [|P pre IH]; [done|]. simpl. rewrite IH.
    unfold descriptors. simpl. rewrite length_app, length_fmap.
    unfold NumParams. lia.
  Qed.

  (** The emitted tables, for the kernel registered after [pre]: its
      descriptors stand in [kernel_signatures] from the index [C] on,
      where [C] counts the descriptors of [pre]; [getParamDesc] adds [C]
      and so returns them; [kernel_signature_start] holds [C] plus the
      number of kernels in [pre]. *)
Lemma emitted_tables getAsString pre K post s' :
    exec (emit getAsString (pre ++ K :: post)) (Emit.mkState [] ∅ []) = Some s' →
    Z.of_nat (length (descriptors (pre ++ K :: post))) + Z.of_nat (length pre)
      < 2 ^ 32 →
    let C := Z.of_nat (length (descriptors pre)) in
    (∀ j, (j < length (Params K))%nat →
       kernel_signatures (Out s') !! (length (descriptors pre) + j)%nat
         = printed_desc <$> Params K !! j) ∧
    KernelInfos (Out s') !! length pre = Some (Name K, length (Params K), C) ∧
    (∀ i, 0 ≤ i < NumParams K →
       getParamDesc (Out s') C i = printed_desc <$> Params K !! Z.to_nat i) ∧
    kernel_signature_start (Out s') !! length pre
      = Some (C + Z.of_nat (length pre)).
  Proof.
    intros Hrun Hbound C. apply exec_Some in Hrun as [[] Hrun].
    apply emit_views in Hrun as (E1 & E2 & E3); [|done].
    fold (descriptors (pre ++ K :: post)) in E1.
    rewrite descriptors_app in Hbound, E1.
    change (descriptors (K :: post))
      with ((printed_desc <$> Params K) ++ descriptors post) in Hbound, E1.
    rewrite !length_app, length_fmap in Hbound.
    assert (∀ j, (j < length (Params K))%nat →
       kernel_signatures (Out s') !! (length (descriptors pre) + j)%nat
         = printed_desc <$> Params K !! j) as Hidx.
    { intros j Hj. rewrite E1, lookup_app_r by lia.
      replace (length (descriptors pre) + j - length (descriptors pre))%nat
        with j by lia.
      rewrite lookup_app_l by (rewrite length_fmap; lia).
      by rewrite list_lookup_fmap. }
    split_and!.
    - exact Hidx.
    - rewrite E3. apply lookup_zip_with_Some.
      exists (Name K, length (Params K)), C. split_and!; [done| |].
      + apply lookup_zip_with_Some. exists (Name K), (length (Params K)).
        split_and!; [done|..]; rewrite list_lookup_fmap, list_lookup_middle; done.
      + rewrite running_lookup by lia. f_equal. rewrite NumParams_total.
        apply Z.mod_small. lia.
    - intros i Hi. unfold getParamDesc, Ints.to_unsigned, NumParams in *.
      rewrite Z.mod_small by lia.
      replace (Z.to_nat (i + C)) with (length (descriptors pre) + Z.to_nat i)%nat
        by lia.
      apply Hidx. lia.
    - rewrite E2, running_lookup by lia. f_equal. rewrite NumParams1_total.
      apply Z.mod_small. lia.
  Qed.

End Emitted.

(** C1, on two kernels with one descriptor each: [kernel_signatures] has
    two elements and no slot after a kernel's descriptors, the
    descriptor of the second kernel stands at index 1 (where
    [getParamDesc] reads it), and [kernel_signature_start] gives 2 for
    it, an index past the end of the array. *)
Theorem kernel_signature_start_counts_a_slot_not_printed :
  ∃ s', exec (Emit.emit (λ _, "K"%string) Scenario.twoKernels)
             (Emit.mkState [] ∅ []) = Some s' ∧
    Emit.kernel_signatures (Emit.Out s')
      = [("kind_accessor", 4062, 0); ("kind_std_layout", 4, 0)]%string ∧
    Emit.kernel_signature_start (Emit.Out s') = [0; 2] ∧
    Emit.kernel_signatures (Emit.Out s') !! 2%nat = None ∧
    Emit.KernelInfos (Emit.Out s')
      = [("_ZTS2K0", 1%nat, 0); ("_ZTS2K1", 1%nat, 1)]%string ∧
    Emit.getParamDesc (Emit.Out s') 1 0 = Some ("kind_std_layout", 4, 0)%string.
Proof. eexists. split; [vm_compute; reflexivity|]. by vm_compute. Qed.

(** ** Emission to a file (C9) *)

Section EmissionReturns.
Import IntHeader Emit.

Lemma emitFwdDecl_total D s : ∃ s', emitFwdDecl D s = Some (tt, s').
Proof.
  unfold emitFwdDecl, mbind, SE_bind, Report, print, modify.
  destruct (_ && _); cbn; case_bool_decide; eauto.
Qed.

Lemma declare_total D s :
  ∃ s', (fresh ← Printed_insert D;
         if fresh : bool then emitFwdDecl D else mret tt) s = Some (tt, s').
Proof.
  unfold mbind, SE_bind, Printed_insert.
  case_bool_decide; [apply emitFwdDecl_total|by eexists].
Qed.

(** The forward declarations of a declarable type are emitted without
    meeting a template template argument or a missing template. *)
Lemma emitForwardClassDecls_total T :
  declarable T = true →
  ∀ s, ∃ s', emitForwardClassDecls T s = Some (tt, s').
Proof.
  induction T as [k|n|q T IH|T _|T n _|[info Args flds meths] _ IHA]
    using QualType_graph_ind; intros HT s; try (by eexists).
  - by apply IH.
  - cbn [emitForwardClassDecls declarable] in *.
    case_bool_decide; [|apply declare_total].
    apply andb_prop in HT as [HArgs HCTD].
    apply bool_decide_eq_true in HCTD as [CTD HCTD]. rewrite HCTD.
    rewrite forallb_forall in HArgs.
    match goal with
    | |- context [forM_ ?f Args] =>
        assert (∀ s0, ∃ s1, forM_ f Args s0 = Some (tt, s1)) as Hloop
    end.
    { intros s0.
      match goal with
      | |- ∃ s1, forM_ ?f Args s0 = _ =>
          assert (Forall (λ x, ∀ s : Emit.State, True →
                            ∃ s', f x s = Some (tt, s') ∧ True) Args) as HF;
            [|destruct (forM__total _ f Args HF s0 Logic.I) as (s1 & H1 & _);
              by exists s1]
      end.
      cbn in IHA. apply Forall_forall. intros Arg HArg s2 _.
      specialize (HArgs Arg (proj1 (list_elem_of_In _ _) HArg)).
      rewrite Forall_forall in IHA. specialize (IHA Arg HArg).
      destruct Arg as [AT|v|Pack|nm|]; cbn in IHA;
        try (by exists s2).
      - destruct (IHA HArgs s2) as [s3 H3]. by exists s3.
      - rewrite forallb_forall in HArgs.
        match goal with
        | |- ∃ s1, forM_ ?f Pack s2 = _ ∧ _ =>
            assert (Forall (λ x, ∀ s : Emit.State, True →
                              ∃ s', f x s = Some (tt, s') ∧ True) Pack) as HF;
              [|destruct (forM__total _ f Pack HF s2 Logic.I) as (s3 & H3 & _);
                by exists s3]
        end.
        apply Forall_forall. intros PT HPT s4 _.
        specialize (HArgs PT (proj1 (list_elem_of_In _ _) HPT)).
        rewrite Forall_forall in IHA. specialize (IHA PT HPT).
        destruct PT as [PT'|v|Pack'|nm|]; cbn in IHA; try (by exists s4).
        destruct (IHA HArgs s4) as [s5 H5]. by exists s5. }
    destruct (Hloop s) as [s1 H1].
    erewrite SE_bind_eq by exact H1. apply declare_total.
Qed.

Lemma returns_bind (m k : SE Emit.State unit) :
  (∀ s, ∃ s', m s = Some (tt, s')) → (∀ s, ∃ s', k s = Some (tt, s')) →
  ∀ s, ∃ s', (m ;; k) s = Some (tt, s').
Proof.
  intros Hm Hk s. destruct (Hm s) as [s1 H1]. destruct (Hk s1) as [s2 H2].
  exists s2. by erewrite SE_bind_eq by exact H1.
Qed.

Lemma print_returns L s : ∃ s', print L s = Some (tt, s').
Proof. by eexists. Qed.

(** The emission proper returns when every kernel name type is
    declarable. *)
Lemma emit_total getAsString (Ks : SYCLIntegrationHeader) :
  Forall (λ K, declarable (NameType K) = true) Ks →
  ∀ s, ∃ s', emit getAsString Ks s = Some (tt, s').
Proof.
  intros HKs. unfold emit.
  apply returns_bind; [apply print_returns|].
  apply returns_bind.
  { intros s.
    destruct (forM__total (λ _ : Emit.State, True)
                (λ K, emitForwardClassDecls (NameType K)) Ks)
      with (s := s) as (s1 & H1 & _); [|exact Logic.I|by exists s1].
    eapply Forall_impl; [exact HKs|]. intros K HK s0 _.
    destruct (emitForwardClassDecls_total _ HK s0) as [s2 H2]. by exists s2. }
  repeat (apply returns_bind; [apply print_returns|]). apply print_returns.
Qed.

End EmissionReturns.

(** C9 as stated fails: with a kernel named after [K<Box>], [Box] a class
    template, the emission to a target that is opened for writing reaches
    [llvm_unreachable] in [emitForwardClassDecls]: it returns neither
    false nor true, although the same header is emitted for the two
    kernels of [twoKernels]. *)
Lemma emit_aborts_on_template_template_argument :
  let openFileForWrite :=
    λ n, if String.eqb n "out.h" then inr 3%nat
         else inl "No such file or directory"%string in
  openFileForWrite "out.h" = inr 3%nat ∧
  Emit.emit_file (λ _, "K<Box>"%string) openFileForWrite
    Scenario.templateTemplateKernel "out.h" = None ∧
  (Emit.result <$> Emit.emit_file (λ _, "K"%string) openFileForWrite
                     Scenario.twoKernels "out.h") = Some true.
Proof. vm_compute. done. Qed.

(** C9, amended: provided no kernel is named after a type with a template
    template argument (and the template of every specialization met in a
    kernel name type is known), and the host opens no file under the
    empty name, emission to a named target returns: false exactly when
    the target cannot be opened for writing, and then nothing is
    written; for a target that can be opened, the artifact is written
    there (the text [emit] prints, whose [kernel_signatures] holds the
    descriptors of all the registered kernels, in order) and true is
    returned. *)
Theorem emit_fails_only_on_unwritable_target
    (getAsString : QualType → string)
    (openFileForWrite : string → string + nat)
    (KernelDescs : IntHeader.SYCLIntegrationHeader)
    (IntHeaderName : string) :
  (∀ FD, openFileForWrite "" ≠ inr FD) →
  Forall (λ K, declarable (IntHeader.NameType K) = true) KernelDescs →
  ∃ o s',
    Emit.emit_file getAsString openFileForWrite KernelDescs IntHeaderName
    = Some o ∧
    exec (Emit.emit getAsString KernelDescs) (Emit.mkState [] ∅ []) = Some s' ∧
    Emit.kernel_signatures (Emit.Out s')
    = concat (map (λ K, printed_desc <$> IntHeader.Params K) KernelDescs) ∧
    (Emit.result o = false ↔ ∃ EC, openFileForWrite IntHeaderName = inl EC) ∧
    (Emit.result o = false → Emit.written o = None) ∧
    (∀ FD, openFileForWrite IntHeaderName = inr FD →
       Emit.result o = true ∧ Emit.written o = Some (FD, Emit.Out s')).
Proof.
  intros Hempty HKs.
  destruct (emit_total getAsString KernelDescs HKs (Emit.mkState [] ∅ []))
    as [s' Hemit].
  destruct (emit_views getAsString KernelDescs (Emit.mkState [] ∅ []) s'
              eq_refl Hemit) as (Hsig & _ & _).
  assert (exec (Emit.emit getAsString KernelDescs) (Emit.mkState [] ∅ [])
          = Some s') as Hexec by (unfold exec; by rewrite Hemit).
  unfold Emit.emit_file. case_bool_decide as Hname.
  - subst IntHeaderName. eexists _, s'. split; [done|]. simpl.
    destruct (openFileForWrite "") as [EC|FD] eqn:Hopen.
    + split_and!; [done|done|split; eauto|done|done].
    + by destruct (Hempty FD).
  - destruct (openFileForWrite IntHeaderName) as [EC|FD] eqn:Hopen.
    + eexists _, s'. split; [done|]. simpl.
      split_and!; [done|done|split; eauto|done|done].
    + rewrite Hexec. simpl. eexists _, s'. split; [done|]. simpl. split_and!.
      * done.
      * done.
      * split; [done|]. by intros [? ?].
      * done.
      * by intros ? [= <-].
Qed.

(** The witness of C9: a host on which only [out.h] can be opened. *)
Lemma emit_fails_only_on_unwritable_target_witness :
  ∃ o, Emit.emit_file (λ _, "K"%string)
         (λ n, if String.eqb n "out.h" then inr 3%nat
               else inl "No such file or directory"%string)
         Scenario.twoKernels "out.h" = Some o ∧
    Emit.result o = true ∧
    Emit.kernel_signature_start (default [] (snd <$> Emit.written o)) = [0; 2].
Proof.
  destruct (emit_fails_only_on_unwritable_target (λ _, "K"%string)
              (λ n, if String.eqb n "out.h" then inr 3%nat
                    else inl "No such file or directory"%string)
              Scenario.twoKernels "out.h")
    as (o & s' & Ho & Hs' & _ & _ & _ & Hw).
  - intros FD. vm_compute. discriminate.
  - repeat constructor.
  - exists o. destruct (Hw 3%nat eq_refl) as [Hr Hwr].
    split; [exact Ho|]. split; [exact Hr|]. rewrite Hwr.
    vm_compute in Hs'. injection Hs' as <-. vm_compute. reflexivity.
Defined.

(** ** Stateless kernels (C8) *)




(** ** The signature builder flattens the kernel object *)

Section Refinement.
  Import Builder Flatten.

  (** A loop whose body appends to the state: [R l s s'] reads "[s'] is
      [s] with [l] appended". *)
Lemma forM__append {St A B} (R : list B → St → St → Prop)
      (g : A → list B) (body : A → SE St unit) l :
    (∀ s, R [] s s) →
    (∀ l1 l2 s s1 s2, R l1 s s1 → R l2 s1 s2 → R (l1 ++ l2) s s2) →
    Forall (λ x, ∀ s s', body x s = Some (tt, s') → R (g x) s s') l →
    ∀ s s', forM_ body l s = Some (tt, s') → R (flat_map g l) s s'.
  Proof.
    intros Hnil Happ. induction 1 as [|x l Hx _ IH]; intros s s' Hrun.
    - injection Hrun as <-. apply Hnil.
    - simpl in Hrun. apply SE_bind_Some in Hrun as ([] & s1 & H1 & H2).
      simpl. eapply Happ; [by apply Hx|by apply IH].
  Qed.

Lemma wrapped_visits_fields path Wrapper Offset :
    wrapped_visits path (RecordType Wrapper) Offset
    = flat_map (wrapped_field_visits path Offset) (fields Wrapper).
  Proof. destruct Wrapper. reflexivity. Qed.

Lemma visit_sequence_app Flds1 Flds2 :
    visit_sequence (Flds1 ++ Flds2)
    = visit_sequence Flds1 ++ visit_sequence Flds2.
  Proof. apply flat_map_app. Qed.

Lemma flat_map_flat_map {A B C} (f : A → list B) (g : B → list C) l :
    flat_map g (flat_map f l) = flat_map (λ x, flat_map g (f x)) l.
  Proof.
    induction l as [|x l IH]; [done|]. simpl. by rewrite flat_map_app, IH.
  Qed.

  (** [B'] is [B] with the slots [l] appended. *)
Definition appends (l : list ParamDesc) (B B' : Builder.State) : Prop :=
    ParamDescs B' = ParamDescs B ++ l ∧ Diags B' = Diags B.

Lemma appends_nil B : appends [] B B.
  Proof. split; [by rewrite app_nil_r|done]. Qed.

Lemma appends_app l1 l2 B B1 B2 :
    appends l1 B B1 → appends l2 B1 B2 → appends (l1 ++ l2) B B2.
  Proof.
    intros [E1 D1] [E2 D2]. split; [|congruence].
    by rewrite E2, E1, app_assoc.
  Qed.

Lemma CreateAndAddPrmDsc_loop Fld l B :
    forM_ (λ PD, CreateAndAddPrmDsc Fld PD) l B
    = Some (tt, mkState (ParamDescs B ++ (makeParamDesc Fld <$> l)) (Diags B)).
  Proof.
    revert B. induction l as [|T l IH]; intros [PDs Ds]; simpl.
    - by rewrite app_nil_r.
    - unfold mbind, SE_bind, CreateAndAddPrmDsc, modify. rewrite IH. simpl.
      by rewrite <- app_assoc.
  Qed.

  (** A special object gets one slot per parameter of its [__init]. *)
Lemma createSpecialSYCLObjParamDesc_slots Fld ArgTy B B' :
    createSpecialSYCLObjParamDesc Fld ArgTy B = Some (tt, B') →
    is_Some (getAsCXXRecordDecl ArgTy ≫= getInitMethod) ∧
    appends (makeParamDesc Fld <$> init_params ArgTy) B B'.
  Proof.
    unfold createSpecialSYCLObjParamDesc, init_params.
    destruct (getAsCXXRecordDecl ArgTy) as [RD|]; [|done]. simpl.
    destruct (getInitMethod RD) as [M|]; [|done]. simpl.
    rewrite CreateAndAddPrmDsc_loop. intros [= <-]. by split; [eauto|split].
  Qed.

Lemma raw_slots_wrapped_field path Offset F :
    path ≠ [] →
    flat_map raw_slots (wrapped_field_visits path Offset F)
    = match classify_wrapped (fld_type F) with
      | SpecialObject => makeParamDesc F <$> init_params (fld_type F)
      | WrapperAggregate =>
          flat_map raw_slots
            (wrapped_visits (path ++ [F]) (fld_type F)
               (Ints.to_uint64 (Offset + fieldOffsetInBytes F)))
      | _ => []
      end.
  Proof.
    intros Hpath.
    unfold wrapped_field_visits. cbn [flat_map]. unfold raw_slots at 1.
    cbn [v_class v_path v_field]. unfold v_type. cbn [v_field].
    unfold classify_wrapped.
    destruct (isStructureOrClassType (fld_type F)); [|done].
    destruct (Util.isSyclAccessorType (fld_type F)).
    - by rewrite app_nil_r.
    - by destruct path.
  Qed.

Lemma createParamDescForWrappedAccessors_slots ArgTy :
    ∀ Fld path Offset B B',
      path ≠ [] →
      createParamDescForWrappedAccessors Fld ArgTy B = Some (tt, B') →
      appends (flat_map raw_slots (wrapped_visits path ArgTy Offset)) B B'.
  Proof.
    induction ArgTy as [k|n|q T _|T _|T n _|[info Args flds meths] IHF _]
      using QualType_graph_ind; intros Fld path Offset B B' Hpath Hrun; try done.
    rewrite wrapped_visits_fields, flat_map_flat_map.
    cbn [createParamDescForWrappedAccessors fields] in *.
    revert B B' Hrun.
    apply (forM__append appends); [apply appends_nil|apply appends_app|].
    eapply Forall_impl; [exact IHF|]. intros F HF B B' Hrun. cbn beta in *.
    rewrite raw_slots_wrapped_field by done. unfold classify_wrapped.
    destruct (isStructureOrClassType (fld_type F)).
    - destruct (Util.isSyclAccessorType (fld_type F)).
      + by apply createSpecialSYCLObjParamDesc_slots in Hrun as [_ ?].
      + eapply HF; [|done]. by destruct path.
    - injection Hrun as <-. apply appends_nil.
  Qed.

Lemma raw_slots_field F :
    flat_map raw_slots (field_visits F)
    = match classify_buildArgTys (fld_type F) with
      | SpecialObject => makeParamDesc F <$> init_params (fld_type F)
      | WrapperAggregate =>
          makeParamDesc F (fld_type F)
          :: flat_map raw_slots
               (wrapped_visits [F] (fld_type F) (fieldOffsetInBytes F))
      | PointerField => [makeParamDesc F (toGlobal (fld_type F))]
      | ScalarField => [makeParamDesc F (fld_type F)]
      | _ => []
      end.
  Proof.
    unfold field_visits. cbn [flat_map]. unfold raw_slots at 1.
    cbn [v_class v_path v_field]. unfold v_type. cbn [v_field].
    destruct (classify_buildArgTys (fld_type F)); try done.
    by rewrite app_nil_r.
  Qed.

  (** The branch [buildArgTys] takes on a field is given by its
      classification. *)
Lemma buildArgTys_field_slots KernelObj Fld B B' :
    buildArgTys_field KernelObj Fld B = Some (tt, B') →
    classify_buildArgTys (fld_type Fld) ≠ Unsupported ∧
    (classify_buildArgTys (fld_type Fld) = SpecialObject →
       is_Some (getAsCXXRecordDecl (fld_type Fld) ≫= getInitMethod)) ∧
    ParamDescs B' = ParamDescs B ++ flat_map raw_slots (field_visits Fld).
  Proof.
    rewrite raw_slots_field.
    unfold buildArgTys_field, classify_buildArgTys.
    destruct (_ || _) eqn:Hsp.
    { intros H. apply createSpecialSYCLObjParamDesc_slots in H as (? & -> & _).
      by split_and!. }
    destruct (isStructureOrClassType (fld_type Fld)) eqn:Hst.
    { intros H. apply SE_bind_Some in H as ([] & B1 & H1 & H).
      apply SE_bind_Some in H as ([] & B2 & H2 & H). injection H2 as <-.
      apply (createParamDescForWrappedAccessors_slots _ _ [Fld]
               (fieldOffsetInBytes Fld)) in H as [-> _]; [|done].
      split_and!; [done..|]. simpl.
      rewrite <- !app_assoc. f_equal.
      destruct (negb _); [destruct (reportLocation _ _); [|done]|];
        by injection H1 as <-. }
    destruct (isPointerType (fld_type Fld)) eqn:Hp.
    { destruct (fld_type Fld) eqn:HT; try done. intros [= <-].
      by split_and!. }
    destruct (isScalarType (fld_type Fld)) eqn:Hsc; [|done].
    intros [= <-]. by split_and!.
  Qed.

  (** The slots [buildArgTys] appends are those of the fields its walk
      looks at, in order. *)
Lemma buildArgTys_slots KernelObj Flds B B' :
    forM_ (buildArgTys_field KernelObj) Flds B = Some (tt, B') →
    ParamDescs B' = ParamDescs B ++ flat_map raw_slots (visit_sequence Flds).
  Proof.
    unfold visit_sequence. rewrite flat_map_flat_map. revert B B'.
    apply (forM__append (λ l B B', ParamDescs B' = ParamDescs B ++ l)).
    - intros B. by rewrite app_nil_r.
    - intros l1 l2 B B1 B2 E1 E2. by rewrite E2, E1, app_assoc.
    - apply Forall_forall. intros F _ B B' H.
      by apply buildArgTys_field_slots in H as (_ & _ & ?).
  Qed.

End Refinement.

(** ** The header code generation flattens the kernel object *)

Section HeaderRefinement.
  Import IntHeader Flatten.
  Variable getTypeSizeInChars : QualType → Z.

Abbreviation descriptors := (Flatten.descriptors getTypeSizeInChars).

  (** The two classifications agree on every type: a pointer is no class
      or struct, so the order of the two tests does not matter. *)
Lemma classify_agree ArgTy :
    classify_buildArgTys ArgTy = classify_populateIntHeader ArgTy.
  Proof.
    unfold classify_buildArgTys, classify_populateIntHeader.
    destruct (Util.isSyclAccessorType ArgTy); [done|].
    destruct (Util.isSyclSamplerType ArgTy); [done|]. simpl.
    destruct ArgTy as [[]| | | | |RD]; try done.
    simpl. by destruct (rd_tag (rd_info RD)).
  Qed.

  (** [H'] is [H] with the descriptors [l] added to its last kernel. *)
Definition describes (l : list KernelParamDesc)
      (H H' : SYCLIntegrationHeader) : Prop :=
    ∀ Hs K, H = Hs ++ [K] →
      H' = Hs ++ [mkKernelDesc (Name K) (NameType K) (Params K ++ l)].

Lemma describes_nil H : describes [] H H.
  Proof. intros Hs [N T Ps] ->. by rewrite app_nil_r. Qed.

Lemma describes_app l1 l2 H H1 H2 :
    describes l1 H H1 → describes l2 H1 H2 → describes (l1 ++ l2) H H2.
  Proof.
    intros R1 R2 Hs K E. rewrite (R2 _ _ (R1 _ _ E)). simpl.
    by rewrite app_assoc.
  Qed.

Lemma addParamDesc_describes Kind Info Offset H H' :
    addParamDesc Kind Info Offset H = Some (tt, H') →
    describes [mkKernelParamDesc Kind (Ints.to_int Info)
                                 (Ints.to_unsigned Offset)] H H'.
  Proof.
    unfold addParamDesc. intros Hrun Hs K ->.
    rewrite last_snoc, removelast_last in Hrun. by injection Hrun as <-.
  Qed.

Lemma to_unsigned_idemp z :
    Ints.to_unsigned (Ints.to_unsigned z) = Ints.to_unsigned z.
  Proof. unfold Ints.to_unsigned. by rewrite Z.mod_mod. Qed.

Lemma to_unsigned_uint64 z :
    Ints.to_unsigned (Ints.to_uint64 z) = Ints.to_unsigned z.
  Proof.
    unfold Ints.to_unsigned, Ints.to_uint64.
    apply Z.mod_mod_divide. exists (2 ^ 32). lia.
  Qed.

Lemma to_int_idemp z : Ints.to_int (Ints.to_int z) = Ints.to_int z.
  Proof.
    unfold Ints.to_int.
    replace ((z + 2 ^ 31) mod 2 ^ 32 - 2 ^ 31 + 2 ^ 31)
      with ((z + 2 ^ 31) mod 2 ^ 32) by lia.
    by rewrite Z.mod_mod.
  Qed.

Lemma populateHeaderForAccessor_describes ArgTy Offset H H' :
    populateHeaderForAccessor ArgTy Offset H = Some (tt, H') →
    describes [mkKernelParamDesc kind_accessor (accessor_Info ArgTy)
                                 (Ints.to_unsigned Offset)] H H'.
  Proof.
    unfold populateHeaderForAccessor, accessor_Info.
    destruct (getAsCXXRecordDecl ArgTy) as [AccTy|]; [|done]. simpl.
    destruct (negb _); [done|].
    destruct (getIntegralArg AccTy 1) as [D|]; [|done].
    destruct (getAccessTarget AccTy) as [Target|]; [|done]. simpl.
    intros Hrun. apply addParamDesc_describes in Hrun.
    by rewrite to_int_idemp in Hrun.
  Qed.

Lemma descriptors_wrapped_field path Offset F :
    path ≠ [] →
    flat_map descriptors (wrapped_field_visits path Offset F)
    = if isStructureOrClassType (fld_type F) then
        let Off := Ints.to_uint64 (Offset + fieldOffsetInBytes F) in
        if Util.isSyclAccessorType (fld_type F) then
          [mkKernelParamDesc kind_accessor (accessor_Info (fld_type F))
                             (Ints.to_unsigned Off)]
        else flat_map descriptors (wrapped_visits (path ++ [F]) (fld_type F) Off)
      else [].
  Proof.
    intros Hpath.
    unfold wrapped_field_visits. cbn [flat_map].
    unfold Flatten.descriptors at 1.
    cbn [v_class v_path v_field v_offset]. unfold v_type. cbn [v_field].
    unfold classify_wrapped.
    destruct (isStructureOrClassType (fld_type F)); [|done].
    destruct (Util.isSyclAccessorType (fld_type F)) eqn:Hacc.
    - by rewrite app_nil_r.
    - by destruct path.
  Qed.

Lemma populateHeaderForWrappedAccessors_describes ArgTy :
    ∀ path Offset H H',
      path ≠ [] →
      populateHeaderForWrappedAccessors ArgTy Offset H = Some (tt, H') →
      describes (flat_map descriptors (wrapped_visits path ArgTy Offset)) H H'.
  Proof.
    induction ArgTy as [k|n|q T _|T _|T n _|[info Args flds meths] IHF _]
      using QualType_graph_ind; intros path Offset H H' Hpath Hrun; try done.
    rewrite wrapped_visits_fields, flat_map_flat_map.
    cbn [populateHeaderForWrappedAccessors fields] in *.
    revert H H' Hrun.
    apply (forM__append describes); [apply describes_nil|apply describes_app|].
    eapply Forall_impl; [exact IHF|]. intros F HF H H' Hrun. cbn beta in *.
    rewrite descriptors_wrapped_field by done.
    destruct (isStructureOrClassType (fld_type F)).
    - cbn zeta in *. destruct (Util.isSyclAccessorType (fld_type F)).
      + by apply populateHeaderForAccessor_describes in Hrun.
      + eapply HF; [|done]. by destruct path.
    - injection Hrun as <-. apply describes_nil.
  Qed.

Lemma descriptors_field F :
    flat_map descriptors (field_visits F)
    = let Off := Ints.to_unsigned (fieldOffsetInBytes F) in
      match classify_populateIntHeader (fld_type F) with
      | SpecialObject =>
          if Util.isSyclAccessorType (fld_type F) then
            [mkKernelParamDesc kind_accessor (accessor_Info (fld_type F)) Off]
          else
            [mkKernelParamDesc kind_sampler
               (size_Info getTypeSizeInChars
                  (default (BuiltinType BT_Void)
                           (init_params (fld_type F) !! 0%nat))) Off]
      | WrapperAggregate =>
          mkKernelParamDesc kind_std_layout
            (size_Info getTypeSizeInChars (fld_type F)) Off
          :: flat_map descriptors
               (wrapped_visits [F] (fld_type F) (fieldOffsetInBytes F))
      | PointerField =>
          [mkKernelParamDesc kind_pointer
             (size_Info getTypeSizeInChars (fld_type F)) Off]
      | ScalarField =>
          [mkKernelParamDesc kind_std_layout
             (size_Info getTypeSizeInChars (fld_type F)) Off]
      | _ => []
      end.
  Proof.
    unfold field_visits. cbn [flat_map]. unfold Flatten.descriptors at 1.
    cbn [v_class v_path v_field v_offset]. unfold v_type. cbn [v_field].
    rewrite classify_agree.
    destruct (classify_populateIntHeader (fld_type F)); try done.
    cbn zeta. by destruct (Util.isSyclAccessorType (fld_type F)).
  Qed.

  (** The branch [populateIntHeader] takes on a field is given by its
      classification. *)
Lemma populateIntHeader_field_describes Fld H H' :
    populateIntHeader_field getTypeSizeInChars Fld H = Some (tt, H') →
    describes (flat_map descriptors (field_visits Fld)) H H'.
  Proof.
    rewrite descriptors_field. cbn zeta.
    unfold populateIntHeader_field, classify_populateIntHeader.
    destruct (Util.isSyclAccessorType (fld_type Fld)) eqn:Hacc.
    { apply populateHeaderForAccessor_describes. }
    destruct (Util.isSyclSamplerType (fld_type Fld)) eqn:Hsm.
    { unfold init_params.
      destruct (getAsCXXRecordDecl (fld_type Fld) ≫= Builder.getInitMethod)
        as [M|]; [|done]. simpl.
      destruct (meth_params M !! 0%nat) as [SamplerArg|]; [|done]. simpl.
      intros Hrun. apply addParamDesc_describes in Hrun.
      by rewrite to_unsigned_idemp in Hrun. }
    destruct (isPointerType (fld_type Fld)) eqn:Hp.
    { intros Hrun. apply addParamDesc_describes in Hrun.
      by rewrite to_unsigned_idemp in Hrun. }
    destruct (isStructureOrClassType (fld_type Fld)) eqn:Hst; simpl.
    { intros Hrun. apply SE_bind_Some in Hrun as ([] & H1 & Hrun1 & Hrun2).
      apply addParamDesc_describes in Hrun1.
      rewrite to_unsigned_idemp in Hrun1.
      apply (describes_app [_] _ _ _ _ Hrun1).
      by apply populateHeaderForWrappedAccessors_describes. }
    destruct (isScalarType (fld_type Fld)) eqn:Hsc; [|done].
    intros Hrun. apply SE_bind_Some in Hrun as ([] & H1 & Hrun1 & Hrun2).
    injection Hrun2 as <-. apply addParamDesc_describes in Hrun1.
    by rewrite to_unsigned_idemp in Hrun1.
  Qed.

  (** The descriptors [populateIntHeader] registers for a kernel are those
      of the fields its walk looks at, in order. *)
Lemma populateIntHeader_descriptors Name NameType KernelObjTy H H' :
    exec (populateIntHeader getTypeSizeInChars Name NameType KernelObjTy) H
      = Some H' →
    H' = H ++ [mkKernelDesc Name NameType
                 (flat_map descriptors (visit_sequence (fields KernelObjTy)))].
  Proof.
    intros Hrun. apply exec_Some in Hrun as [[] Hrun].
    unfold populateIntHeader in Hrun.
    apply SE_bind_Some in Hrun as ([] & H1 & Hrun1 & Hrun2).
    injection Hrun1 as <-.
    unfold visit_sequence. rewrite flat_map_flat_map.
    eapply (forM__append describes
              (λ F, flat_map descriptors (field_visits F))) in Hrun2;
      [exact (Hrun2 _ _ eq_refl)|apply describes_nil|apply describes_app|].
    apply Forall_forall. intros F _ ? ?.
    apply populateIntHeader_field_describes.
  Qed.

End HeaderRefinement.

(** ** The entry point body initializes the flattened fields *)

Section BodyRefinement.
Import Builder Flatten BodySpec Synth.
Variable Params : list DeclaratorDecl.
Variable CloneRef : Stmt.

Abbreviation body_stmts := (BodySpec.body_stmts Params CloneRef).
Abbreviation visit_stmts := (BodySpec.visit_stmts Params CloneRef).
Abbreviation member_chain := (BodySpec.member_chain CloneRef).

(** The number of raw parameter slots of the visited fields. *)
Definition slots (vs : list Visit) : nat := length (flat_map raw_slots vs).

Lemma slots_app vs1 vs2 : slots (vs1 ++ vs2) = (slots vs1 + slots vs2)%nat.
Proof. unfold slots. by rewrite flat_map_app, length_app. Qed.

Lemma slots_cons v vs : slots (v :: vs) = (length (raw_slots v) + slots vs)%nat.
Proof. unfold slots. simpl. by rewrite length_app. Qed.

Lemma body_stmts_app c vs1 vs2 :
  body_stmts c (vs1 ++ vs2)
  = body_stmts c vs1 ++ body_stmts (c + slots vs1) vs2.
Proof.
  revert c. induction vs1 as [|v vs1 IH]; intros c; simpl.
  - by rewrite Nat.add_0_r.
  - rewrite IH, slots_cons, <- app_assoc. do 3 f_equal. lia.
Qed.

Lemma deref_nat (c : nat) : deref Params (Z.of_nat c) = Params !! c.
Proof.
  unfold deref. rewrite bool_decide_true by lia. by rewrite Nat2Z.id.
Qed.

Lemma ParamDREs_from_ok (c N : nat) :
  (c + N ≤ length Params)%nat →
  ParamDREs_from Params (Z.of_nat c) N = Some (ParamDREs Params c N).
Proof.
  intros Hlen. unfold ParamDREs_from, ParamDREs. apply mapM_Some.
  apply Forall2_same_length_lookup. split.
  - rewrite length_fmap, length_take, length_drop, length_seq. lia.
  - intros i I y HI Hy. apply lookup_seq in HI as [-> Hi]. simpl.
    rewrite list_lookup_fmap, lookup_take_lt, lookup_drop in Hy by done.
    rewrite <- Nat2Z.inj_add, deref_nat.
    destruct (Params !! (c + i)%nat) as [P|]; by simplify_eq/=.
Qed.

(** The [__init] call of a special object whose contract has at least
    one parameter, with the iterator on the first parameter allocated to
    it: the iterator ends on the last one. *)
Lemma getExprForSpecialSYCLObj_ok Ty Field Base InitMethod (c : nat) st :
  getAsCXXRecordDecl Ty ≫= getInitMethod = Some InitMethod →
  (0 < getNumParams InitMethod)%nat →
  (c + getNumParams InitMethod ≤ length Params)%nat →
  getExprForSpecialSYCLObj Params Ty Field (getAsCXXRecordDecl Ty) Base
    (Synth.mkState (Z.of_nat c) st)
  = Some (tt, Synth.mkState
                (Z.of_nat (c + getNumParams InitMethod) - 1)
                (st ++ [init_call Base Field InitMethod
                          (ParamDREs Params c (getNumParams InitMethod))])).
Proof.
  intros HM HN Hlen. unfold getExprForSpecialSYCLObj. rewrite HM.
  unfold mbind at 1, SE_bind at 1, gets. simpl.
  rewrite ParamDREs_from_ok by done.
  unfold mbind, SE_bind, advance, push_back, modify. simpl.
  do 3 f_equal. unfold Ints.unsigned_pred.
  destruct (getNumParams InitMethod); lia.
Qed.

(** A loop over fields that allocates parameters in order.  [δ] is how
    far the iterator stays behind the next free parameter. *)
Lemma forM__cursor {A} (δ : Z) (body : A → SE Synth.State unit)
    (g : A → list Visit) l :
  Forall (λ x, ∀ c st,
            Forall supported (g x) →
            (c + slots (g x) ≤ length Params)%nat →
            body x (Synth.mkState (Z.of_nat c - δ) st)
            = Some (tt, Synth.mkState (Z.of_nat (c + slots (g x)) - δ)
                                      (st ++ body_stmts c (g x)))) l →
  ∀ c st,
    Forall supported (flat_map g l) →
    (c + slots (flat_map g l) ≤ length Params)%nat →
    forM_ body l (Synth.mkState (Z.of_nat c - δ) st)
    = Some (tt, Synth.mkState (Z.of_nat (c + slots (flat_map g l)) - δ)
                              (st ++ body_stmts c (flat_map g l))).
Proof.
  induction 1 as [|x l Hx _ IH]; intros c st Hs Hlen.
  - simpl. by rewrite Nat.add_0_r, app_nil_r.
  - cbn [flat_map] in *. rewrite slots_app in *.
    apply Forall_app in Hs as [Hs1 Hs2].
    rewrite forM__cons. erewrite SE_bind_eq by (apply Hx; [done|lia]).
    rewrite IH by (done || lia).
    rewrite body_stmts_app, <- app_assoc, Nat.add_assoc. done.
Qed.

Lemma member_chain_snoc path F :
  member_chain (path ++ [F]) = MemberExpr (member_chain path) (MemberField F).
Proof. unfold BodySpec.member_chain. by rewrite foldl_app. Qed.

Lemma supported_special path F Off :
  supported (mkVisit path F SpecialObject Off) →
  ∃ InitMethod,
    getAsCXXRecordDecl (fld_type F) ≫= getInitMethod = Some InitMethod ∧
    (0 < getNumParams InitMethod)%nat ∧
    raw_slots (mkVisit path F SpecialObject Off)
      = makeParamDesc F <$> meth_params InitMethod.
Proof.
  intros (M & HM & HN). exists M. split_and!; [done..|].
  unfold raw_slots, init_params, v_type in *. simpl in *. by rewrite HM.
Qed.

(** The walk of the body synthesizer inside a wrapper: the iterator
    stays one behind the next free parameter. *)
Lemma getExprForWrappedAccessorInit_ok Ty :
  ∀ CRD path Offset (c : nat) st,
    Ty = RecordType CRD →
    path ≠ [] →
    Forall supported (wrapped_visits path Ty Offset) →
    (c + slots (wrapped_visits path Ty Offset) ≤ length Params)%nat →
    getExprForWrappedAccessorInit Params CRD (member_chain path)
      (Synth.mkState (Z.of_nat c - 1) st)
    = Some (tt, Synth.mkState
                  (Z.of_nat (c + slots (wrapped_visits path Ty Offset)) - 1)
                  (st ++ body_stmts c (wrapped_visits path Ty Offset))).
Proof.
  induction Ty as [k|n|q T _|T _|T n _|[info Args flds meths] IHF _]
    using QualType_graph_ind; intros CRD path Offset c st [= <-] Hpath; try done.
  rewrite wrapped_visits_fields.
  cbn [getExprForWrappedAccessorInit fields] in *. revert c st.
  apply (forM__cursor 1). eapply Forall_impl; [exact IHF|].
  intros F HF c st Hs Hlen. cbn beta in *.
  unfold wrapped_field_visits, classify_wrapped in *. cbn zeta in *.
  destruct (isStructureOrClassType (fld_type F)) eqn:Hst.
  - destruct (Util.isSyclAccessorType (fld_type F)) eqn:Hacc.
    + apply Forall_cons in Hs as [Hs _].
      apply supported_special in Hs as (M & HM & HN & Hslots).
      rewrite slots_cons, Hslots, length_fmap in *.
      change (slots []) with 0%nat in *. rewrite Nat.add_0_r in *.
      unfold mbind, SE_bind, advance at 1, modify at 1. simpl.
      replace (Z.of_nat c - 1 + 1) with (Z.of_nat c) by lia.
      rewrite (getExprForSpecialSYCLObj_ok _ _ _ M) by done.
      do 3 f_equal. unfold BodySpec.visit_stmts, v_type. simpl.
      rewrite HM. by rewrite app_nil_r.
    + destruct (fld_type F) as [| | | | |W'] eqn:HT; try done.
      apply Forall_cons in Hs as [_ Hs].
      destruct path as [|F0 path]; [done|].
      rewrite slots_cons in *.
      change (raw_slots (mkVisit (F0 :: path) F WrapperAggregate
                (Ints.to_uint64 (Offset + fieldOffsetInBytes F))))
        with (@nil ParamDesc) in *.
      cbn [length Nat.add] in *.
      rewrite <- member_chain_snoc.
      rewrite (HF W' ((F0 :: path) ++ [F]) _ c st eq_refl) by done.
      do 3 f_equal. simpl. by rewrite Nat.add_0_r.
  - simpl. unfold raw_slots, slots. simpl.
    by rewrite Nat.add_0_r, app_nil_r.
Qed.

Lemma raw_slots_top_length F cls Off :
  cls = WrapperAggregate ∨ cls = PointerField ∨ cls = ScalarField →
  length (raw_slots (mkVisit [] F cls Off)) = 1%nat.
Proof. by intros [->|[->| ->]]. Qed.

(** The initialization of one field of the kernel object. *)
Lemma initField_ok Field (c : nat) st :
  Forall supported (field_visits Field) →
  (c + slots (field_visits Field) ≤ length Params)%nat →
  initField Params CloneRef Field (Synth.mkState (Z.of_nat c - 0) st)
  = Some (tt, Synth.mkState (Z.of_nat (c + slots (field_visits Field)) - 0)
                            (st ++ body_stmts c (field_visits Field))).
Proof.
  rewrite !Z.sub_0_r. unfold field_visits, initField, classify_buildArgTys.
  cbn zeta. intros Hs Hlen.
  destruct (_ || _) eqn:Hsp.
  { apply Forall_cons in Hs as [Hs _].
    apply supported_special in Hs as (M & HM & HN & Hslots).
    rewrite slots_cons, Hslots, length_fmap in *.
    change (slots []) with 0%nat in *. rewrite Nat.add_0_r in *.
    unfold mbind at 1, SE_bind at 1.
    rewrite (getExprForSpecialSYCLObj_ok _ _ _ M) by done.
    unfold advance, modify. simpl. do 3 f_equal; [unfold getNumParams; lia|].
    unfold BodySpec.visit_stmts, v_type. simpl. rewrite HM.
    by rewrite app_nil_r. }
  destruct (isStructureOrClassType (fld_type Field)) eqn:Hst.
  { destruct (fld_type Field) as [| | | | |W] eqn:HT; try done.
    apply Forall_cons in Hs as [_ Hs].
    rewrite slots_cons, raw_slots_top_length in * by auto.
    destruct (lookup_lt_is_Some_2 Params c ltac:(lia)) as [P HP].
    simpl. unfold mbind at 1, SE_bind at 1.
    unfold mbind at 1, SE_bind at 1, gets. simpl. rewrite deref_nat, HP.
    unfold mbind at 1, SE_bind at 1, push_back, modify. simpl.
    pose proof (getExprForWrappedAccessorInit_ok (RecordType W) W [Field]
                  (fieldOffsetInBytes Field) (S c)
                  (st ++ [BinaryOperator (MemberExpr CloneRef (MemberField Field))
                            (ImplicitCastExpr (decl_type P)
                               (DeclRefExpr P (decl_type P) NoLoc))
                            (RecordType W)])
                  eq_refl ltac:(done) Hs ltac:(lia)) as Hn.
    replace (Z.of_nat (S c) - 1) with (Z.of_nat c) in Hn by lia.
    unfold BodySpec.member_chain in Hn. simpl in Hn. rewrite Hn.
    unfold advance, modify. simpl. do 3 f_equal; [lia|].
    unfold BodySpec.visit_stmts at 1. simpl. rewrite HP.
    unfold assignment. simpl. rewrite HT.
    rewrite <- app_assoc. simpl. do 3 f_equal. lia. }
  destruct (isPointerType (fld_type Field)) eqn:Hp.
  { destruct (fld_type Field) as [| |q T| | |] eqn:HT; try done.
    rewrite slots_cons, raw_slots_top_length in * by auto.
    change (slots []) with 0%nat in *.
    destruct (lookup_lt_is_Some_2 Params c ltac:(lia)) as [P HP].
    simpl. unfold mbind at 1, SE_bind at 1.
    unfold mbind at 1, SE_bind at 1, gets. simpl. rewrite deref_nat, HP.
    unfold mbind, SE_bind, push_back, advance, modify. simpl.
    do 3 f_equal; [lia|].
    unfold BodySpec.visit_stmts. simpl. rewrite HP.
    unfold assignment. by rewrite HT, app_nil_r. }
  destruct (isScalarType (fld_type Field)) eqn:Hsc.
  { rewrite slots_cons, raw_slots_top_length in * by auto.
    change (slots []) with 0%nat in *.
    destruct (lookup_lt_is_Some_2 Params c ltac:(lia)) as [P HP].
    assert (getAsCXXRecordDecl (fld_type Field) = None) as HCRD.
    { by destruct (fld_type Field) as [[]| | | | |]. }
    rewrite HCRD. simpl. unfold mbind at 1, SE_bind at 1.
    unfold mbind at 1, SE_bind at 1, gets. simpl. rewrite deref_nat, HP.
    unfold mbind, SE_bind, push_back, advance, modify. simpl.
    do 3 f_equal; [lia|].
    unfold BodySpec.visit_stmts. simpl. rewrite HP.
    unfold assignment. by rewrite app_nil_r. }
  by apply Forall_cons in Hs as [Hs _].
Qed.

(** The field initializations of the body are those of the fields the
    signature builder looks at, in order, each on the parameters
    allocated to it. *)
Lemma initFields_ok Flds (c : nat) st :
  Forall supported (visit_sequence Flds) →
  (c + slots (visit_sequence Flds) ≤ length Params)%nat →
  forM_ (initField Params CloneRef) Flds (Synth.mkState (Z.of_nat c) st)
  = Some (tt, Synth.mkState (Z.of_nat (c + slots (visit_sequence Flds)))
                            (st ++ body_stmts c (visit_sequence Flds))).
Proof.
  intros Hs Hlen.
  rewrite <- (Z.sub_0_r (Z.of_nat c)),
    <- (Z.sub_0_r (Z.of_nat (c + slots (visit_sequence Flds)))).
  apply (forM__cursor 0 (initField Params CloneRef) field_visits Flds);
    [|done..].
  apply Forall_forall. intros F _ c' st'. apply initField_ok.
Qed.

End BodyRefinement.

(** ** Wrapper aggregates (C3) *)

Section Wrappers.
Import Builder Flatten BodySpec Synth.

(** Inside a wrapper only the accessors get slots. *)
Lemma wrapped_slots_nested_accessors Ty :
  ∀ path Offset, path ≠ [] →
    flat_map raw_slots (wrapped_visits path Ty Offset)
    = flat_map init_slots (nested_accessors Ty).
Proof.
  induction Ty as [k|n|q T _|T _|T n _|[info Args flds meths] IHF _]
    using QualType_graph_ind; intros path Offset Hpath; try done.
  rewrite wrapped_visits_fields. cbn [nested_accessors fields] in *.
  rewrite !flat_map_flat_map.
  induction IHF as [|F flds' HF _ IH]; [done|]. cbn [flat_map].
  rewrite IH, raw_slots_wrapped_field by done. f_equal.
  unfold classify_wrapped.
  destruct (isStructureOrClassType (fld_type F)); [|done].
  destruct (Util.isSyclAccessorType (fld_type F)).
  - simpl. by rewrite app_nil_r.
  - apply HF. by destruct path.
Qed.

Lemma nested_accessor_paths_fields Ty :
  snd <$> nested_accessor_paths Ty = nested_accessors Ty.
Proof.
  induction Ty as [k|n|q T _|T _|T n _|[info Args flds meths] IHF _]
    using QualType_graph_ind; try done.
  cbn [nested_accessor_paths nested_accessors fields] in *.
  induction IHF as [|F flds' HF _ IH]; [done|]. cbn [flat_map].
  rewrite fmap_app, IH. f_equal.
  destruct (isStructureOrClassType (fld_type F)); [|done].
  destruct (Util.isSyclAccessorType (fld_type F)); [done|].
  rewrite <- HF, <- list_fmap_compose. done.
Qed.

(** The accessors found by looking at one field of a wrapper. *)
Definition field_paths (F : FieldDecl) : list (list FieldDecl * FieldDecl) :=
  if isStructureOrClassType (fld_type F) then
    if Util.isSyclAccessorType (fld_type F) then [([], F)]
    else (λ pA, (F :: pA.1, pA.2)) <$> nested_accessor_paths (fld_type F)
  else [].

Lemma nested_accessor_paths_record Wrapper :
  nested_accessor_paths (RecordType Wrapper)
  = flat_map field_paths (fields Wrapper).
Proof. destruct Wrapper. reflexivity. Qed.

Lemma slots_field_paths path Offset F :
  path ≠ [] →
  slots (wrapped_field_visits path Offset F)
  = length (flat_map init_slots (snd <$> field_paths F)).
Proof.
  intros Hpath. unfold slots. rewrite raw_slots_wrapped_field by done.
  unfold classify_wrapped, field_paths.
  destruct (isStructureOrClassType (fld_type F)); [|done].
  destruct (Util.isSyclAccessorType (fld_type F)).
  - simpl. by rewrite app_nil_r.
  - rewrite wrapped_slots_nested_accessors by (by destruct path).
    rewrite <- list_fmap_compose.
    change (snd ∘ (λ pA : list FieldDecl * FieldDecl, (F :: pA.1, pA.2)))
      with (@snd (list FieldDecl) FieldDecl).
    by rewrite nested_accessor_paths_fields.
Qed.

(** The [__init] calls on the accessors [As], on the parameters [Params]
    from index [c] on. *)
Fixpoint init_calls_from (Params : list DeclaratorDecl) (CloneRef : Stmt)
    (c : nat) (As : list (list FieldDecl * FieldDecl)) : list Stmt :=
  match As with
  | [] => []
  | pA :: As' =>
      match getAsCXXRecordDecl (fld_type pA.2) ≫= getInitMethod with
      | Some M =>
          [init_call (BodySpec.member_chain CloneRef pA.1) pA.2 M
             (ParamDREs Params c (getNumParams M))]
      | None => []
      end
      ++ init_calls_from Params CloneRef (c + length (init_slots pA.2)) As'
  end.

Lemma init_calls_from_app Params CloneRef c As1 As2 :
  init_calls_from Params CloneRef c (As1 ++ As2)
  = init_calls_from Params CloneRef c As1
    ++ init_calls_from Params CloneRef
         (c + length (flat_map init_slots (snd <$> As1))) As2.
Proof.
  revert c. induction As1 as [|pA As1 IH]; intros c.
  - simpl. by rewrite Nat.add_0_r.
  - cbn [app init_calls_from fmap list_fmap flat_map].
    rewrite IH, <- app_assoc, length_app, Nat.add_assoc. done.
Qed.

(** Inside a wrapper the body holds the [__init] calls of the nested
    accessors and nothing else, in the order of [nested_accessor_paths],
    each through the member chain that leads to the accessor. *)
Lemma wrapped_stmts_nested_accessors Params CloneRef Ty :
  ∀ path Offset c, path ≠ [] →
    BodySpec.body_stmts Params CloneRef c (wrapped_visits path Ty Offset)
    = init_calls_from Params CloneRef c
        ((λ pA, (path ++ pA.1, pA.2)) <$> nested_accessor_paths Ty).
Proof.
  induction Ty as [k|n|q T _|T _|T n _|[info Args flds meths] IHF _]
    using QualType_graph_ind; intros path Offset c Hpath; try done.
  rewrite wrapped_visits_fields, nested_accessor_paths_record.
  cbn [fields] in *.
  revert c. induction IHF as [|F flds' HF _ IH]; intros c; [done|].
  cbn [flat_map]. rewrite body_stmts_app, fmap_app, init_calls_from_app.
  rewrite IH, (slots_field_paths path Offset F Hpath).
  rewrite <- (list_fmap_compose _ snd).
  change (snd ∘ (λ pA : list FieldDecl * FieldDecl, (path ++ pA.1, pA.2)))
    with (@snd (list FieldDecl) FieldDecl).
  f_equal.
  unfold wrapped_field_visits, classify_wrapped, field_paths. cbn zeta.
  destruct (isStructureOrClassType (fld_type F)); [|done].
  destruct (Util.isSyclAccessorType (fld_type F)).
  - cbn [BodySpec.body_stmts fmap list_fmap init_calls_from fst snd].
    unfold BodySpec.visit_stmts, v_type. cbn [v_class v_field v_path].
    by rewrite !app_nil_r.
  - cbn [BodySpec.body_stmts]. unfold BodySpec.visit_stmts at 1.
    cbn [v_class v_path]. unfold raw_slots at 1. cbn [v_class v_path].
    destruct path as [|F0 path]; [done|].
    cbn [app length]. rewrite Nat.add_0_r.
    rewrite (HF (F0 :: path ++ [F])) by done.
    rewrite <- list_fmap_compose. f_equal. apply list_fmap_ext.
    intros i [p A] _. cbn. by rewrite <- app_assoc.
Qed.

(** Every accessor nested in a supported wrapper has its [__init]. *)
Lemma nested_accessors_have_init Ty :
  ∀ path Offset,
    Forall supported (wrapped_visits path Ty Offset) →
    Forall (λ pA : list FieldDecl * FieldDecl,
              is_Some (getAsCXXRecordDecl (fld_type pA.2) ≫= getInitMethod))
           (nested_accessor_paths Ty).
Proof.
  induction Ty as [k|n|q T _|T _|T n _|[info Args flds meths] IHF _]
    using QualType_graph_ind; intros path Offset Hs; try by constructor.
  rewrite wrapped_visits_fields in Hs. rewrite nested_accessor_paths_record.
  cbn [fields] in *.
  induction IHF as [|F flds' HF _ IH]; [by constructor|].
  cbn [flat_map] in *. apply Forall_app in Hs as [Hs1 Hs2].
  apply Forall_app. split; [|by apply IH].
  unfold wrapped_field_visits, classify_wrapped, field_paths in *.
  cbn zeta in Hs1.
  destruct (isStructureOrClassType (fld_type F)); [|by constructor].
  destruct (Util.isSyclAccessorType (fld_type F)).
  - apply Forall_cons in Hs1 as [Hs1 _].
    apply supported_special in Hs1 as (M & HM & _).
    repeat constructor. cbn [snd]. rewrite HM. by eexists.
  - apply Forall_cons in Hs1 as [_ Hs1]. apply Forall_fmap.
    eapply Forall_impl; [by eapply HF|]. by intros [p A].
Qed.

End Wrappers.

(** ** The synthesized entry point *)

Section EntryPoint.
Import Builder Flatten BodySpec Synth.

Lemma body_stmts_no_slots Params CloneRef (c : nat) vs :
  Forall supported vs → slots vs = 0%nat →
  BodySpec.body_stmts Params CloneRef c vs = [].
Proof.
  intros Hs. revert c. induction Hs as [|v vs Hv _ IH]; intros c H0; [done|].
  rewrite slots_cons in H0. simpl.
  rewrite IH by lia. rewrite app_nil_r.
  destruct v as [path F cls Off]. unfold BodySpec.visit_stmts.
  destruct cls; try done; cbn [v_class] in *.
  { apply supported_special in Hv as (M & _ & HN & Hslots).
    rewrite Hslots, length_fmap in H0. unfold getNumParams in HN. lia. }
  all: try destruct path; try done; simpl in H0; lia.
Qed.

(** The entry point built from a supported kernel object: its
    parameters are the raw slots of the fields the walk looks at, and
    its body declares the local kernel object, initializes those fields
    in the same order from the parameters allocated to them, and ends
    with the rewritten body of the kernel caller. *)
Lemma entry_point Caller LC FunctionBody Name Ds B' :
  getKernelObjectType Caller = Some LC →
  fn_body Caller = Some FunctionBody →
  exec (buildArgTys LC) (Builder.mkState [] Ds) = Some B' →
  Forall supported (visit_sequence (fields LC)) →
  let visits := visit_sequence (fields LC) in
  let Kernel := CreateOpenCLKernelDeclaration Name (ParamDescs B') in
  let Clone := VarDecl Name (d_name (rd_decl (rd_info LC))) (RecordType LC) in
  let CloneRef := DeclRefExpr Clone (RecordType LC) NoLoc in
  ParamDescs B' = flat_map raw_slots visits ∧
  ∃ KernelObjParam,
    head (fn_params Caller) = Some KernelObjParam ∧
    CreateOpenCLKernelBody Caller Kernel
    = Some (CompoundStmt
              (DeclStmt Clone
               :: BodySpec.body_stmts (fn_params Kernel) CloneRef 0 visits
               ++ [KernelBodyTransform.TransformStmt (KernelObjParam, Clone)
                                                     FunctionBody])
              NoLoc NoLoc).
Proof.
  intros HLC HFB Hbuild Hs visits Kernel Clone CloneRef.
  apply exec_Some in Hbuild as [[] Hbuild].
  apply buildArgTys_slots in Hbuild. simpl in Hbuild. split; [done|].
  unfold getKernelObjectType in HLC.
  destruct (head (fn_params Caller)) as [P|] eqn:HP; [|done].
  exists P. split; [done|].
  unfold CreateOpenCLKernelBody, getKernelObjectType. rewrite HP.
  simpl in HLC |- *. rewrite HLC. simpl.
  assert (length (imap (λ i PD, ParmVarDecl Name i (pd_name PD) (pd_type PD))
                       (ParamDescs B')) = slots visits) as Hlen.
  { rewrite length_imap, Hbuild. done. }
  case_bool_decide as Hnil.
  - pose proof (initFields_ok (fn_params Kernel) CloneRef
                  (fields LC) 0 [DeclStmt Clone] Hs) as Hrun.
    simpl in Hrun. rewrite Hlen in Hrun. specialize (Hrun (le_n _)).
    unfold CloneRef, Clone in Hrun. change (Z.of_nat 0) with 0 in Hrun.
    unfold exec. simpl. rewrite Hrun. simpl. by rewrite HFB.
  - rewrite Hnil in *. simpl in Hlen.
    unfold exec. simpl. rewrite HFB. simpl.
    by rewrite (body_stmts_no_slots [] _ 0 visits Hs).
Qed.

(** The parameters of the entry point that stand for the slots of a
    field are consecutive, and carry the name of the field. *)
Lemma ParamDREs_of_field Name P_pre P_post F Tys :
  ParamDREs
    (fn_params (CreateOpenCLKernelDeclaration Name
                  (P_pre ++ (makeParamDesc F <$> Tys) ++ P_post)))
    (length P_pre) (length Tys)
  = imap (λ k T,
            DeclRefExpr (ParmVarDecl Name (length P_pre + k)
                           ("_arg_" +:+ fld_name F) T) T NoLoc) Tys.
Proof.
  unfold ParamDREs. simpl. rewrite !imap_app.
  rewrite drop_app_length'; [|by rewrite length_imap].
  rewrite take_app_length'; [|by rewrite length_imap, length_fmap].
  rewrite imap_fmap, fmap_imap. done.
Qed.

(** On the parameters of an entry point whose slots from [c] on are
    those of the accessors [As], the calls are those of [init_calls]. *)
Lemma init_calls_explicit Name CloneRef As :
  ∀ Pre Post c,
    c = length Pre →
    Forall (λ pA : list FieldDecl * FieldDecl,
              is_Some (getAsCXXRecordDecl (fld_type pA.2) ≫= getInitMethod))
           As →
    init_calls Name CloneRef c As
    = Some (init_calls_from
              (fn_params (CreateOpenCLKernelDeclaration Name
                            (Pre ++ flat_map init_slots (snd <$> As) ++ Post)))
              CloneRef c As).
Proof.
  induction As as [|[p A] As IH]; intros Pre Post c -> HAs; [done|].
  apply Forall_cons in HAs as [[M HM] HAs].
  cbn [init_calls init_calls_from fst snd fmap list_fmap flat_map] in *.
  rewrite HM. cbn [mbind option_bind].
  assert (init_slots A = makeParamDesc A <$> meth_params M) as ES.
  { unfold init_slots, init_params. by rewrite HM. }
  rewrite ES, length_fmap. fold (getNumParams M).
  rewrite <- !app_assoc.
  rewrite (ParamDREs_of_field Name Pre _ A (meth_params M)).
  specialize (IH (Pre ++ (makeParamDesc A <$> meth_params M)) Post
                 (length Pre + getNumParams M)%nat).
  rewrite <- !app_assoc in IH.
  rewrite IH; [done| |done].
  rewrite length_app, length_fmap. done.
Qed.

End EntryPoint.

(** ** The signature builder and the header codegen agree (C6) *)

(** C6: the signature builder and the header codegen classify every
    type alike, although they test it in a different order, and both
    walk the kernel object along one sequence of visited fields: the
    parameter slots the builder appends and the descriptors the header
    codegen registers are the images, visit by visit and in the same
    order, of the fields of the kernel object and of the fields nested in
    its wrappers, each classified once. *)
Theorem builder_and_header_walk_alike
    (getTypeSizeInChars : QualType → Z) (KernelObjTy : CXXRecordDecl)
    (Name : string) (NameType : QualType)
    (B B' : Builder.State) (H H' : IntHeader.SYCLIntegrationHeader) :
  exec (Builder.buildArgTys KernelObjTy) B = Some B' →
  exec (IntHeader.populateIntHeader getTypeSizeInChars Name NameType
          KernelObjTy) H = Some H' →
  (∀ ArgTy, Flatten.classify_buildArgTys ArgTy
            = Flatten.classify_populateIntHeader ArgTy) ∧
  let visits := Flatten.visit_sequence (fields KernelObjTy) in
  Builder.ParamDescs B'
  = Builder.ParamDescs B ++ flat_map Flatten.raw_slots visits ∧
  H' = H ++ [IntHeader.mkKernelDesc Name NameType
               (flat_map (Flatten.descriptors getTypeSizeInChars) visits)].
Proof.
  intros HB HH. split; [apply classify_agree|]. split.
  - apply exec_Some in HB as [[] HB]. by apply buildArgTys_slots in HB.
  - by apply populateIntHeader_descriptors.
Qed.

(** The witness of C6: the kernel object [{ int x; Outer w; }] with an
    accessor two wrappers deep. *)
Lemma builder_and_header_walk_alike_witness :
  ∃ B' H',
    exec (Builder.buildArgTys Scenario.nestedAccessor) (Builder.mkState [] [])
    = Some B' ∧
    exec (IntHeader.populateIntHeader Scenario.sizeInChars "_ZTS1K"
            Scenario.void Scenario.nestedAccessor) [] = Some H' ∧
    let visits := Flatten.visit_sequence (fields Scenario.nestedAccessor) in
    Flatten.v_class <$> visits
    = [Flatten.ScalarField; Flatten.WrapperAggregate; Flatten.NotFlattened;
       Flatten.WrapperAggregate; Flatten.NotFlattened; Flatten.SpecialObject] ∧
    Builder.ParamDescs B' = flat_map Flatten.raw_slots visits ∧
    H' = [IntHeader.mkKernelDesc "_ZTS1K" Scenario.void
            (flat_map (Flatten.descriptors Scenario.sizeInChars) visits)].
Proof.
  eexists _, _. split; [vm_compute; reflexivity|].
  split; [vm_compute; reflexivity|].
  split; [vm_compute; reflexivity|].
  apply (builder_and_header_walk_alike Scenario.sizeInChars
           Scenario.nestedAccessor "_ZTS1K" Scenario.void
           (Builder.mkState [] []) _ [] _);
    vm_compute; reflexivity.
Defined.

(** ** Offsets of nested accessors (C5) *)

Section Offsets.
Import IntHeader Flatten.

Lemma wrapped_visits_at path Wrapper Offset pre F post :
  fields Wrapper = pre ++ F :: post →
  wrapped_visits path (RecordType Wrapper) Offset
  = flat_map (wrapped_field_visits path Offset) pre
    ++ wrapped_field_visits path Offset F
    ++ flat_map (wrapped_field_visits path Offset) post.
Proof.
  intros E. rewrite wrapped_visits_fields, E, flat_map_app. done.
Qed.

Lemma fieldOffsetInBytes_nonneg F : 0 ≤ fieldOffsetInBytes F.
Proof.
  unfold fieldOffsetInBytes, IntHeader.fieldOffsetInBytes, Ints.to_uint64.
  apply Z.div_pos; [|lia]. apply Z.mod_pos_bound. lia.
Qed.

(** Three offsets added on [uint64_t] and narrowed to [unsigned]. *)
Lemma to_unsigned_sum3 a b c :
  Ints.to_unsigned (Ints.to_uint64 (Ints.to_uint64 (a + b) + c))
  = (a + b + c) mod 2 ^ 32.
Proof.
  rewrite to_unsigned_uint64. unfold Ints.to_unsigned.
  rewrite <- Z.add_mod_idemp_l by lia.
  fold (Ints.to_unsigned (Ints.to_uint64 (a + b))).
  rewrite to_unsigned_uint64. unfold Ints.to_unsigned.
  rewrite Z.add_mod_idemp_l by lia. done.
Qed.

End Offsets.

(** C5, amended: an accessor [A] (a class or struct
    [cl::sycl::accessor]) in a wrapper [M] in a wrapper [F] of the kernel
    object is described at the offset of [F] in the kernel object plus
    the offset of [M] in the type of [F] plus the offset of [A] in the
    type of [M], narrowed to the [unsigned] that the descriptor holds:
    that sum modulo 2^32, hence the sum itself whenever it is below
    2^32. *)
Theorem nested_accessor_offset
    (getTypeSizeInChars : QualType → Z) (KernelObjTy : CXXRecordDecl)
    (Name : string) (NameType : QualType)
    (H H' : IntHeader.SYCLIntegrationHeader)
    (pre post pre1 post1 pre2 post2 : list FieldDecl)
    (F M A : FieldDecl) (Outer Mid : CXXRecordDecl) :
  fields KernelObjTy = pre ++ F :: post →
  fld_type F = RecordType Outer →
  Flatten.classify_populateIntHeader (fld_type F) = Flatten.WrapperAggregate →
  fields Outer = pre1 ++ M :: post1 →
  fld_type M = RecordType Mid →
  Flatten.classify_wrapped (fld_type M) = Flatten.WrapperAggregate →
  fields Mid = pre2 ++ A :: post2 →
  Flatten.classify_wrapped (fld_type A) = Flatten.SpecialObject →
  exec (IntHeader.populateIntHeader getTypeSizeInChars Name NameType
          KernelObjTy) H = Some H' →
  let Sum := IntHeader.fieldOffsetInBytes F + IntHeader.fieldOffsetInBytes M
             + IntHeader.fieldOffsetInBytes A in
  ∃ V1 V2 Off64 Off,
    Flatten.visit_sequence (fields KernelObjTy)
    = V1 ++ Flatten.mkVisit [F; M] A Flatten.SpecialObject Off64 :: V2 ∧
    H' = H ++ [IntHeader.mkKernelDesc Name NameType
                 (flat_map (Flatten.descriptors getTypeSizeInChars) V1
                  ++ IntHeader.mkKernelParamDesc IntHeader.kind_accessor
                       (Flatten.accessor_Info (fld_type A)) Off
                  :: flat_map (Flatten.descriptors getTypeSizeInChars) V2)] ∧
    Off = Sum mod 2 ^ 32 ∧
    (Sum < 2 ^ 32 → Off = Sum).
Proof.
  intros EK EF CF EO EM CM EMid CA Hrun Sum.
  apply populateIntHeader_descriptors in Hrun.
  rewrite <- classify_agree in CF.
  set (oF := IntHeader.fieldOffsetInBytes F) in *.
  set (o2 := Ints.to_uint64 (oF + IntHeader.fieldOffsetInBytes M)).
  set (o3 := Ints.to_uint64 (o2 + IntHeader.fieldOffsetInBytes A)).
  assert (Flatten.visit_sequence (fields KernelObjTy)
          = (Flatten.visit_sequence pre
             ++ Flatten.mkVisit [] F Flatten.WrapperAggregate oF
             :: flat_map (Flatten.wrapped_field_visits [F] oF) pre1
             ++ Flatten.mkVisit [F] M Flatten.WrapperAggregate o2
             :: flat_map (Flatten.wrapped_field_visits [F; M] o2) pre2)
            ++ Flatten.mkVisit [F; M] A Flatten.SpecialObject o3
            :: (flat_map (Flatten.wrapped_field_visits [F; M] o2) post2
                ++ flat_map (Flatten.wrapped_field_visits [F] oF) post1
                ++ Flatten.visit_sequence post)) as EV.
  { rewrite EK, visit_sequence_app.
    change (Flatten.visit_sequence (F :: post))
      with (Flatten.field_visits F ++ Flatten.visit_sequence post).
    unfold Flatten.field_visits. rewrite CF, EF.
    rewrite (wrapped_visits_at [F] Outer _ pre1 M post1 EO).
    unfold Flatten.wrapped_field_visits at 2. rewrite CM, EM.
    rewrite (wrapped_visits_at ([F] ++ [M]) Mid _ pre2 A post2 EMid).
    unfold Flatten.wrapped_field_visits at 3. rewrite CA.
    unfold Flatten.fieldOffsetInBytes. subst oF o2 o3.
    repeat (rewrite <- ?app_assoc, <- ?app_comm_cons; simpl).
    reflexivity. }
  eexists _, _, o3, (Ints.to_unsigned o3). split; [exact EV|].
  assert (Util.isSyclAccessorType (fld_type A) = true) as HA.
  { unfold Flatten.classify_wrapped in CA.
    destruct (isStructureOrClassType (fld_type A)); [|done].
    by destruct (Util.isSyclAccessorType (fld_type A)). }
  split.
  - rewrite Hrun, EV, flat_map_app. simpl.
    unfold Flatten.descriptors at 2. simpl. unfold Flatten.v_type. simpl.
    rewrite HA. reflexivity.
  - assert (Ints.to_unsigned o3 = Sum mod 2 ^ 32) as E
      by apply to_unsigned_sum3.
    split; [exact E|]. intros Hfits. rewrite E. apply Z.mod_small.
    pose proof (fieldOffsetInBytes_nonneg F).
    pose proof (fieldOffsetInBytes_nonneg M).
    pose proof (fieldOffsetInBytes_nonneg A).
    unfold Flatten.fieldOffsetInBytes in *. subst Sum oF. lia.
Qed.

(** The witness of C5: in [{ int x; Outer w; }] the wrapper [w] is at
    byte 32, [mid] at byte 16 of [Outer] and the accessor [a] at byte 8
    of [Mid]: the accessor is described at offset 56. *)
Lemma nested_accessor_offset_witness :
  ∃ H' V1 V2,
    exec (IntHeader.populateIntHeader Scenario.sizeInChars "_ZTS1K"
            Scenario.void Scenario.nestedAccessor) [] = Some H' ∧
    H' = [IntHeader.mkKernelDesc "_ZTS1K" Scenario.void
            (flat_map (Flatten.descriptors Scenario.sizeInChars) V1
             ++ IntHeader.mkKernelParamDesc IntHeader.kind_accessor
                  (Flatten.accessor_Info Scenario.acc1) 56
             :: flat_map (Flatten.descriptors Scenario.sizeInChars) V2)].
Proof.
  destruct (nested_accessor_offset Scenario.sizeInChars
              Scenario.nestedAccessor "_ZTS1K" Scenario.void []
              (default [] (exec (IntHeader.populateIntHeader
                                   Scenario.sizeInChars "_ZTS1K" Scenario.void
                                   Scenario.nestedAccessor) []))
              [mkFieldDecl "x" Scenario.int 0 0] []
              [mkFieldDecl "n" Scenario.int 0 0] []
              [mkFieldDecl "pad" Scenario.int 0 0] []
              (mkFieldDecl "w" (RecordType Scenario.Outer) 256 0)
              (mkFieldDecl "mid" (RecordType Scenario.Mid) 128 0)
              (mkFieldDecl "a" Scenario.acc1 64 0)
              Scenario.Outer Scenario.Mid)
    as (V1 & V2 & Off64 & Off & _ & HH & _ & HOff);
    [vm_compute; reflexivity..|].
  eexists _, V1, V2. split; [vm_compute; reflexivity|].
  rewrite (HOff ltac:(vm_compute; reflexivity)) in HH. exact HH.
Defined.

(** C5 as stated fails where the offsets add up to 2^32 bytes or more:
    with [w] at byte 2^32 - 24 of the kernel object, [mid] at byte 16 of
    [Outer] and the accessor [a] at byte 8 of [Mid], the three offsets
    add up to 2^32 and the descriptor of the accessor holds the offset
    0, the [Offset] of a descriptor being an [unsigned]. *)
Lemma nested_accessor_offset_is_narrowed :
  IntHeader.fieldOffsetInBytes
    (mkFieldDecl "w" (RecordType Scenario.Outer) (8 * (2 ^ 32 - 24)) 0)
  + IntHeader.fieldOffsetInBytes
      (mkFieldDecl "mid" (RecordType Scenario.Mid) 128 0)
  + IntHeader.fieldOffsetInBytes (mkFieldDecl "a" Scenario.acc1 64 0)
  = 2 ^ 32 ∧
  exec (IntHeader.populateIntHeader Scenario.sizeInChars "_ZTS1K"
          Scenario.void Scenario.farNestedAccessor) []
  = Some [IntHeader.mkKernelDesc "_ZTS1K" Scenario.void
            [IntHeader.mkKernelParamDesc IntHeader.kind_std_layout 4 0;
             IntHeader.mkKernelParamDesc IntHeader.kind_std_layout 32
               (2 ^ 32 - 24);
             IntHeader.mkKernelParamDesc IntHeader.kind_accessor
               (Flatten.accessor_Info Scenario.acc1) 0]].
Proof. vm_compute. done. Qed.

(** ** The entry point at one field of the kernel object *)

Section EntryPointAtField.
Import Builder Flatten BodySpec Synth.

(** The slots and the statements of the field [F] of the kernel object
    stand between those of the fields before it and those of the fields
    after it. *)
Lemma entry_point_at_field Caller LC FunctionBody Name Ds B' pre F post :
  getKernelObjectType Caller = Some LC →
  fn_body Caller = Some FunctionBody →
  exec (buildArgTys LC) (Builder.mkState [] Ds) = Some B' →
  Forall supported (visit_sequence (fields LC)) →
  fields LC = pre ++ F :: post →
  let V_pre := visit_sequence pre in
  let V_post := visit_sequence post in
  let Kernel := CreateOpenCLKernelDeclaration Name (ParamDescs B') in
  let Clone := VarDecl Name (d_name (rd_decl (rd_info LC))) (RecordType LC) in
  let CloneRef := DeclRefExpr Clone (RecordType LC) NoLoc in
  ParamDescs B'
  = flat_map raw_slots V_pre ++ flat_map raw_slots (field_visits F)
    ++ flat_map raw_slots V_post ∧
  Forall supported (field_visits F) ∧
  (slots V_pre + slots (field_visits F) ≤ length (fn_params Kernel))%nat ∧
  ∃ S_post,
    CreateOpenCLKernelBody Caller Kernel
    = Some (CompoundStmt
              ((DeclStmt Clone
                :: BodySpec.body_stmts (fn_params Kernel) CloneRef 0 V_pre)
               ++ BodySpec.body_stmts (fn_params Kernel) CloneRef
                    (slots V_pre) (field_visits F)
               ++ S_post)
              NoLoc NoLoc).
Proof.
  intros HLC HFB Hbuild Hs EF V_pre V_post Kernel Clone CloneRef.
  destruct (entry_point Caller LC FunctionBody Name Ds B' HLC HFB Hbuild Hs)
    as (HP & P & _ & Hbody).
  assert (visit_sequence (fields LC) = V_pre ++ field_visits F ++ V_post) as EV.
  { rewrite EF, visit_sequence_app. done. }
  rewrite EV in *. split; [by rewrite HP, !flat_map_app|].
  apply Forall_app in Hs as [_ Hs]. apply Forall_app in Hs as [Hs _].
  split; [done|]. split.
  { subst Kernel. simpl. rewrite length_imap, HP.
    fold (slots (V_pre ++ field_visits F ++ V_post)).
    rewrite !slots_app. lia. }
  eexists. fold Kernel Clone CloneRef in Hbody. rewrite Hbody.
  rewrite !body_stmts_app, <- !app_assoc. simpl. reflexivity.
Qed.

End EntryPointAtField.

(** ** Wrapper aggregates (C3) *)

(** C3 as stated fails: the wrapper [struct WithSampler { sampler s; }]
    holds a special object, a sampler initialized from one raw
    parameter, yet the signature builder appends the slot of the wrapper
    only, and the body of the entry point assigns the wrapper and holds
    no call of [__init]. *)
Lemma nested_sampler_gets_no_parameter :
  ∃ B' Clone Assigned NewBody,
    exec (Builder.buildArgTys Scenario.wrappedSampler) (Builder.mkState [] [])
    = Some B' ∧
    Flatten.nested_special_objects (RecordType Scenario.WithSampler)
    = [mkFieldDecl "s" Scenario.sampler 0 0] ∧
    Flatten.init_slots (mkFieldDecl "s" Scenario.sampler 0 0)
    = [Builder.mkParamDesc Scenario.int "_arg_s"] ∧
    Builder.ParamDescs B'
    = [Builder.mkParamDesc (RecordType Scenario.WithSampler) "_arg_w"] ∧
    Synth.CreateOpenCLKernelBody
      (Scenario.kernelCaller Scenario.wrappedSampler)
      (Synth.CreateOpenCLKernelDeclaration "k" (Builder.ParamDescs B'))
    = Some (CompoundStmt
              [DeclStmt Clone;
               BinaryOperator
                 (MemberExpr (DeclRefExpr Clone
                                (RecordType Scenario.wrappedSampler) NoLoc)
                    (MemberField
                       (mkFieldDecl "w" (RecordType Scenario.WithSampler) 0 0)))
                 Assigned (RecordType Scenario.WithSampler);
               NewBody]
              NoLoc NoLoc).
Proof.
  eexists _, _, _, _. split; [vm_compute; reflexivity|].
  split; [vm_compute; reflexivity|]. split; [vm_compute; reflexivity|].
  split; vm_compute; reflexivity.
Qed.

(** C3, amended: for a field [F] of a supported kernel object whose type
    is a wrapper aggregate, the signature builder appends one slot of the
    type of [F], then the slots of the accessors nested in [F] (the class
    or struct fields that are accessors, looked for through the class or
    struct fields that are not), in field order and depth first; nested
    samplers get none.  The body of the entry point assigns [F] from the
    parameter of its slot, and right after that calls [__init] on every
    such nested accessor, in the same order: on the accessor [A] reached
    through the fields [inner] of the wrappers the call is
    [kernel_obj.F.inner.A.__init(...)], on the parameters of the entry
    point made from the slots of [A], in order. *)
Theorem wrapper_aggregate_flattening
    (Caller : FunctionDecl) (LC : CXXRecordDecl) (FunctionBody : Stmt)
    (Name : string) (Ds : list Diagnostic) (B' : Builder.State)
    (pre post : list FieldDecl) (F : FieldDecl) :
  getKernelObjectType Caller = Some LC →
  fn_body Caller = Some FunctionBody →
  exec (Builder.buildArgTys LC) (Builder.mkState [] Ds) = Some B' →
  Forall BodySpec.supported (Flatten.visit_sequence (fields LC)) →
  fields LC = pre ++ F :: post →
  Flatten.classify_buildArgTys (fld_type F) = Flatten.WrapperAggregate →
  let P_pre := flat_map Flatten.raw_slots (Flatten.visit_sequence pre) in
  let P_post := flat_map Flatten.raw_slots (Flatten.visit_sequence post) in
  let Kernel := Synth.CreateOpenCLKernelDeclaration Name (Builder.ParamDescs B') in
  let Clone := VarDecl Name (d_name (rd_decl (rd_info LC))) (RecordType LC) in
  let CloneRef := DeclRefExpr Clone (RecordType LC) NoLoc in
  let Param := ParmVarDecl Name (length P_pre) ("_arg_" +:+ fld_name F)
                           (fld_type F) in
  let Nested :=
    (λ pA, (F :: pA.1, pA.2)) <$> Flatten.nested_accessor_paths (fld_type F) in
  snd <$> Nested = Flatten.nested_accessors (fld_type F) ∧
  Builder.ParamDescs B'
  = P_pre
    ++ Builder.makeParamDesc F (fld_type F)
    :: flat_map Flatten.init_slots (Flatten.nested_accessors (fld_type F))
    ++ P_post ∧
  fn_params Kernel !! length P_pre = Some Param ∧
  ∃ S_pre Inits S_post,
    Synth.CreateOpenCLKernelBody Caller Kernel
    = Some (CompoundStmt
              (S_pre
               ++ BodySpec.assignment CloneRef F
                    (DeclRefExpr Param (fld_type F) NoLoc) (fld_type F)
               :: Inits ++ S_post)
              NoLoc NoLoc) ∧
    BodySpec.init_calls Name CloneRef (length P_pre + 1) Nested = Some Inits.
Proof.
  intros HLC HFB Hbuild Hs EF CF P_pre P_post Kernel Clone CloneRef Param
    Nested.
  destruct (entry_point_at_field Caller LC FunctionBody Name Ds B' pre F post
              HLC HFB Hbuild Hs EF) as (HP & HsF & Hlen & S_post & Hbody).
  fold Kernel Clone CloneRef in Hlen, Hbody.
  unfold Flatten.field_visits in HP, HsF, Hlen, Hbody.
  rewrite CF in HP, HsF, Hlen, Hbody. cbn zeta in HP, HsF, Hlen, Hbody.
  set (oF := Flatten.fieldOffsetInBytes F) in *.
  cbn [flat_map] in HP.
  rewrite (wrapped_slots_nested_accessors (fld_type F) [F] oF) in HP by done.
  change (Flatten.raw_slots (Flatten.mkVisit [] F Flatten.WrapperAggregate oF))
    with [Builder.makeParamDesc F (fld_type F)] in HP.
  fold P_pre P_post in HP. simpl in HP.
  assert (slots (Flatten.visit_sequence pre) = length P_pre) as Epre by done.
  assert (fn_params Kernel !! length P_pre = Some Param) as HParam.
  { subst Kernel. simpl. rewrite list_lookup_imap, HP.
    rewrite list_lookup_middle by done. done. }
  assert (snd <$> Nested = Flatten.nested_accessors (fld_type F)) as ENested.
  { subst Nested. rewrite <- list_fmap_compose.
    apply nested_accessor_paths_fields. }
  split; [exact ENested|]. split; [exact HP|]. split; [exact HParam|].
  apply Forall_cons in HsF as [_ HsW].
  cbn [BodySpec.body_stmts] in Hbody.
  unfold BodySpec.visit_stmts in Hbody at 1. cbn [Flatten.v_class Flatten.v_path
    Flatten.v_field] in Hbody.
  rewrite Epre, HParam in Hbody.
  rewrite (wrapped_stmts_nested_accessors (fn_params Kernel) CloneRef
             (fld_type F) [F] oF) in Hbody by done.
  change (Flatten.raw_slots (Flatten.mkVisit [] F Flatten.WrapperAggregate oF))
    with [Builder.makeParamDesc F (fld_type F)] in Hbody.
  cbn [length] in Hbody. fold Nested in Hbody.
  eexists _, _, _. split; [exact Hbody|].
  subst Kernel. rewrite HP, <- ENested.
  replace (P_pre ++ Builder.makeParamDesc F (fld_type F)
           :: flat_map Flatten.init_slots (snd <$> Nested) ++ P_post)
    with ((P_pre ++ [Builder.makeParamDesc F (fld_type F)])
          ++ flat_map Flatten.init_slots (snd <$> Nested) ++ P_post)
    by (by rewrite <- app_assoc).
  apply init_calls_explicit.
  - rewrite length_app. done.
  - subst Nested. apply Forall_fmap.
    eapply Forall_impl; [exact (nested_accessors_have_init _ _ _ HsW)|].
    by intros [p A].
Qed.

(** Supported kernel objects given in full are recognized by
    evaluation. *)
Ltac supported_by_evaluation :=
  vm_compute;
  repeat first [ apply List.Forall_nil | apply List.Forall_cons ];
  first [ exact I | eexists; split; [reflexivity|vm_compute; lia] ].

(** The witness of C3: in [{ int x; Outer w; }] the wrapper [w] gets one
    slot, followed by the three slots of the accessor [w.mid.a]; the
    body assigns [w] from the parameter 1 and then calls
    [kernel_obj.w.mid.a.__init] on the parameters 2, 3 and 4. *)
Lemma wrapper_aggregate_flattening_witness :
  ∃ B' S_pre Assignment S_post,
    exec (Builder.buildArgTys Scenario.nestedAccessor) (Builder.mkState [] [])
    = Some B' ∧
    Builder.ParamDescs B'
    = [Builder.mkParamDesc Scenario.int "_arg_x";
       Builder.mkParamDesc (RecordType Scenario.Outer) "_arg_w";
       Builder.mkParamDesc (Scenario.globalPtr Scenario.int) "_arg_a";
       Builder.mkParamDesc Scenario.int "_arg_a";
       Builder.mkParamDesc Scenario.int "_arg_a"] ∧
    let Clone := VarDecl "k" "Functor" (RecordType Scenario.nestedAccessor) in
    let w := mkFieldDecl "w" (RecordType Scenario.Outer) 256 0 in
    let mid := mkFieldDecl "mid" (RecordType Scenario.Mid) 128 0 in
    let a := mkFieldDecl "a" Scenario.acc1 64 0 in
    let init := mkCXXMethodDecl "__init"
                  [Scenario.globalPtr Scenario.int; Scenario.int; Scenario.int]
                  Scenario.void in
    let arg i T := ImplicitCastExpr T
                     (DeclRefExpr (ParmVarDecl "k" i "_arg_a" T) T NoLoc) in
    Synth.CreateOpenCLKernelBody
      (Scenario.kernelCaller Scenario.nestedAccessor)
      (Synth.CreateOpenCLKernelDeclaration "k" (Builder.ParamDescs B'))
    = Some (CompoundStmt
              (S_pre
               ++ Assignment
               :: [CXXMemberCallExpr
                     (MemberExpr
                        (MemberExpr
                           (MemberExpr
                              (MemberExpr
                                 (DeclRefExpr Clone
                                    (RecordType Scenario.nestedAccessor) NoLoc)
                                 (MemberField w))
                              (MemberField mid))
                           (MemberField a))
                        (MemberMethod init))
                     [arg 2%nat (Scenario.globalPtr Scenario.int);
                      arg 3%nat Scenario.int; arg 4%nat Scenario.int]
                     Scenario.void]
               ++ S_post)
              NoLoc NoLoc).
Proof.
  destruct (wrapper_aggregate_flattening
              (Scenario.kernelCaller Scenario.nestedAccessor)
              Scenario.nestedAccessor
              (CompoundStmt
                 [OtherStmt "CXXOperatorCallExpr"
                    [DeclRefExpr
                       (ParmVarDecl "kernel_caller" 0 "KernelFuncObj"
                          (RecordType Scenario.nestedAccessor))
                       (RecordType Scenario.nestedAccessor) 90]] 89 91)
              "k" []
              (default (Builder.mkState [] [])
                 (exec (Builder.buildArgTys Scenario.nestedAccessor)
                       (Builder.mkState [] [])))
              [mkFieldDecl "x" Scenario.int 0 0] []
              (mkFieldDecl "w" (RecordType Scenario.Outer) 256 0))
    as (_ & HP & _ & S_pre & Inits & S_post & Hbody & Hinits);
    [reflexivity|reflexivity|vm_compute; reflexivity|supported_by_evaluation
    |reflexivity|reflexivity|].
  vm_compute in Hinits. injection Hinits as <-.
  eexists _, S_pre, _, S_post.
  split; [vm_compute; reflexivity|]. split; [exact HP|]. exact Hbody.
Defined.

(** ** Special objects (C4) *)

(** C4 as stated fails when the initialization contract takes no
    parameter: for the kernel object whose only field is such a special
    object the entry point has no parameter, the fields are not walked,
    and the body holds no call of [__init]. *)
Lemma parameterless_special_object_is_not_initialized :
  ∃ B' Clone NewBody,
    getAsCXXRecordDecl Scenario.acc0 ≫= Builder.getInitMethod
    = Some (mkCXXMethodDecl "__init" [] Scenario.void) ∧
    exec (Builder.buildArgTys Scenario.parameterlessSpecial)
         (Builder.mkState [] []) = Some B' ∧
    Builder.ParamDescs B' = [] ∧
    Synth.CreateOpenCLKernelBody
      (Scenario.kernelCaller Scenario.parameterlessSpecial)
      (Synth.CreateOpenCLKernelDeclaration "k" (Builder.ParamDescs B'))
    = Some (CompoundStmt [DeclStmt Clone; NewBody] NoLoc NoLoc).
Proof.
  eexists _, _, _. split; [vm_compute; reflexivity|].
  split; [vm_compute; reflexivity|]. split; vm_compute; reflexivity.
Qed.

(** C4, amended: for a field [F] of a supported kernel object (every
    special object in it has an [__init] that takes at least one
    parameter) that is a special object whose [__init] takes the
    parameter types [T_0 ... T_(N-1)], the signature builder appends
    exactly the [N] slots [T_0 ... T_(N-1)] between the slots of the
    fields before [F] and those of the fields after it, and the body of
    the entry point holds the call [kernel_obj.F.__init(p_0, ...,
    p_(N-1))] whose arguments are the parameters of the entry point made
    from those slots, in the same order. *)
Theorem special_object_flattening
    (Caller : FunctionDecl) (LC : CXXRecordDecl) (FunctionBody : Stmt)
    (Name : string) (Ds : list Diagnostic) (B' : Builder.State)
    (pre post : list FieldDecl) (F : FieldDecl) (InitMethod : CXXMethodDecl) :
  getKernelObjectType Caller = Some LC →
  fn_body Caller = Some FunctionBody →
  exec (Builder.buildArgTys LC) (Builder.mkState [] Ds) = Some B' →
  Forall BodySpec.supported (Flatten.visit_sequence (fields LC)) →
  fields LC = pre ++ F :: post →
  Flatten.classify_buildArgTys (fld_type F) = Flatten.SpecialObject →
  getAsCXXRecordDecl (fld_type F) ≫= Builder.getInitMethod = Some InitMethod →
  let P_pre := flat_map Flatten.raw_slots (Flatten.visit_sequence pre) in
  let P_post := flat_map Flatten.raw_slots (Flatten.visit_sequence post) in
  let Kernel := Synth.CreateOpenCLKernelDeclaration Name (Builder.ParamDescs B') in
  let Clone := VarDecl Name (d_name (rd_decl (rd_info LC))) (RecordType LC) in
  let CloneRef := DeclRefExpr Clone (RecordType LC) NoLoc in
  let Args :=
    imap (λ k T, DeclRefExpr (ParmVarDecl Name (length P_pre + k)
                                ("_arg_" +:+ fld_name F) T) T NoLoc)
         (meth_params InitMethod) in
  (0 < getNumParams InitMethod)%nat ∧
  Builder.ParamDescs B'
  = P_pre ++ (Builder.makeParamDesc F <$> meth_params InitMethod) ++ P_post ∧
  ∃ S_pre S_post,
    Synth.CreateOpenCLKernelBody Caller Kernel
    = Some (CompoundStmt
              (S_pre ++ BodySpec.init_call CloneRef F InitMethod Args :: S_post)
              NoLoc NoLoc).
Proof.
  intros HLC HFB Hbuild Hs EF CF HM P_pre P_post Kernel Clone CloneRef Args.
  destruct (entry_point_at_field Caller LC FunctionBody Name Ds B' pre F post
              HLC HFB Hbuild Hs EF) as (HP & HsF & Hlen & S_post & Hbody).
  fold Kernel Clone CloneRef in Hlen, Hbody.
  unfold Flatten.field_visits in HP, HsF, Hlen, Hbody.
  rewrite CF in HP, HsF, Hlen, Hbody. cbn zeta in HP, HsF, Hlen, Hbody.
  set (oF := Flatten.fieldOffsetInBytes F) in *.
  apply Forall_cons in HsF as [HsF _].
  apply supported_special in HsF as (M & HM' & HN & Hslots).
  rewrite HM in HM'. injection HM' as <-.
  cbn [flat_map] in HP. rewrite Hslots, app_nil_r in HP.
  fold P_pre P_post in HP.
  split; [exact HN|]. split; [exact HP|].
  cbn [BodySpec.body_stmts] in Hbody.
  unfold BodySpec.visit_stmts in Hbody at 1.
  cbn [Flatten.v_class Flatten.v_path Flatten.v_field] in Hbody.
  unfold Flatten.v_type in Hbody. cbn [Flatten.v_field] in Hbody.
  rewrite HM in Hbody.
  assert (BodySpec.ParamDREs (fn_params Kernel)
            (slots (Flatten.visit_sequence pre)) (getNumParams InitMethod)
          = Args) as EArgs.
  { subst Kernel. rewrite HP. apply ParamDREs_of_field. }
  rewrite EArgs in Hbody.
  eexists _, _. exact Hbody.
Qed.

(** The witness of C4: in [{ int x; accessor acc; float y; }] the
    accessor gets the three slots of its [__init] after the slot of [x],
    and the body calls [__init] on it with the parameters 1, 2 and 3 of
    the entry point. *)
Lemma special_object_flattening_witness :
  ∃ B' S_pre S_post,
    exec (Builder.buildArgTys Scenario.scalarsAndAccessor)
         (Builder.mkState [] []) = Some B' ∧
    Builder.ParamDescs B'
    = [Builder.mkParamDesc Scenario.int "_arg_x";
       Builder.mkParamDesc (Scenario.globalPtr Scenario.int) "_arg_acc";
       Builder.mkParamDesc Scenario.int "_arg_acc";
       Builder.mkParamDesc Scenario.int "_arg_acc";
       Builder.mkParamDesc Scenario.float "_arg_y"] ∧
    let Clone := VarDecl "k" "Functor" (RecordType Scenario.scalarsAndAccessor) in
    let acc := mkFieldDecl "acc" Scenario.acc1 32 0 in
    let init := mkCXXMethodDecl "__init"
                  [Scenario.globalPtr Scenario.int; Scenario.int; Scenario.int]
                  Scenario.void in
    let arg i T := ImplicitCastExpr T
                     (DeclRefExpr (ParmVarDecl "k" i "_arg_acc" T) T NoLoc) in
    Synth.CreateOpenCLKernelBody
      (Scenario.kernelCaller Scenario.scalarsAndAccessor)
      (Synth.CreateOpenCLKernelDeclaration "k" (Builder.ParamDescs B'))
    = Some (CompoundStmt
              (S_pre
               ++ CXXMemberCallExpr
                    (MemberExpr
                       (MemberExpr
                          (DeclRefExpr Clone
                             (RecordType Scenario.scalarsAndAccessor) NoLoc)
                          (MemberField acc))
                       (MemberMethod init))
                    [arg 1%nat (Scenario.globalPtr Scenario.int);
                     arg 2%nat Scenario.int; arg 3%nat Scenario.int]
                    Scenario.void
               :: S_post)
              NoLoc NoLoc).
Proof.
  destruct (special_object_flattening
              (Scenario.kernelCaller Scenario.scalarsAndAccessor)
              Scenario.scalarsAndAccessor
              (CompoundStmt
                 [OtherStmt "CXXOperatorCallExpr"
                    [DeclRefExpr
                       (ParmVarDecl "kernel_caller" 0 "KernelFuncObj"
                          (RecordType Scenario.scalarsAndAccessor))
                       (RecordType Scenario.scalarsAndAccessor) 90]] 89 91)
              "k" []
              (default (Builder.mkState [] [])
                 (exec (Builder.buildArgTys Scenario.scalarsAndAccessor)
                       (Builder.mkState [] [])))
              [mkFieldDecl "x" Scenario.int 0 0]
              [mkFieldDecl "y" Scenario.float 288 0]
              (mkFieldDecl "acc" Scenario.acc1 32 0)
              (mkCXXMethodDecl "__init"
                 [Scenario.globalPtr Scenario.int; Scenario.int; Scenario.int]
                 Scenario.void))
    as (_ & HP & S_pre & S_post & Hbody);
    [reflexivity|reflexivity|vm_compute; reflexivity|supported_by_evaluation
    |reflexivity|reflexivity|reflexivity|].
  eexists _, S_pre, S_post.
  split; [vm_compute; reflexivity|]. split; [exact HP|]. exact Hbody.
Defined.

(** * Further properties of the code *)

(** ** Recognising the special classes *)

Section Recognition.
Import Util.

Lemma matchScopes_unfold Scope rest C :
  matchScopes (Scope :: rest) (Some C)
  = if negb (bool_decide (getDeclKind C = Scope.1)) then Some false
    else
      Name ← match C with
             | NamedContext DK_ClassTemplateSpecialization n _
             | NamedContext DK_CXXRecord n _
             | NamedContext DK_Namespace n _ => Some n
             | _ => None
             end;
      if negb (String.eqb Name Scope.2) then Some false
      else matchScopes rest (getParent C).
Proof. reflexivity. Qed.

(** The kinds of declaration context whose name the walk can read. *)
Definition named_kind (DK : DeclKind) : Prop :=
  DK = DK_Namespace ∨ DK = DK_CXXRecord ∨ DK = DK_ClassTemplateSpecialization.

Lemma matchScopes_total RevScopes :
  Forall (λ Scope : DeclContextDesc, named_kind Scope.1) RevScopes →
  ∀ C, is_Some (matchScopes RevScopes (Some C)).
Proof.
  induction 1 as [|[DK Nm] rest HDK _ IH]; intros C; [by eexists|].
  rewrite matchScopes_unfold. simpl in *. case_bool_decide as HK; simpl.
  - destruct C as [|k n p]; simpl in *.
    + subst DK. by destruct HDK as [? | [? | ?]].
    + subst k. destruct HDK as [-> | [-> | ->]]; simpl;
        (destruct (String.eqb n Nm); simpl; [apply IH|by eexists]).
  - by eexists.
Qed.

Lemma matchScopes_nil_true C :
  matchScopes [] (Some C) = Some true ↔ C = TranslationUnitDecl.
Proof. destruct C; simpl; split; congruence. Qed.

(** A scope matches a context of its kind and name, and the walk goes on
    from the parent of that context. *)
Lemma matchScopes_cons_true Scope rest C :
  named_kind Scope.1 →
  matchScopes (Scope :: rest) (Some C) = Some true ↔
  ∃ p, C = NamedContext Scope.1 Scope.2 p ∧ matchScopes rest (Some p) = Some true.
Proof.
  destruct Scope as [DK Nm]. cbn [fst snd]. intros HDK.
  rewrite matchScopes_unfold. cbn [fst snd].
  destruct C as [|k n p]; cbn [getDeclKind].
  { case_bool_decide as HK; cbn [negb].
    - subst DK. by destruct HDK as [? | [? | ?]].
    - split; [discriminate|]. by intros (? & ? & _). }
  case_bool_decide as HK; cbn [negb].
  2:{ split; [discriminate|]. intros (p' & [= -> _ _] & _). done. }
  subst k.
  assert (match DK with
          | DK_ClassTemplateSpecialization | DK_CXXRecord | DK_Namespace => Some n
          | _ => None
          end = Some n) as Hn by (by destruct HDK as [-> | [-> | ->]]).
  destruct DK; try (by destruct HDK as [? | [? | ?]]);
    cbn [mbind option_bind];
    (destruct (String.eqb_spec n Nm) as [-> | Hne]; cbn [negb getParent];
     [split; [intros H; by exists p | by intros (p' & [= <-] & ?)]
     |split; [discriminate | intros (p' & [= ? _] & _); done]]).
Qed.

(** The types a list of three scopes, two namespaces and a class,
    matches. *)
Lemma matchQualifiedTypeName_char Ty DK Nm :
  named_kind DK →
  bool_decide
    (matchQualifiedTypeName Ty
       [(DK_Namespace, "cl"); (DK_Namespace, "sycl"); (DK, Nm)]%string
     = Some true) = true ↔
  ∃ RD, Ty = RecordType RD ∧ rd_kind (rd_info RD) = DK
        ∧ d_name (rd_decl (rd_info RD)) = Nm
        ∧ d_context (rd_decl (rd_info RD))
          = NamedContext DK_Namespace "sycl"
              (NamedContext DK_Namespace "cl" TranslationUnitDecl).
Proof.
  intros HDK. rewrite bool_decide_eq_true.
  unfold matchQualifiedTypeName.
  destruct Ty as [k|n|q T|T|T n|RD];
    try (split; [discriminate|by intros (? & ? & _)]).
  cbn [getAsCXXRecordDecl rev app]. unfold asDeclContext.
  rewrite (matchScopes_cons_true (DK, Nm)) by done.
  setoid_rewrite (matchScopes_cons_true (DK_Namespace, "sycl"%string));
    [|by left].
  setoid_rewrite (matchScopes_cons_true (DK_Namespace, "cl"%string));
    [|by left].
  setoid_rewrite matchScopes_nil_true. cbn [fst snd]. split.
  - intros (p1 & [= HK HN HC] & p2 & -> & p3 & -> & ->). by exists RD.
  - intros (RD' & [= <-] & HK & HN & HC). rewrite HK, HN, HC.
    eexists. split; [done|]. eexists. split; [done|]. by eexists.
Qed.

End Recognition.

(** X2: a run of [matchQualifiedTypeName] always returns, on every type
    and for every list of scopes made of namespaces, classes and class
    template specializations: the walk stops with [false] at the
    translation unit before it could ask for its parent, and meets no
    declaration kind it cannot name. *)
Theorem matchQualifiedTypeName_returns (Ty : QualType)
    (Scopes : list Util.DeclContextDesc) :
  Forall (λ Scope : Util.DeclContextDesc,
            Scope.1 = DK_Namespace ∨ Scope.1 = DK_CXXRecord
            ∨ Scope.1 = DK_ClassTemplateSpecialization) Scopes →
  is_Some (Util.matchQualifiedTypeName Ty Scopes).
Proof.
  intros HS. unfold Util.matchQualifiedTypeName.
  destruct (getAsCXXRecordDecl Ty) as [RD|]; [|by eexists].
  apply matchScopes_total. by apply Forall_rev.
Qed.

(** The scopes of the accessor and of the sampler are such lists. *)
Lemma matchQualifiedTypeName_returns_witness :
  is_Some (Util.matchQualifiedTypeName Scenario.acc1 Util.AccessorScopes)
  ∧ is_Some (Util.matchQualifiedTypeName Scenario.int Util.SamplerScopes).
Proof.
  split.
  - apply (matchQualifiedTypeName_returns Scenario.acc1 Util.AccessorScopes).
    repeat first [apply List.Forall_nil | apply List.Forall_cons]; simpl; auto.
  - apply (matchQualifiedTypeName_returns Scenario.int Util.SamplerScopes).
    repeat first [apply List.Forall_nil | apply List.Forall_cons]; simpl; auto.
Defined.

(** X1: a type is recognised as accessor exactly when it is a class
    template specialization named [accessor] declared directly in the
    namespace [sycl] of the namespace [cl] of the translation unit, and
    as sampler exactly when it is a class (no specialization) named
    [sampler] declared there; no type is both. *)
Theorem special_types_recognised (Ty : QualType) :
  let cl_sycl :=
    NamedContext DK_Namespace "sycl"
      (NamedContext DK_Namespace "cl" TranslationUnitDecl) in
  (Util.isSyclAccessorType Ty = true ↔
     ∃ RD, Ty = RecordType RD
           ∧ rd_kind (rd_info RD) = DK_ClassTemplateSpecialization
           ∧ d_name (rd_decl (rd_info RD)) = "accessor"
           ∧ d_context (rd_decl (rd_info RD)) = cl_sycl) ∧
  (Util.isSyclSamplerType Ty = true ↔
     ∃ RD, Ty = RecordType RD
           ∧ rd_kind (rd_info RD) = DK_CXXRecord
           ∧ d_name (rd_decl (rd_info RD)) = "sampler"
           ∧ d_context (rd_decl (rd_info RD)) = cl_sycl) ∧
  Util.isSyclAccessorType Ty && Util.isSyclSamplerType Ty = false.
Proof.
  intros cl_sycl.
  pose proof (matchQualifiedTypeName_char Ty DK_ClassTemplateSpecialization
                "accessor"%string ltac:(right; right; done)) as HA.
  pose proof (matchQualifiedTypeName_char Ty DK_CXXRecord "sampler"%string
                ltac:(right; left; done)) as HS.
  split; [exact HA|]. split; [exact HS|].
  destruct (Util.isSyclAccessorType Ty) eqn:EA; [|done].
  destruct (Util.isSyclSamplerType Ty) eqn:ES; [|done].
  apply HA in EA as (RD & -> & HK & _). apply HS in ES as (RD' & [= <-] & HK' & _).
  rewrite HK in HK'. discriminate HK'.
Qed.

(** ** The packed [Info] of an accessor *)

Section Packing.

(** A target below 2^11 and a dimension below 2^20 packed into an [int]
    are read back by a mask and a shift. *)
Lemma pack_unpack T D :
  0 ≤ T < 2 ^ 11 → 0 ≤ D < 2 ^ 20 →
  let Info := Ints.to_int (Z.lor T (Z.shiftl D 11)) in
  Ints.to_int Info = Info ∧
  Z.land Info (Z.ones 11) = T ∧ Z.shiftr Info 11 = D.
Proof.
  intros HT HD Info.
  assert (Z.lor T (Z.shiftl D 11) = T + D * 2 ^ 11) as E.
  { rewrite Z.shiftl_mul_pow2 by lia. rewrite <- Z.lxor_lor.
    - symmetry. apply Z.add_nocarry_lxor.
      apply Z.bits_inj'. intros n Hn. rewrite Z.land_spec, Z.bits_0.
      destruct (Z.lt_ge_cases n 11).
      + rewrite (Z.mul_pow2_bits_low D) by lia. apply andb_false_r.
      + rewrite (Z.bits_above_log2 T n); [done|lia|].
        destruct (Z.eq_dec T 0) as [-> | ?]; [simpl; lia|].
        apply Z.log2_lt_pow2; [lia|]. apply Z.lt_le_trans with (2 ^ 11); [lia|].
        apply Z.pow_le_mono_r; lia.
    - apply Z.bits_inj'. intros n Hn. rewrite Z.land_spec, Z.bits_0.
      destruct (Z.lt_ge_cases n 11).
      + rewrite (Z.mul_pow2_bits_low D) by lia. apply andb_false_r.
      + rewrite (Z.bits_above_log2 T n); [done|lia|].
        destruct (Z.eq_dec T 0) as [-> | ?]; [simpl; lia|].
        apply Z.log2_lt_pow2; [lia|]. apply Z.lt_le_trans with (2 ^ 11); [lia|].
        apply Z.pow_le_mono_r; lia. }
  assert (Info = T + D * 2 ^ 11) as EI.
  { subst Info. rewrite E. unfold Ints.to_int.
    rewrite Z.mod_small by lia. lia. }
  split; [subst Info; apply to_int_idemp|]. rewrite EI. split.
  - rewrite Z.land_ones by lia. rewrite Z.mod_add by lia. apply Z.mod_small. lia.
  - rewrite Z.shiftr_div_pow2 by lia. rewrite Z.div_add by lia.
    rewrite Z.div_small by lia. lia.
Qed.

End Packing.

(** X3: the [Info] that [populateHeaderForAccessor] records for an
    accessor whose target is one of the enumerated targets and whose
    dimension is below 2^20 holds both losslessly: its low eleven bits
    are the target and the bits above them the dimension. *)
Theorem accessor_Info_holds_target_and_dimension
    (AccTy : CXXRecordDecl) (t : Target.target) (Dims Offset : Z)
    (H H' : IntHeader.SYCLIntegrationHeader) :
  IntHeader.getIntegralArg AccTy 1 = Some Dims →
  IntHeader.getIntegralArg AccTy 3 = Some (Target.value t) →
  0 ≤ Dims < 2 ^ 20 →
  exec (IntHeader.populateHeaderForAccessor (RecordType AccTy) Offset) H
  = Some H' →
  ∃ K PD,
    last H = Some K ∧
    H' = removelast H
         ++ [IntHeader.mkKernelDesc (IntHeader.Name K) (IntHeader.NameType K)
               (IntHeader.Params K ++ [PD])] ∧
    IntHeader.Kind PD = IntHeader.kind_accessor ∧
    Z.land (IntHeader.Info PD) (Z.ones 11) = Target.value t ∧
    Z.shiftr (IntHeader.Info PD) 11 = Dims.
Proof.
  intros HD HT HDims Hrun. apply exec_Some in Hrun as [[] Hrun].
  unfold IntHeader.populateHeaderForAccessor in Hrun.
  cbn [getAsCXXRecordDecl] in Hrun.
  destruct (negb _); [done|].
  unfold IntHeader.getAccessTarget in Hrun. rewrite HD, HT in Hrun.
  cbn [fmap option_fmap option_map] in Hrun.
  unfold IntHeader.addParamDesc in Hrun.
  destruct (last H) as [K|] eqn:HK; [|done]. injection Hrun as <-.
  assert (0 ≤ Target.value t < 2 ^ 11) as Ht by (destruct t; simpl; lia).
  assert (Ints.to_unsigned (Target.value t) = Target.value t) as ->.
  { unfold Ints.to_unsigned. apply Z.mod_small. lia. }
  assert (Ints.to_int Dims = Dims) as ->.
  { unfold Ints.to_int. rewrite Z.mod_small by lia. lia. }
  destruct (pack_unpack (Target.value t) Dims Ht HDims) as (E1 & E2 & E3).
  eexists K, _. split; [done|]. split; [reflexivity|]. cbn [IntHeader.Kind
    IntHeader.Info]. rewrite E1. by split_and!.
Qed.

(** The usual accessor: one dimension, global buffer; [Info] is 4062. *)
Lemma accessor_Info_holds_target_and_dimension_witness :
  ∃ PD,
    exec (IntHeader.populateHeaderForAccessor Scenario.acc1 8)
         [IntHeader.mkKernelDesc "k" Scenario.void []]
    = Some [IntHeader.mkKernelDesc "k" Scenario.void [PD]] ∧
    IntHeader.Info PD = 4062 ∧
    Z.land (IntHeader.Info PD) (Z.ones 11) = 2014 ∧
    Z.shiftr (IntHeader.Info PD) 11 = 1.
Proof.
  destruct (accessor_Info_holds_target_and_dimension
              (default (Scenario.kernelObject [])
                       (getAsCXXRecordDecl Scenario.acc1))
              Target.global_buffer 1 8
              [IntHeader.mkKernelDesc "k" Scenario.void []]
              [IntHeader.mkKernelDesc "k" Scenario.void
                 [IntHeader.mkKernelParamDesc IntHeader.kind_accessor 4062 8]])
    as (K & PD & HK & HH & _ & H1 & H2);
    [reflexivity|reflexivity|lia|vm_compute; reflexivity|].
  injection HK as <-. simpl in HH. injection HH as <-.
  eexists. split; [vm_compute; reflexivity|]. split; [reflexivity|]. by split.
Defined.

(** ** The kernel set and the call graph *)

Section Reachability.
Import Marker CallGraph.
Variable SYCLCG : gmap string (list string).

Abbreviation calls := (CallGraph.calls SYCLCG).
Abbreviation reachable := (CallGraph.reachable SYCLCG).
Abbreviation on_cycle := (CallGraph.on_cycle SYCLCG).

#[local] Existing Instance grows_refl.
#[local] Existing Instance grows_trans.

(** What a walk from [C] leaves: [C] is in the kernel set; a function it
    added is called from [C], directly or not, and all it calls is in the
    kernel set too; a function it marked recursive calls itself. *)
Record walked (C : string) (s s' : State) : Prop := mkWalked {
  walked_grows : grows s s';
  walked_root : C ∈ KernelSet s';
  walked_new : ∀ x, x ∈ KernelSet s' → x ∉ KernelSet s →
               reachable C x ∧ ∀ y, calls x y → y ∈ KernelSet s';
  walked_rec : ∀ x, x ∈ RecursiveSet s' → x ∈ RecursiveSet s ∨ on_cycle x
}.

(** The same for the loop over the callees [N] of [C]. *)
Record looped (C : string) (N : list string) (s s' : State) : Prop := mkLooped {
  looped_grows : grows s s';
  looped_callees : ∀ y, y ∈ N → y ∈ KernelSet s';
  looped_new : ∀ x, x ∈ KernelSet s' → x ∉ KernelSet s →
               reachable C x ∧ ∀ y, calls x y → y ∈ KernelSet s';
  looped_rec : ∀ x, x ∈ RecursiveSet s' → x ∈ RecursiveSet s ∨ on_cycle x
}.

Lemma CollectKernelSet_callees_looped
    (recurse : string → gset string → SE State unit) C :
  (∀ Callee VS s s',
     recurse Callee VS s = Some (tt, s') →
     (∀ v, v ∈ VS → v ∈ KernelSet s ∨ v = Callee) →
     (∀ v, v ∈ VS → reachable v Callee) →
     walked Callee s s') →
  ∀ N VS s s',
    CollectKernelSet_callees recurse C N VS s = Some (tt, s') →
    (∀ y, y ∈ N → calls C y) →
    (∀ v, v ∈ VS → v ∈ KernelSet s) →
    (∀ v, v ∈ VS → reachable v C) →
    looped C N s s'.
Proof.
  intros Hrec. induction N as [|Callee N IH]; intros VS s s' Hrun HN HVS HR.
  { injection Hrun as <-. split; [done|by intros ? ?%elem_of_nil|done|auto]. }
  cbn [CollectKernelSet_callees] in Hrun.
  assert (calls C Callee) as HCc by (apply HN; left).
  case_bool_decide as Hin.
  - apply SE_bind_Some in Hrun as ([] & s2 & [= <-] & Hrun).
    apply SE_bind_Some in Hrun as ([] & s3 & [= <-] & Hrun).
    apply IH in Hrun as [G Hc Hn Hr]; [|by intros; apply HN; right|done..].
    split.
    + destruct G as [G1 G2 G3 G4]. by split.
    + intros y [-> | Hy]%elem_of_cons; [|by apply Hc].
      destruct G as [G1 _ _ _]. apply G1. simpl. by apply HVS.
    + exact Hn.
    + intros x Hx. destruct (Hr x Hx) as [Hx' | ?]; [|by right].
      simpl in Hx'. apply elem_of_union in Hx' as [->%elem_of_singleton | Hx'].
      { right. eapply tc_rtc_r; [by apply tc_once|]. by apply HR. }
      apply elem_of_union in Hx' as [->%elem_of_singleton | Hx']; [|by left].
      right. eapply tc_rtc_l; [by apply HR|]. by apply tc_once.
  - apply SE_bind_Some in Hrun as ([] & s2 & H1 & Hrun).
    apply Hrec in H1 as [G1 Hroot Hn1 Hr1].
    2:{ intros v [->%elem_of_singleton | Hv]%elem_of_union; [by right|].
        left. by apply HVS. }
    2:{ intros v [->%elem_of_singleton | Hv]%elem_of_union; [done|].
        eapply rtc_r; [by apply HR|done]. }
    apply IH in Hrun as [G2 Hc2 Hn2 Hr2]; [|by intros; apply HN; right|..].
    2:{ intros v Hv. destruct G1 as [G1 _ _ _]. apply G1. apply HVS. set_solver. }
    2:{ intros v Hv. apply HR. set_solver. }
    split.
    + by etrans.
    + intros y [-> | Hy]%elem_of_cons; [|by apply Hc2].
      destruct G2 as [G2 _ _ _]. by apply G2.
    + intros x Hx Hnx. destruct (decide (x ∈ KernelSet s2)) as [Hx2 | Hx2].
      * destruct (Hn1 x Hx2 Hnx) as [Hreach Hcl]. split.
        -- eapply rtc_l; [exact HCc|exact Hreach].
        -- intros y Hy. destruct G2 as [G2 _ _ _]. apply G2. by apply Hcl.
      * by apply Hn2.
    + intros x Hx. destruct (Hr2 x Hx) as [Hx' | ?]; [|by right]. by apply Hr1.
Qed.

Lemma CollectKernelSet_walked fuel FD :
  ∀ C VS s s',
    CollectKernelSet SYCLCG fuel C FD VS s = Some (tt, s') →
    (∀ v, v ∈ VS → v ∈ KernelSet s ∨ v = C) →
    (∀ v, v ∈ VS → reachable v C) →
    walked C s s'.
Proof.
  induction fuel as [|fuel IH]; intros C VS s s' Hrun HVS HR; [done|].
  cbn [CollectKernelSet] in Hrun.
  apply SE_bind_Some in Hrun as (fresh & s1 & H1 & Hrun).
  unfold KernelSet_insert in H1. case_bool_decide as Hin.
  { injection H1 as <- <-. injection Hrun as <-.
    split; [done|done|by intros|auto]. }
  injection H1 as <- <-. cbn [negb] in Hrun.
  set (s1 := mkState (Decls s) (SyclKernels s) (Diags s)
                     (KernelSet s ++ [C]) (RecursiveSet s)) in *.
  assert (grows s s1) as G1 by (split; [simpl; set_solver|done..]).
  destruct (SYCLCG !! C) as [N|] eqn:HN.
  - eapply CollectKernelSet_callees_looped in Hrun as [G2 Hc Hn Hr].
    + split.
      * by etrans.
      * destruct G2 as [G2 _ _ _]. apply G2. simpl. set_solver.
      * intros x Hx Hnx. destruct (decide (x = C)) as [-> | Hne].
        -- split; [done|]. intros y (N' & HN' & Hy). rewrite HN in HN'.
           injection HN' as <-. by apply Hc.
        -- apply Hn; [done|]. simpl. set_solver.
      * exact Hr.
    + intros Callee VS' s2 s3. apply IH.
    + intros y Hy. by exists N.
    + intros v Hv. simpl. destruct (HVS v Hv) as [? | ->]; set_solver.
    + done.
  - injection Hrun as <-. split; [done|simpl; set_solver| |auto].
    intros x Hx Hnx. simpl in Hx.
    apply elem_of_app in Hx as [? | ->%list_elem_of_singleton]; [done|].
    split; [done|]. intros y (N & HN' & _). by rewrite HN in HN'.
Qed.

End Reachability.

(** X5: started on a kernel set that holds the callees of its members
    (the empty set, or what the walks from other kernels left), the walk
    from a kernel entry point ends and leaves the kernel set extended by
    exactly the functions the entry point reaches in the call graph,
    itself included; the result again holds the callees of its
    members. *)
Theorem CollectKernelSet_collects_what_the_kernel_reaches
    (SYCLCG : gmap string (list string)) (s : Marker.State)
    (SYCLKernel : string) :
  CallGraph.closed SYCLCG (Marker.KernelSet s) →
  ∃ s',
    (∀ fuel, (size (dom SYCLCG) + 1 ≤ fuel)%nat →
       Marker.CollectKernelSet SYCLCG fuel SYCLKernel SYCLKernel ∅ s
       = Some (tt, s')) ∧
    (∀ x, x ∈ Marker.KernelSet s' ↔
          x ∈ Marker.KernelSet s ∨ CallGraph.reachable SYCLCG SYCLKernel x) ∧
    CallGraph.closed SYCLCG (Marker.KernelSet s').
Proof.
  intros Hclosed.
  destruct (CollectKernelSet_total SYCLCG (size (dom SYCLCG)) s SYCLKernel
              SYCLKernel ∅) as (s' & _ & Hrun).
  { unfold pending. apply subseteq_size. set_solver. }
  exists s'. split; [exact Hrun|].
  destruct (CollectKernelSet_walked SYCLCG _ SYCLKernel SYCLKernel ∅ s s'
              (Hrun _ (le_n _))) as [[G _ _ _] Hroot Hnew _];
    [set_solver..|].
  assert (CallGraph.closed SYCLCG (Marker.KernelSet s')) as Hclosed'.
  { intros x y Hx Hxy. destruct (decide (x ∈ Marker.KernelSet s)) as [Hin | Hin].
    - apply G. by eapply Hclosed.
    - by apply (Hnew x Hx Hin). }
  split; [|exact Hclosed']. intros x. split.
  - intros Hx. destruct (decide (x ∈ Marker.KernelSet s)) as [Hin | Hin];
      [by left|]. right. by apply (Hnew x Hx Hin).
  - intros [Hx | Hx]; [by apply G|].
    revert x Hx. apply (rtc_ind_r (λ z, z ∈ Marker.KernelSet s')); [done|].
    intros y z _ Hyz IH. by eapply Hclosed'.
Qed.

(** On the chain A -> B -> C -> A walked from A, C is collected. *)
Lemma CollectKernelSet_collects_what_the_kernel_reaches_witness :
  ∃ s',
    Marker.CollectKernelSet Scenario.cycleCG 4 "A" "A" ∅
      (Scenario.initial Scenario.cycleDecls ["A"%string]) = Some (tt, s') ∧
    "C"%string ∈ Marker.KernelSet s'.
Proof.
  destruct (CollectKernelSet_collects_what_the_kernel_reaches
              Scenario.cycleCG
              (Scenario.initial Scenario.cycleDecls ["A"%string]) "A")
    as (s' & Hrun & Hiff & _).
  - intros x y Hx. by apply elem_of_nil in Hx.
  - exists s'. split; [apply Hrun; vm_compute; lia|].
    apply Hiff. right.
    apply (rtc_l _ _ "B"%string);
      [exists ["B"%string]; split; [reflexivity|by left]|].
    apply (rtc_l _ _ "C"%string);
      [exists ["C"%string]; split; [reflexivity|by left]|].
    done.
Defined.

(** X6: the walk from a kernel entry point marks as recursive only
    functions that do call themselves, directly or through others; it
    reports nothing and changes no declaration. *)
Theorem CollectKernelSet_marks_only_recursive_functions
    (SYCLCG : gmap string (list string)) (s : Marker.State)
    (SYCLKernel : string) :
  ∃ s',
    (∀ fuel, (size (dom SYCLCG) + 1 ≤ fuel)%nat →
       Marker.CollectKernelSet SYCLCG fuel SYCLKernel SYCLKernel ∅ s
       = Some (tt, s')) ∧
    (∀ x, x ∈ Marker.RecursiveSet s' →
          x ∈ Marker.RecursiveSet s ∨ CallGraph.on_cycle SYCLCG x) ∧
    Marker.Diags s' = Marker.Diags s ∧
    Marker.Decls s' = Marker.Decls s ∧
    Marker.SyclKernels s' = Marker.SyclKernels s.
Proof.
  destruct (CollectKernelSet_total SYCLCG (size (dom SYCLCG)) s SYCLKernel
              SYCLKernel ∅) as (s' & _ & Hrun).
  { unfold pending. apply subseteq_size. set_solver. }
  exists s'. split; [exact Hrun|].
  destruct (CollectKernelSet_walked SYCLCG _ SYCLKernel SYCLKernel ∅ s s'
              (Hrun _ (le_n _))) as [[_ G2 G3 G4] _ _ Hrec];
    [set_solver..|].
  by split_and!.
Qed.

(** ** The collected attributes and the call graph *)

Section CollectedAttributes.
Import Marker CallGraph.
Variable SYCLCG : gmap string (list string).

Abbreviation calls := (CallGraph.calls SYCLCG).
Abbreviation reachable := (CallGraph.reachable SYCLCG).

(** The attribute [getAttr<IntelReqdSubGroupSizeAttr>] finds on [F]. *)
Definition sub_group_size_of (Ds : gmap string FD) (F : string) : option Attr :=
  getAttr AK_IntelReqdSubGroupSize (FD_attrs (lookupFD Ds F)).

Lemma pushed_callees (Visited : gset string) N :
  ∀ WorkList x,
    x ∈ foldl (λ WorkList Callee,
                 if bool_decide (Callee ∉ Visited)
                 then Callee :: WorkList else WorkList) WorkList N
    ↔ x ∈ WorkList ∨ (x ∈ N ∧ x ∉ Visited).
Proof.
  induction N as [|Callee N IH]; intros WorkList x; simpl.
  { split; [by left|]. intros [? | [?%elem_of_nil _]]; done. }
  rewrite IH. case_bool_decide as HC.
  - rewrite !elem_of_cons. naive_solver.
  - rewrite elem_of_cons. naive_solver.
Qed.

Lemma Attrs_insert_elem A0 Attrs A :
  A ∈ Attrs_insert A0 Attrs ↔ A ∈ Attrs ∨ A = A0.
Proof.
  unfold Attrs_insert. case_bool_decide.
  - naive_solver.
  - rewrite elem_of_app, list_elem_of_singleton. naive_solver.
Qed.

(** What a run of the work list loop visits: the functions of the work
    list and what they reach, unless visited before. *)
Lemma CollectPossibleKernelAttributes_loop_visits fuel Ds :
  ∀ Visited WorkList Attrs R,
    CollectPossibleKernelAttributes_loop SYCLCG fuel Ds Visited WorkList Attrs
    = Some R →
    ∃ V : gset string,
      Visited ⊆ V ∧
      (∀ x, x ∈ WorkList → x ∈ V) ∧
      (∀ x, x ∈ V → x ∉ Visited → ∀ y, calls x y → y ∈ V) ∧
      (∀ x, x ∈ V → x ∉ Visited → ∃ w, w ∈ WorkList ∧ reachable w x) ∧
      (∀ A, A ∈ R ↔
            A ∈ Attrs
            ∨ ∃ F, F ∈ V ∧ (F ∉ Visited) ∧ sub_group_size_of Ds F = Some A).
Proof.
  induction fuel as [|fuel IH]; intros Visited [|FD WorkList] Attrs R Hrun;
    simpl in Hrun; try discriminate Hrun.
  { injection Hrun as <-. exists Visited. split_and!; [done|by intros ? ?%elem_of_nil
      |done|done|]. intros A. naive_solver. }
  { injection Hrun as <-. exists Visited. split_and!; [done|by intros ? ?%elem_of_nil
      |done|done|]. intros A. naive_solver. }
  case_bool_decide as Hin.
  { apply IH in Hrun as (V & HV & HWL & Hcl & Hsound & HR).
    exists V. split_and!; [done| |done| |done].
    - intros x [-> | Hx]%elem_of_cons; [by apply HV|by apply HWL].
    - intros x Hx Hnx. destruct (Hsound x Hx Hnx) as (w & Hw & Hwx).
      exists w. split; [by right|done]. }
  set (Visited1 := {[FD]} ∪ Visited) in *.
  set (Attrs1 := match getAttr AK_IntelReqdSubGroupSize
                         (FD_attrs (lookupFD Ds FD)) with
                 | Some A => Attrs_insert A Attrs
                 | None => Attrs
                 end) in *.
  assert (∀ A, A ∈ Attrs1 ↔ A ∈ Attrs ∨ sub_group_size_of Ds FD = Some A) as HA1.
  { intros A. subst Attrs1. unfold sub_group_size_of.
    destruct (getAttr _ _) as [A0|]; [|naive_solver].
    rewrite Attrs_insert_elem. naive_solver. }
  assert (∃ WorkList1,
            CollectPossibleKernelAttributes_loop SYCLCG fuel Ds Visited1
              WorkList1 Attrs1 = Some R ∧
            ∀ x, x ∈ WorkList1 ↔ x ∈ WorkList ∨ (calls FD x ∧ x ∉ Visited1))
    as (WorkList1 & Hrun1 & HWL1).
  { destruct (SYCLCG !! FD) as [N|] eqn:HN.
    - eexists. split; [exact Hrun|]. intros x. rewrite pushed_callees.
      unfold CallGraph.calls. rewrite HN. naive_solver.
    - exists WorkList. split; [exact Hrun|]. intros x.
      unfold CallGraph.calls. rewrite HN. naive_solver. }
  clear Hrun. apply IH in Hrun1 as (V & HV & HWL & Hcl & Hsound & HR).
  assert (FD ∈ V) as HFD by (apply HV; set_solver).
  exists V. split_and!.
  - set_solver.
  - intros x [-> | Hx]%elem_of_cons; [done|]. apply HWL, HWL1. by left.
  - intros x Hx Hnx y Hxy. destruct (decide (x = FD)) as [-> | Hne].
    + destruct (decide (y ∈ Visited1)) as [Hy | Hy]; [by apply HV|].
      apply HWL, HWL1. by right.
    + eapply Hcl; [done| |done]. set_solver.
  - intros x Hx Hnx. destruct (decide (x = FD)) as [-> | Hne].
    { exists FD. split; [by left|done]. }
    destruct (Hsound x Hx ltac:(set_solver)) as (w & Hw & Hwx).
    apply HWL1 in Hw as [Hw | [Hw _]].
    + exists w. split; [by right|done].
    + exists FD. split; [by left|]. by eapply rtc_l.
  - intros A. rewrite HR, HA1. split.
    + intros [[? | HF] | (F & HF & HnF & HA)]; [by left| |].
      * right. exists FD. by split_and!.
      * right. exists F. split_and!; [done|set_solver|done].
    + intros [? | (F & HF & HnF & HA)]; [by left; left|].
      destruct (decide (F = FD)) as [-> | Hne]; [by left; right|].
      right. exists F. split_and!; [done|set_solver|done].
Qed.

End CollectedAttributes.

(** X7: the walk over the call graph from a kernel entry point ends, and
    collects exactly the sub-group-size attributes found on the functions
    the entry point reaches, itself included, besides those the set held
    before. *)
Theorem CollectPossibleKernelAttributes_collects_what_is_reachable
    (SYCLCG : gmap string (list string)) (Ds : gmap string Marker.FD)
    (SYCLKernel : string) (Attrs : list Attr) :
  ∃ fuel0 R,
    (∀ fuel, (fuel0 ≤ fuel)%nat →
       Marker.CollectPossibleKernelAttributes SYCLCG fuel Ds SYCLKernel Attrs
       = Some R) ∧
    ∀ A, A ∈ R ↔
         A ∈ Attrs
         ∨ ∃ F, CallGraph.reachable SYCLCG SYCLKernel F
                ∧ getAttr AK_IntelReqdSubGroupSize
                    (Marker.FD_attrs (Marker.lookupFD Ds F)) = Some A.
Proof.
  destruct (CollectPossibleKernelAttributes_loop_total SYCLCG Ds
              (size (dom SYCLCG ∖ (∅ : gset string))) ∅ [SYCLKernel] Attrs)
    as (fuel0 & R & Hrun); [done|].
  exists fuel0, R. split; [exact Hrun|].
  destruct (CollectPossibleKernelAttributes_loop_visits SYCLCG fuel0 Ds
              ∅ [SYCLKernel] Attrs R (Hrun fuel0 (le_n _)))
    as (V & _ & HK & Hcl & Hsound & HR).
  assert (∀ F, F ∈ V ↔ CallGraph.reachable SYCLCG SYCLKernel F) as HV.
  { intros F. split.
    - intros HF. destruct (Hsound F HF ltac:(set_solver)) as (w & Hw & Hwx).
      by apply list_elem_of_singleton in Hw as ->.
    - revert F. apply (rtc_ind_r (λ z, z ∈ V)); [apply HK; by left|].
      intros y z _ Hyz Hy. eapply Hcl; [done|set_solver|done]. }
  intros A. rewrite HR. split.
  - intros [? | (F & HF & _ & HA)]; [by left|]. right. exists F.
    split; [by apply HV|done].
  - intros [? | (F & HF & HA)]; [by left|]. right. exists F.
    split_and!; [by apply HV|set_solver|done].
Qed.

(** ** Propagating any number of attributes *)

Section PropagateAll.
Import Marker.

(** Propagating an attribute to a kernel that carries one: the kernel
    keeps its own, and a differing size is reported. *)
Lemma propagateAttr_existing SYCLKernel Existing A s :
  getAttr AK_IntelReqdSubGroupSize
    (FD_attrs (lookupFD (Decls s) SYCLKernel)) = Some Existing →
  getKind A = AK_IntelReqdSubGroupSize →
  ∃ s',
    propagateAttr SYCLKernel A s = Some (tt, s') ∧
    FD_attrs (lookupFD (Decls s') SYCLKernel)
    = FD_attrs (lookupFD (Decls s) SYCLKernel) ∧
    FD_location (lookupFD (Decls s') SYCLKernel)
    = FD_location (lookupFD (Decls s) SYCLKernel) ∧
    Diags s'
    = Diags s ++ conflict (FD_location (lookupFD (Decls s) SYCLKernel))
                          Existing A ∧
    FD_isInvalidDecl (lookupFD (Decls s') SYCLKernel)
    = FD_isInvalidDecl (lookupFD (Decls s) SYCLKernel)
      || negb (bool_decide (getSubGroupSize Existing = getSubGroupSize A)).
Proof.
  intros HE HA. destruct A as [| | | | |a v l| |]; try discriminate HA.
  pose proof (getAttr_Some _ _ _ HE) as [_ HK].
  destruct Existing as [| | | | |a0 v0 l0| |]; try discriminate HK.
  unfold propagateAttr, getDecl, gets, mbind, SE_bind. rewrite HE.
  unfold conflict. cbn [getSubGroupSize getLocation].
  case_bool_decide as Hv; cbn [negb].
  - eexists. split; [reflexivity|]. rewrite app_nil_r, orb_false_r. done.
  - unfold Diag_, update_decl, modify. cbn.
    eexists. split; [reflexivity|]. cbn. rewrite lookupFD_insert. cbn.
    rewrite orb_true_r, <- !app_assoc. done.
Qed.

Lemma propagateAttrs_existing SYCLKernel Existing Attrs :
  Forall (λ A, getKind A = AK_IntelReqdSubGroupSize) Attrs →
  ∀ s,
    getAttr AK_IntelReqdSubGroupSize
      (FD_attrs (lookupFD (Decls s) SYCLKernel)) = Some Existing →
    ∃ s',
      forM_ (propagateAttr SYCLKernel) Attrs s = Some (tt, s') ∧
      FD_attrs (lookupFD (Decls s') SYCLKernel)
      = FD_attrs (lookupFD (Decls s) SYCLKernel) ∧
      Diags s'
      = Diags s
        ++ flat_map (conflict (FD_location (lookupFD (Decls s) SYCLKernel))
                              Existing) Attrs ∧
      FD_isInvalidDecl (lookupFD (Decls s') SYCLKernel)
      = FD_isInvalidDecl (lookupFD (Decls s) SYCLKernel)
        || existsb (λ A, negb (bool_decide (getSubGroupSize Existing
                                            = getSubGroupSize A))) Attrs.
Proof.
  induction 1 as [|A Attrs HA _ IH]; intros s HE.
  { exists s. split; [done|]. cbn. by rewrite app_nil_r, orb_false_r. }
  destruct (propagateAttr_existing SYCLKernel Existing A s HE HA)
    as (s1 & H1 & Ha1 & Hl1 & Hd1 & Hi1).
  destruct (IH s1) as (s' & H2 & Ha2 & Hd2 & Hi2); [by rewrite Ha1|].
  exists s'. split_and!.
  - rewrite forM__cons. by erewrite SE_bind_eq.
  - by rewrite Ha2.
  - rewrite Hd2, Hd1, Hl1. cbn [flat_map]. by rewrite app_assoc.
  - rewrite Hi2, Hi1. cbn [existsb]. by rewrite orb_assoc.
Qed.

End PropagateAll.

(** X8: however many sub-group-size attributes are propagated to a
    kernel, each is compared with one and the same attribute, the one
    the kernel carried or else the first propagated, which the kernel
    then carries: every attribute of another size is reported once, with
    a note at each of the two, and the kernel is marked invalid exactly
    when there is one (or it was invalid before). *)
Theorem sub_group_sizes_are_compared_with_the_first
    (SYCLKernel : string) (Attrs : list Attr) (Existing : Attr)
    (s : Marker.State) :
  let K := Marker.lookupFD (Marker.Decls s) SYCLKernel in
  Forall (λ A, getKind A = AK_IntelReqdSubGroupSize) Attrs →
  head (option_list (getAttr AK_IntelReqdSubGroupSize (Marker.FD_attrs K))
        ++ Attrs) = Some Existing →
  ∃ s',
    forM_ (Marker.propagateAttr SYCLKernel) Attrs s = Some (tt, s') ∧
    getAttr AK_IntelReqdSubGroupSize
      (Marker.FD_attrs (Marker.lookupFD (Marker.Decls s') SYCLKernel))
    = Some Existing ∧
    Marker.Diags s'
    = Marker.Diags s
      ++ flat_map (conflict (Marker.FD_location K) Existing) Attrs ∧
    Marker.FD_isInvalidDecl (Marker.lookupFD (Marker.Decls s') SYCLKernel)
    = Marker.FD_isInvalidDecl K
      || existsb (λ A, negb (bool_decide (getSubGroupSize Existing
                                          = getSubGroupSize A))) Attrs.
Proof.
  intros K HAs HE.
  destruct (getAttr AK_IntelReqdSubGroupSize (Marker.FD_attrs K)) as [E|] eqn:HK.
  - injection HE as ->.
    destruct (propagateAttrs_existing SYCLKernel Existing Attrs HAs s HK)
      as (s' & Hrun & Ha & Hd & Hi).
    exists s'. split_and!; [done| |done..]. by rewrite Ha.
  - destruct Attrs as [|A Attrs]; [discriminate HE|]. injection HE as ->.
    apply Forall_cons in HAs as [HA HAs].
    destruct Existing as [| | | | |a v l| |]; try discriminate HA.
    set (E := IntelReqdSubGroupSizeAttr a v l) in *.
    set (s1 := Marker.mkState
                 (<[SYCLKernel := Marker.addAttr E K]> (Marker.Decls s))
                 (Marker.SyclKernels s) (Marker.Diags s)
                 (Marker.KernelSet s) (Marker.RecursiveSet s)).
    assert (Marker.propagateAttr SYCLKernel E s = Some (tt, s1)) as H1.
    { unfold Marker.propagateAttr, Marker.getDecl, gets, mbind, SE_bind. cbn.
      fold K. by rewrite HK. }
    assert (getAttr AK_IntelReqdSubGroupSize
              (Marker.FD_attrs (Marker.lookupFD (Marker.Decls s1) SYCLKernel))
            = Some E) as HE1.
    { cbn. rewrite lookupFD_insert. cbn. by apply getAttr_app_None. }
    destruct (propagateAttrs_existing SYCLKernel E Attrs HAs s1 HE1)
      as (s' & Hrun & Ha & Hd & Hi).
    exists s'. split_and!.
    + rewrite forM__cons. by erewrite SE_bind_eq.
    + by rewrite Ha.
    + rewrite Hd. cbn [flat_map]. unfold conflict at 2.
      rewrite bool_decide_true by done. cbn. by rewrite lookupFD_insert.
    + rewrite Hi. cbn [existsb]. rewrite bool_decide_true by done. cbn.
      by rewrite lookupFD_insert.
Qed.

(** Sizes 16, 32, 16 and 8 reach a kernel that carries no attribute: the
    second and the fourth are reported against the first. *)
Lemma sub_group_sizes_are_compared_with_the_first_witness :
  ∃ s',
    forM_ (Marker.propagateAttr "K")
      [IntelReqdSubGroupSizeAttr 1 16 11; IntelReqdSubGroupSizeAttr 2 32 12;
       IntelReqdSubGroupSizeAttr 3 16 13; IntelReqdSubGroupSizeAttr 4 8 14]
      (Scenario.initial (Scenario.twoCalleesDecls 16 32) ["K"%string])
    = Some (tt, s') ∧
    Marker.Diags s'
    = [Diag 1 err_conflicting_sycl_kernel_attributes;
       Diag 11 note_conflicting_attribute; Diag 12 note_conflicting_attribute;
       Diag 1 err_conflicting_sycl_kernel_attributes;
       Diag 11 note_conflicting_attribute; Diag 14 note_conflicting_attribute] ∧
    Marker.FD_isInvalidDecl (Marker.lookupFD (Marker.Decls s') "K") = true.
Proof.
  destruct (sub_group_sizes_are_compared_with_the_first "K"
              [IntelReqdSubGroupSizeAttr 1 16 11; IntelReqdSubGroupSizeAttr 2 32 12;
               IntelReqdSubGroupSizeAttr 3 16 13; IntelReqdSubGroupSizeAttr 4 8 14]
              (IntelReqdSubGroupSizeAttr 1 16 11)
              (Scenario.initial (Scenario.twoCalleesDecls 16 32) ["K"%string]))
    as (s' & Hrun & _ & Hd & Hi).
  - repeat first [apply List.Forall_nil | apply List.Forall_cons]; reflexivity.
  - vm_compute. reflexivity.
  - exists s'. split; [exact Hrun|]. split; [exact Hd|exact Hi].
Defined.

(** ** Forward declarations are printed once *)

Section PrintedOnce.
Import Emit.

(** An action that only prints forward declarations not printed yet:
    once it has run, running it again prints nothing more, whatever was
    printed in between. *)
Definition settles (m : SE State unit) : Prop :=
  ∀ s s', m s = Some (tt, s') →
    Printed s ⊆ Printed s' ∧
    ∀ s2, Printed s' ⊆ Printed s2 → m s2 = Some (tt, s2).

Lemma settles_ret : settles (mret tt).
Proof. intros s s' [= <-]. split; [done|]. by intros. Qed.

Lemma settles_unreachable : settles unreachable.
Proof. by intros s s' ?. Qed.

Lemma settles_bind m1 m2 : settles m1 → settles m2 → settles (m1 ;; m2).
Proof.
  intros H1 H2 s s' Hrun.
  apply SE_bind_Some in Hrun as ([] & s1 & R1 & R2).
  destruct (H1 _ _ R1) as [M1 S1], (H2 _ _ R2) as [M2 S2]. split.
  - set_solver.
  - intros s2 Hs2. erewrite SE_bind_eq; [|apply S1; set_solver]. by apply S2.
Qed.

Lemma settles_forM_ {A} (f : A → SE State unit) l :
  Forall (λ x, settles (f x)) l → settles (forM_ f l).
Proof.
  induction 1 as [|x l Hx _ IH]; [apply settles_ret|].
  by apply settles_bind.
Qed.

Lemma emitFwdDecl_Printed D s s' :
  emitFwdDecl D s = Some (tt, s') → Printed s' = Printed s.
Proof.
  unfold emitFwdDecl. intros Hrun.
  apply SE_bind_Some in Hrun as ([] & s1 & H1 & H2).
  assert (Printed s1 = Printed s) as <-
    by (destruct (_ && _); by injection H1 as <-).
  case_bool_decide; by injection H2 as <-.
Qed.

Lemma settles_declare D :
  settles (fresh ← Printed_insert D;
           if fresh : bool then emitFwdDecl D else mret tt).
Proof.
  intros s s' Hrun. apply SE_bind_Some in Hrun as (fresh & s1 & [= <- <-] & H2).
  assert (Printed s' = {[d_addr D]} ∪ Printed s) as HP.
  { case_bool_decide.
    - by apply emitFwdDecl_Printed in H2.
    - by injection H2 as <-. }
  split; [set_solver|]. intros [O P Ds] Hs2. cbn in *.
  unfold mbind, SE_bind, Printed_insert. cbn.
  assert (d_addr D ∈ P) as HD by (apply Hs2; rewrite HP; set_solver).
  rewrite bool_decide_false by (by intros ?). cbn.
  replace ({[d_addr D]} ∪ P) with P by set_solver. done.
Qed.

Lemma emitForwardClassDecls_settles T : settles (emitForwardClassDecls T).
Proof.
  induction T as [k|n|q T IH|T _|T n _|[info Args flds meths] _ IHA]
    using QualType_graph_ind; try apply settles_ret.
  - exact IH.
  - cbn [emitForwardClassDecls]. case_bool_decide; [|apply settles_declare].
    apply settles_bind.
    + apply settles_forM_. cbn in IHA.
      eapply Forall_impl; [exact IHA|].
      intros [T|v|Pack|nm|] HA; cbn in HA;
        [exact HA|apply settles_ret| |apply settles_unreachable|apply settles_ret].
      apply settles_forM_. eapply Forall_impl; [exact HA|].
      intros [T|v|Pack'|nm|] HB; cbn in HB; first [exact HB|apply settles_ret].
    + destruct (rd_specializedTemplate info);
        [apply settles_declare|apply settles_unreachable].
Qed.

End PrintedOnce.

(** X9: once the forward declarations a type needs are emitted, emitting
    those of the same type again prints nothing more and reports
    nothing, whatever else was emitted in between: two kernels named
    after the same class get one forward declaration. *)
Theorem emitForwardClassDecls_prints_once (T : QualType)
    (s s' s2 : Emit.State) :
  Emit.emitForwardClassDecls T s = Some (tt, s') →
  Emit.Printed s' ⊆ Emit.Printed s2 →
  Emit.emitForwardClassDecls T s2 = Some (tt, s2).
Proof.
  intros Hrun Hs2. by apply (emitForwardClassDecls_settles T s s' Hrun).
Qed.

(** The kernel name type [accessor<int, 1, 1026, 2014>*]: the template is
    declared at the first run, not at the second. *)
Lemma emitForwardClassDecls_prints_once_witness :
  ∃ s',
    Emit.emitForwardClassDecls (Scenario.globalPtr Scenario.acc1)
      (Emit.mkState [] ∅ []) = Some (tt, s') ∧
    Emit.Out s'
    = [Emit.Text "namespace cl { namespace sycl { ";
       Emit.Text "template <typename, int, int, int> class accessor;";
       Emit.Text "}}"] ∧
    Emit.emitForwardClassDecls (Scenario.globalPtr Scenario.acc1) s'
    = Some (tt, s').
Proof.
  eexists. split; [vm_compute; reflexivity|]. split; [reflexivity|].
  eapply (emitForwardClassDecls_prints_once
            (Scenario.globalPtr Scenario.acc1) (Emit.mkState [] ∅ []));
    [vm_compute; reflexivity|done].
Defined.

(** ** The emitted [KernelInfo] specializations *)

Lemma length_descriptors Ks :
  length (descriptors Ks) = length (concat (IntHeader.Params <$> Ks)).
Proof.
  unfold descriptors. induction Ks as [|K Ks IH]; [done|].
  cbn. by rewrite !length_app, length_fmap, IH.
Qed.

(** X10: in the emitted header, the specialization of [KernelInfo] for
    the kernel registered after the kernels [pre] gives its name and the
    number of its parameter descriptors, and its [getParamDesc(i)] reads
    from [kernel_signatures] the [i]-th descriptor of that very kernel,
    as long as the table indices fit an [unsigned]. *)
Theorem KernelInfo_describes_its_kernel
    (getAsString : QualType → string)
    (pre post : list IntHeader.KernelDesc) (K : IntHeader.KernelDesc)
    (s' : Emit.State) :
  exec (Emit.emit getAsString (pre ++ K :: post)) (Emit.mkState [] ∅ [])
  = Some s' →
  Z.of_nat (length (concat (IntHeader.Params <$> (pre ++ K :: post))))
  + Z.of_nat (length pre) < 2 ^ 32 →
  let C := Z.of_nat (length (concat (IntHeader.Params <$> pre))) in
  Emit.KernelInfos (Emit.Out s') !! length pre
  = Some (IntHeader.Name K, length (IntHeader.Params K), C) ∧
  ∀ i P, IntHeader.Params K !! i = Some P →
    Emit.getParamDesc (Emit.Out s') C (Z.of_nat i)
    = Some (Emit.paramKind2Str (IntHeader.Kind P), IntHeader.Info P,
            IntHeader.Offset P).
Proof.
  intros Hrun Hbound C.
  destruct (emitted_tables getAsString pre K post s' Hrun) as (_ & HI & HG & _).
  { by rewrite length_descriptors. }
  rewrite length_descriptors in HI, HG. split; [exact HI|].
  intros i P HP. rewrite HG.
  - by rewrite Nat2Z.id, HP.
  - apply lookup_lt_Some in HP. unfold NumParams. lia.
Qed.

(** Two registered kernels: the second reads its descriptor at index 1. *)
Lemma KernelInfo_describes_its_kernel_witness :
  ∃ s',
    exec (Emit.emit (λ _, "K"%string) Scenario.twoKernels)
         (Emit.mkState [] ∅ []) = Some s' ∧
    Emit.KernelInfos (Emit.Out s') !! 1%nat = Some ("_ZTS2K1"%string, 1%nat, 1) ∧
    Emit.getParamDesc (Emit.Out s') 1 0 = Some ("kind_std_layout"%string, 4, 0).
Proof.
  destruct (KernelInfo_describes_its_kernel (λ _, "K"%string)
              [IntHeader.mkKernelDesc "_ZTS2K0"
                 (RecordType (Scenario.record 81 TTK_Class "K0"
                                TranslationUnitDecl [] []))
                 [IntHeader.mkKernelParamDesc IntHeader.kind_accessor 4062 0]]
              []
              (IntHeader.mkKernelDesc "_ZTS2K1"
                 (RecordType (Scenario.record 82 TTK_Class "K1"
                                TranslationUnitDecl [] []))
                 [IntHeader.mkKernelParamDesc IntHeader.kind_std_layout 4 0])
              (default (Emit.mkState [] ∅ [])
                 (exec (Emit.emit (λ _, "K"%string) Scenario.twoKernels)
                       (Emit.mkState [] ∅ []))))
    as [HI HG]; [vm_compute; reflexivity|vm_compute; reflexivity|].
  eexists. split; [vm_compute; reflexivity|]. split; [exact HI|].
  exact (HG 0%nat _ eq_refl).
Defined.

(** ** What the signature builder reports, and where it gives up *)

Section BuilderDiagnostics.
Import Builder Flatten.

Lemma buildArgTys_field_Diags KernelObj Fld B B' :
  buildArgTys_field KernelObj Fld B = Some (tt, B') →
  Diags B' = Diags B ++ non_std_layout_report KernelObj Fld.
Proof.
  unfold buildArgTys_field, non_std_layout_report, classify_buildArgTys.
  destruct (_ || _) eqn:Hsp.
  { intros H. apply createSpecialSYCLObjParamDesc_slots in H as (_ & _ & ->).
    cbn. by rewrite app_nil_r. }
  destruct (isStructureOrClassType (fld_type Fld)) eqn:Hst.
  { intros H. apply SE_bind_Some in H as ([] & B1 & H1 & H).
    apply SE_bind_Some in H as ([] & B2 & H2 & H). injection H2 as <-.
    apply (createParamDescForWrappedAccessors_slots _ _ [Fld]
             (fieldOffsetInBytes Fld)) in H as [_ ->]; [|done].
    rewrite bool_decide_true by done. cbn.
    destruct (negb _); [destruct (reportLocation _ _); [|done]|];
      injection H1 as <-; cbn; [done|by rewrite app_nil_r]. }
  destruct (isPointerType (fld_type Fld)) eqn:Hp.
  { destruct (fld_type Fld) eqn:HT; try done. intros [= <-].
    cbn. by rewrite app_nil_r. }
  destruct (isScalarType (fld_type Fld)) eqn:Hsc; [|done].
  intros [= <-]. cbn. by rewrite app_nil_r.
Qed.

Lemma buildArgTys_fields_Diags KernelObj Flds B B' :
  forM_ (buildArgTys_field KernelObj) Flds B = Some (tt, B') →
  Diags B' = Diags B ++ flat_map (non_std_layout_report KernelObj) Flds.
Proof.
  revert B B'.
  apply (forM__append (λ l B B', Diags B' = Diags B ++ l)).
  - intros B. by rewrite app_nil_r.
  - intros l1 l2 B B1 B2 E1 E2. by rewrite E2, E1, app_assoc.
  - apply Forall_forall. intros F _ B B'. apply buildArgTys_field_Diags.
Qed.

(** A loop stops at the first element its body gives up on. *)
Lemma forM__aborts {St A} (body : A → SE St unit) pre x post :
  (∀ s, body x s = None) → ∀ s, forM_ body (pre ++ x :: post) s = None.
Proof.
  intros Hx s. rewrite forM__app. unfold mbind, SE_bind.
  destruct (forM_ body pre s) as [[[] s1]|]; [|done].
  rewrite forM__cons. unfold mbind, SE_bind. by rewrite Hx.
Qed.

End BuilderDiagnostics.

(** X11: the signature builder reports a field of the kernel object
    exactly when it is a class or struct, no special object, that is not
    of standard layout, once, and in the order of the fields; for a
    kernel object that captures, every report is placed at the variable
    captured first, whichever field is at fault.  Fields nested in a
    wrapper are not checked. *)
Theorem buildArgTys_reports_non_standard_layout_fields
    (KernelObj : CXXRecordDecl) (B B' : Builder.State) :
  exec (Builder.buildArgTys KernelObj) B = Some B' →
  Builder.Diags B'
  = Builder.Diags B
    ++ flat_map (non_std_layout_report KernelObj) (fields KernelObj).
Proof.
  intros Hrun. apply exec_Some in Hrun as [[] Hrun].
  by apply buildArgTys_fields_Diags in Hrun.
Qed.

(** A lambda that captures a standard-layout struct and, after it, one
    that is not: the error is placed at the first capture, 7, not at the
    field at fault, 22. *)
Lemma buildArgTys_reports_non_standard_layout_fields_witness :
  let Plain := Scenario.record 74 TTK_Struct "Plain" TranslationUnitDecl
                 [mkFieldDecl "v" Scenario.int 0 0] [] in
  let Odd := mkCXXRecordDecl
               (mkRecordInfo
                  (mkNamedDecl 75 "Odd" TranslationUnitDecl true 0 "struct Odd")
                  DK_CXXRecord TTK_Struct None false false 0 None)
               [] [mkFieldDecl "v" Scenario.int 0 0] [] in
  let Lambda := mkCXXRecordDecl
                  (mkRecordInfo
                     (mkNamedDecl 76 "" TranslationUnitDecl true 0 "class")
                     DK_CXXRecord TTK_Class None true true 0
                     (Some (LCK_ByCopy 7%nat)))
                  []
                  [mkFieldDecl "a" (RecordType Plain) 0 21;
                   mkFieldDecl "b" (RecordType Odd) 32 22] [] in
  ∃ B',
    exec (Builder.buildArgTys Lambda) (Builder.mkState [] []) = Some B' ∧
    Builder.Diags B' = [Diag 7 err_sycl_non_std_layout_type] ∧
    length (Builder.ParamDescs B') = 2%nat.
Proof.
  intros Plain Odd Lambda. eexists. split; [vm_compute; reflexivity|].
  split; [|reflexivity].
  apply (buildArgTys_reports_non_standard_layout_fields Lambda
           (Builder.mkState [] [])).
  vm_compute. reflexivity.
Defined.

(** X12: a kernel object with a field that is neither a special object,
    a class or struct, a pointer nor a scalar (an array, a reference, a
    union, [void]) is not diagnosed: the signature builder gives up on
    it, whatever the other fields are. *)
Theorem buildArgTys_gives_up_on_unsupported_field
    (KernelObj : CXXRecordDecl) (pre post : list FieldDecl) (F : FieldDecl)
    (B : Builder.State) :
  fields KernelObj = pre ++ F :: post →
  Flatten.classify_buildArgTys (fld_type F) = Flatten.Unsupported →
  exec (Builder.buildArgTys KernelObj) B = None.
Proof.
  intros HF HC. unfold exec, Builder.buildArgTys. rewrite HF.
  rewrite forM__aborts; [done|]. intros s.
  unfold Builder.buildArgTys_field. unfold Flatten.classify_buildArgTys in HC.
  destruct (_ || _); [done|].
  destruct (isStructureOrClassType (fld_type F)); [done|].
  destruct (isPointerType (fld_type F)); [done|].
  by destruct (isScalarType (fld_type F)).
Qed.

(** The kernel object [{ int x; int a[4]; }]. *)
Lemma buildArgTys_gives_up_on_unsupported_field_witness :
  exec (Builder.buildArgTys
          (Scenario.kernelObject
             [mkFieldDecl "x" Scenario.int 0 0;
              mkFieldDecl "a" (ArrayType Scenario.int 4) 32 0]))
       (Builder.mkState [] []) = None.
Proof.
  apply (buildArgTys_gives_up_on_unsupported_field _
           [mkFieldDecl "x" Scenario.int 0 0] []
           (mkFieldDecl "a" (ArrayType Scenario.int 4) 32 0));
    reflexivity.
Defined.

(** ** The descriptors of the header and the parameters of the kernel *)

Section Partition.
Import Builder IntHeader Flatten.
Variable getTypeSizeInChars : QualType → Z.

(** A visited field with its descriptor and the slots it stands for. *)
Definition group (v : Visit)
    : list (Visit * KernelParamDesc * list ParamDesc) :=
  (λ d, (v, d, raw_slots v)) <$> Flatten.descriptors getTypeSizeInChars v.

(** What ties a descriptor and a group of parameters to a visited
    field. *)
Definition group_ok (g : Visit * KernelParamDesc * list ParamDesc) : Prop :=
  let v := g.1.1 in
  Offset g.1.2 = Ints.to_unsigned (v_offset v) ∧
  match Kind g.1.2 with
  | kind_accessor | kind_sampler =>
      ∃ InitMethod,
        getAsCXXRecordDecl (v_type v) ≫= getInitMethod = Some InitMethod ∧
        (0 < getNumParams InitMethod)%nat ∧
        g.2 = makeParamDesc (v_field v) <$> meth_params InitMethod
  | kind_std_layout => g.2 = [makeParamDesc (v_field v) (v_type v)]
  | kind_pointer => g.2 = [makeParamDesc (v_field v) (toGlobal (v_type v))]
  end.

Lemma group_descriptors v :
  (λ g, g.1.1) <$> group v = List.filter flattened [v] ∧
  (λ g, g.1.2) <$> group v = Flatten.descriptors getTypeSizeInChars v ∧
  concat (snd <$> group v) = raw_slots v.
Proof.
  unfold group. split_and!.
  - rewrite <- list_fmap_compose.
    unfold Flatten.descriptors, flattened. cbn [List.filter].
    destruct v as [path F cls Off]. cbn [v_class v_path v_field v_offset].
    destruct cls; cbn; try done.
    + by destruct (Util.isSyclAccessorType _).
    + by destruct path.
  - rewrite <- list_fmap_compose. apply list_fmap_id.
  - unfold Flatten.descriptors, raw_slots.
    destruct v as [path F cls Off]. cbn [v_class v_path v_field v_offset].
    destruct cls; cbn; try done.
    + destruct (Util.isSyclAccessorType _); cbn; by rewrite app_nil_r.
    + by destruct path.
Qed.

Lemma group_holds v : BodySpec.supported v → Forall group_ok (group v).
Proof.
  unfold group, Flatten.descriptors, group_ok.
  destruct v as [path F cls Off]. intros Hs.
  destruct cls; cbn [v_class v_path v_field v_offset]; try by constructor.
  - apply supported_special in Hs as (M & HM & HN & ->).
    destruct (Util.isSyclAccessorType _); repeat constructor; cbn;
      by exists M.
  - destruct path; by repeat constructor.
Qed.

Lemma groups_of_visits vs :
  (λ g, g.1.1) <$> flat_map group vs = List.filter flattened vs ∧
  (λ g, g.1.2) <$> flat_map group vs
  = flat_map (Flatten.descriptors getTypeSizeInChars) vs ∧
  concat (snd <$> flat_map group vs) = flat_map raw_slots vs.
Proof.
  induction vs as [|v vs (IH0 & IH1 & IH2)]; [done|]. cbn [flat_map].
  destruct (group_descriptors v) as (E0 & E1 & E2).
  rewrite !fmap_app, concat_app, E0, E1, E2, IH0, IH1, IH2.
  split_and!; try done. cbn [List.filter]. by destruct (flattened v).
Qed.

End Partition.

(** X13: for a supported kernel object, the descriptors registered in
    the header cut the parameter list of the entry point into consecutive
    groups, one per descriptor and in the same order, and both belong to
    one field: the visited fields that are flattened (the fields of the
    kernel object, and the accessors nested in its wrappers), in the
    order of the walk.  The descriptor holds the offset of that field;
    a [std_layout] descriptor stands for one parameter of the type of
    the field, a [pointer] descriptor for one of that type in the global
    address space, an [accessor] or [sampler] descriptor for the
    parameters of the [__init] of the type of the field, in order. *)
Theorem descriptors_partition_the_parameters
    (getTypeSizeInChars : QualType → Z) (KernelObjTy : CXXRecordDecl)
    (Name : string) (NameType : QualType)
    (B B' : Builder.State) (H H' : IntHeader.SYCLIntegrationHeader) :
  exec (Builder.buildArgTys KernelObjTy) B = Some B' →
  exec (IntHeader.populateIntHeader getTypeSizeInChars Name NameType
          KernelObjTy) H = Some H' →
  Forall BodySpec.supported (Flatten.visit_sequence (fields KernelObjTy)) →
  ∃ groups : list (Flatten.Visit * IntHeader.KernelParamDesc
                   * list Builder.ParamDesc),
    (λ g, g.1.1) <$> groups
    = List.filter flattened (Flatten.visit_sequence (fields KernelObjTy)) ∧
    H' = H ++ [IntHeader.mkKernelDesc Name NameType
                 ((λ g, g.1.2) <$> groups)] ∧
    Builder.ParamDescs B' = Builder.ParamDescs B ++ concat (snd <$> groups) ∧
    Forall (λ g,
              let v := g.1.1 in
              IntHeader.Offset g.1.2 = Ints.to_unsigned (Flatten.v_offset v) ∧
              match IntHeader.Kind g.1.2 with
              | IntHeader.kind_accessor | IntHeader.kind_sampler =>
                  ∃ InitMethod,
                    getAsCXXRecordDecl (Flatten.v_type v)
                      ≫= Builder.getInitMethod = Some InitMethod ∧
                    (0 < getNumParams InitMethod)%nat ∧
                    g.2 = Builder.makeParamDesc (Flatten.v_field v)
                          <$> meth_params InitMethod
              | IntHeader.kind_std_layout =>
                  g.2 = [Builder.makeParamDesc (Flatten.v_field v)
                           (Flatten.v_type v)]
              | IntHeader.kind_pointer =>
                  g.2 = [Builder.makeParamDesc (Flatten.v_field v)
                           (Flatten.toGlobal (Flatten.v_type v))]
              end) groups.
Proof.
  intros HB HH Hs.
  apply exec_Some in HB as [[] HB]. apply buildArgTys_slots in HB.
  apply populateIntHeader_descriptors in HH.
  destruct (groups_of_visits getTypeSizeInChars
              (Flatten.visit_sequence (fields KernelObjTy))) as (E0 & E1 & E2).
  exists (flat_map (group getTypeSizeInChars)
                   (Flatten.visit_sequence (fields KernelObjTy))).
  split_and!; [exact E0|by rewrite E1|by rewrite E2|]. clear HB HH E0 E1 E2.
  induction Hs as [|v vs Hv _ IH]; [constructor|]. cbn [flat_map].
  apply Forall_app. split; [|exact IH].
  exact (group_holds getTypeSizeInChars v Hv).
Qed.

(** [{ int x; accessor acc; float y; }]: three descriptors for five
    parameters, cut 1 + 3 + 1. *)
Lemma descriptors_partition_the_parameters_witness :
  ∃ B' H' (groups : list (Flatten.Visit * IntHeader.KernelParamDesc
                          * list Builder.ParamDesc)),
    exec (Builder.buildArgTys Scenario.scalarsAndAccessor)
         (Builder.mkState [] []) = Some B' ∧
    exec (IntHeader.populateIntHeader Scenario.sizeInChars "_ZTS1K"
            Scenario.void Scenario.scalarsAndAccessor) [] = Some H' ∧
    H' = [IntHeader.mkKernelDesc "_ZTS1K" Scenario.void
            ((λ g, g.1.2) <$> groups)] ∧
    Builder.ParamDescs B' = concat (snd <$> groups) ∧
    (length <$> (snd <$> groups)) = [1; 3; 1]%nat ∧
    (IntHeader.Params <$> H')
    = [[IntHeader.mkKernelParamDesc IntHeader.kind_std_layout 4 0;
        IntHeader.mkKernelParamDesc IntHeader.kind_accessor 4062 4;
        IntHeader.mkKernelParamDesc IntHeader.kind_std_layout 4 36]].
Proof.
  destruct (descriptors_partition_the_parameters Scenario.sizeInChars
              Scenario.scalarsAndAccessor "_ZTS1K" Scenario.void
              (Builder.mkState [] [])
              (default (Builder.mkState [] [])
                 (exec (Builder.buildArgTys Scenario.scalarsAndAccessor)
                       (Builder.mkState [] [])))
              []
              (default []
                 (exec (IntHeader.populateIntHeader Scenario.sizeInChars
                          "_ZTS1K" Scenario.void Scenario.scalarsAndAccessor)
                       [])))
    as (groups & HV & HH & HB & HG);
    [vm_compute; reflexivity|vm_compute; reflexivity
    |supported_by_evaluation|].
  eexists _, _, groups. split; [vm_compute; reflexivity|].
  split; [vm_compute; reflexivity|]. split; [exact HH|]. split; [exact HB|].
  split; [|reflexivity].
  vm_compute in HV.
  destruct groups as [|[[v1 d1] s1] [|[[v2 d2] s2] [|[[v3 d3] s3] [|? ?]]]];
    try discriminate HV.
  injection HV as -> -> ->.
  vm_compute in HH. injection HH as <- <- <-.
  apply Forall_cons in HG as [[_ G1] HG].
  apply Forall_cons in HG as [[_ (M & HM & _ & G2)] HG].
  apply Forall_cons in HG as [[_ G3] _].
  cbn in G1, G3, HM. injection HM as <-.
  cbn in G1, G2, G3. subst s1 s2 s3. reflexivity.
Defined.

(** ** Generating a kernel never gives up on a supported kernel object *)

Section Totality.
Import Builder IntHeader Flatten BodySpec.

Lemma Forall_flat_map_inv {A B} (P : B → Prop) (g : A → list B) l :
  Forall P (flat_map g l) → Forall (λ x, Forall P (g x)) l.
Proof.
  induction l as [|x l IH]; [by constructor|]. cbn [flat_map].
  intros [? ?]%Forall_app. constructor; auto.
Qed.

(** The visit of a field of a wrapper, and those nested in it. *)
Lemma wrapped_field_visits_inv (P : Visit → Prop) path Offset F :
  Forall P (wrapped_field_visits path Offset F) →
  let Off := Ints.to_uint64 (Offset + fieldOffsetInBytes F) in
  P (mkVisit path F (classify_wrapped (fld_type F)) Off) ∧
  (classify_wrapped (fld_type F) = WrapperAggregate →
   Forall P (wrapped_visits (path ++ [F]) (fld_type F) Off)).
Proof.
  unfold wrapped_field_visits. cbn zeta. intros [HP Hrest]%Forall_cons.
  split; [done|]. intros E. by rewrite E in Hrest.
Qed.

Lemma createSpecialSYCLObjParamDesc_total Fld ArgTy B :
  is_Some (getAsCXXRecordDecl ArgTy ≫= getInitMethod) →
  ∃ B', createSpecialSYCLObjParamDesc Fld ArgTy B = Some (tt, B') ∧ True.
Proof.
  intros [M HM]. unfold createSpecialSYCLObjParamDesc.
  destruct (getAsCXXRecordDecl ArgTy) as [RD|]; [|done]. cbn in HM.
  rewrite HM, CreateAndAddPrmDsc_loop. by eexists.
Qed.

Lemma supported_init path F Off :
  supported (mkVisit path F SpecialObject Off) →
  is_Some (getAsCXXRecordDecl (fld_type F) ≫= getInitMethod).
Proof. intros Hs. apply supported_special in Hs as (M & -> & _). by eexists. Qed.

Lemma createParamDescForWrappedAccessors_total ArgTy :
  ∀ Fld path Offset B,
    isStructureOrClassType ArgTy = true →
    Forall supported (wrapped_visits path ArgTy Offset) →
    ∃ B', createParamDescForWrappedAccessors Fld ArgTy B = Some (tt, B') ∧ True.
Proof.
  induction ArgTy as [k|n|q T _|T _|T n _|[info Args flds meths] IHF _]
    using QualType_graph_ind; intros Fld path Offset B Hst Hs; try done.
  rewrite wrapped_visits_fields in Hs.
  cbn [createParamDescForWrappedAccessors fields] in *.
  apply Forall_flat_map_inv in Hs.
  apply (forM__total (λ _, True)); [|done].
  clear B Fld Hst. induction IHF as [|F flds' HF _ IH]; [constructor|].
  apply Forall_cons in Hs as [HsF Hs]. constructor; [|by apply IH].
  intros B _. apply wrapped_field_visits_inv in HsF as [HsF Hnest].
  unfold classify_wrapped in HsF, Hnest.
  destruct (isStructureOrClassType (fld_type F)) eqn:Hst; [|by eexists].
  destruct (Util.isSyclAccessorType (fld_type F)).
  - apply createSpecialSYCLObjParamDesc_total. by eapply supported_init.
  - eapply HF; [done|by apply Hnest].
Qed.

Lemma reportLocation_is_Some KernelObj F :
  (∀ Cpt, rd_capturesBegin (rd_info KernelObj) = Some Cpt →
          is_Some (getCapturedVar Cpt)) →
  is_Some (reportLocation KernelObj F).
Proof.
  intros Hcap. unfold reportLocation.
  destruct (rd_capturesBegin (rd_info KernelObj)) as [Cpt|]; [by apply Hcap|].
  by eexists.
Qed.

Lemma buildArgTys_total KernelObj B :
  (∀ Cpt, rd_capturesBegin (rd_info KernelObj) = Some Cpt →
          is_Some (getCapturedVar Cpt)) →
  Forall supported (visit_sequence (fields KernelObj)) →
  ∃ B', exec (buildArgTys KernelObj) B = Some B'.
Proof.
  intros Hcap Hs. apply Forall_flat_map_inv in Hs.
  destruct (forM__total (λ _, True) (buildArgTys_field KernelObj)
              (fields KernelObj)) with (s := B) as (B' & Hrun & _); [|done|].
  2:{ exists B'. apply exec_Some. by exists tt. }
  eapply Forall_impl; [exact Hs|]. intros F HF B0 _.
  unfold field_visits in HF. cbn zeta in HF.
  apply Forall_cons in HF as [HF Hnest].
  unfold buildArgTys_field. unfold classify_buildArgTys in HF, Hnest.
  destruct (_ || _).
  { apply createSpecialSYCLObjParamDesc_total. by eapply supported_init. }
  destruct (isStructureOrClassType (fld_type F)) eqn:Hst.
  { assert (∃ B1, (if negb (isStandardLayoutType (fld_type F))
                   then match reportLocation KernelObj F with
                        | Some Loc => Report Loc err_sycl_non_std_layout_type
                        | None => unreachable
                        end
                   else mret tt) B0 = Some (tt, B1)) as [B1 H1].
    { destruct (negb _); [|by eexists].
      destruct (reportLocation_is_Some KernelObj F Hcap) as [Loc ->].
      by eexists. }
    erewrite SE_bind_eq by exact H1.
    erewrite SE_bind_eq by reflexivity.
    by eapply (createParamDescForWrappedAccessors_total (fld_type F) F [F]
                 (fieldOffsetInBytes F)). }
  destruct (isPointerType (fld_type F)) eqn:Hp.
  { destruct (fld_type F); try done. by eexists. }
  destruct (isScalarType (fld_type F)); [by eexists|done].
Qed.

(** *** The header *)

Lemma addParamDesc_total K I O (H : SYCLIntegrationHeader) :
  H ≠ [] → ∃ H', addParamDesc K I O H = Some (tt, H') ∧ H' ≠ [].
Proof.
  intros HH. unfold addParamDesc.
  destruct (last H) as [D|] eqn:HD.
  - eexists. split; [done|]. by destruct (removelast H).
  - apply last_None in HD. done.
Qed.

Lemma populateHeaderForAccessor_total ArgTy Offset (H : SYCLIntegrationHeader) :
  H ≠ [] →
  Util.isSyclAccessorType ArgTy = true →
  (∃ RD Dims Tgt, ArgTy = RecordType RD ∧ getIntegralArg RD 1 = Some Dims
                  ∧ getIntegralArg RD 3 = Some Tgt) →
  ∃ H', populateHeaderForAccessor ArgTy Offset H = Some (tt, H') ∧ H' ≠ [].
Proof.
  intros HH HA (RD & Dims & Tgt & -> & HD & HT).
  apply matchQualifiedTypeName_char in HA as (RD' & [= <-] & HK & _);
    [|right; right; done].
  unfold populateHeaderForAccessor, getAccessTarget.
  cbn [getAsCXXRecordDecl]. rewrite HK, HD, HT.
  rewrite bool_decide_true by done. cbn. by apply addParamDesc_total.
Qed.

Definition well_formed (v : Visit) : Prop := supported v ∧ describable v.

Lemma populateHeaderForWrappedAccessors_total ArgTy :
  ∀ path Offset Off' (H : SYCLIntegrationHeader),
    H ≠ [] →
    isStructureOrClassType ArgTy = true →
    Forall well_formed (wrapped_visits path ArgTy Offset) →
    ∃ H', populateHeaderForWrappedAccessors ArgTy Off' H = Some (tt, H')
          ∧ H' ≠ [].
Proof.
  induction ArgTy as [k|n|q T _|T _|T n _|[info Args flds meths] IHF _]
    using QualType_graph_ind; intros path Offset Off' H HH Hst Hs; try done.
  rewrite wrapped_visits_fields in Hs.
  cbn [populateHeaderForWrappedAccessors fields] in *.
  apply Forall_flat_map_inv in Hs.
  apply (forM__total (λ H : SYCLIntegrationHeader, H ≠ [])); [|done].
  clear H HH Hst. induction IHF as [|F flds' HF _ IH]; [constructor|].
  apply Forall_cons in Hs as [HsF Hs]. constructor; [|by apply IH].
  intros H HH. apply wrapped_field_visits_inv in HsF as [[_ HdF] Hnest].
  unfold classify_wrapped in HdF, Hnest.
  destruct (isStructureOrClassType (fld_type F)) eqn:Hst; [|by eexists].
  destruct (Util.isSyclAccessorType (fld_type F)) eqn:HA.
  - apply populateHeaderForAccessor_total; [done..|]. by apply HdF.
  - eapply HF; [done..|by apply Hnest].
Qed.

Lemma populateIntHeader_total sz Name NameType KernelObjTy
    (H : SYCLIntegrationHeader) :
  Forall well_formed (visit_sequence (fields KernelObjTy)) →
  ∃ H', exec (populateIntHeader sz Name NameType KernelObjTy) H = Some H'.
Proof.
  intros Hs. apply Forall_flat_map_inv in Hs.
  destruct (forM__total (λ H : SYCLIntegrationHeader, H ≠ [])
              (populateIntHeader_field sz) (fields KernelObjTy))
    with (s := H ++ [mkKernelDesc Name NameType []]) as (H' & Hrun & _).
  2:{ by destruct H. }
  2:{ exists H'. apply exec_Some. exists tt. unfold populateIntHeader.
      by erewrite SE_bind_eq. }
  eapply Forall_impl; [exact Hs|]. intros F HF H0 HH0.
  unfold field_visits in HF. cbn zeta in HF.
  apply Forall_cons in HF as [[HsF HdF] Hnest].
  unfold populateIntHeader_field. unfold classify_buildArgTys in HsF, HdF, Hnest.
  destruct (Util.isSyclAccessorType (fld_type F)) eqn:HA.
  { apply populateHeaderForAccessor_total; [done..|]. by apply HdF. }
  destruct (Util.isSyclSamplerType (fld_type F)) eqn:HSm.
  { cbn in HsF. apply supported_special in HsF as (M & -> & HN & _).
    unfold getNumParams in HN.
    destruct (meth_params M) as [|T Ts] eqn:HM; [cbn in HN; lia|]. cbn.
    by apply addParamDesc_total. }
  cbn [orb] in *.
  destruct (isPointerType (fld_type F)) eqn:Hp.
  { by apply addParamDesc_total. }
  destruct (isStructureOrClassType (fld_type F)) eqn:Hst.
  { cbn [orb].
    destruct (addParamDesc_total kind_std_layout
                (Ints.to_unsigned (sz (fld_type F)))
                (Ints.to_unsigned (fieldOffsetInBytes F)) H0 HH0)
      as (H1 & E1 & HH1).
    destruct (populateHeaderForWrappedAccessors_total (fld_type F) [F]
                (fieldOffsetInBytes F) (fieldOffsetInBytes F) H1 HH1 Hst Hnest)
      as (H2 & E2 & HH2).
    exists H2. split; [|done]. by erewrite SE_bind_eq. }
  cbn [orb]. destruct (isScalarType (fld_type F)) eqn:Hsc.
  - destruct (addParamDesc_total kind_std_layout
                (Ints.to_unsigned (sz (fld_type F)))
                (Ints.to_unsigned (fieldOffsetInBytes F)) H0 HH0)
      as (H1 & E1 & HH1).
    exists H1. split; [|done]. by erewrite SE_bind_eq.
  - done.
Qed.

End Totality.

(** X14: for a kernel caller with a body, whose first template argument
    is a type, whose kernel object is supported, whose accessors carry
    their dimension and target, and whose first capture (when it is a
    lambda that captures) is that of a variable, generating the kernel
    never gives up: it registers one kernel, named by the mangled first
    template argument of the caller and located at the kernel object,
    with one parameter per slot and a body, and the header gets one
    entry under the same name. *)
Theorem ConstructOpenCLKernel_returns
    (getTypeSizeInChars : QualType → Z) (constructKernelName : QualType → string)
    (KernelCallerFunc : FunctionDecl) (LE : CXXRecordDecl)
    (KernelNameType : QualType) (targs : list TemplateArgument)
    (FunctionBody : Stmt) (S : Sema.State) :
  getKernelObjectType KernelCallerFunc = Some LE →
  fn_templateArgs KernelCallerFunc = TA_Type KernelNameType :: targs →
  fn_body KernelCallerFunc = Some FunctionBody →
  (∀ Cpt, rd_capturesBegin (rd_info LE) = Some Cpt →
          is_Some (getCapturedVar Cpt)) →
  Forall BodySpec.supported (Flatten.visit_sequence (fields LE)) →
  Forall describable (Flatten.visit_sequence (fields LE)) →
  ∃ OpenCLKernel S' Descs Body,
    Sema.ConstructOpenCLKernel getTypeSizeInChars constructKernelName
      KernelCallerFunc S = Some (OpenCLKernel, S') ∧
    fn_name OpenCLKernel = constructKernelName KernelNameType ∧
    fn_location OpenCLKernel = rd_location (rd_info LE) ∧
    length (fn_params OpenCLKernel)
    = length (flat_map Flatten.raw_slots (Flatten.visit_sequence (fields LE))) ∧
    fn_body OpenCLKernel = Some Body ∧
    Sema.SyclKernels S' = Sema.SyclKernels S ++ [OpenCLKernel] ∧
    Sema.SyclIntHeader S'
    = Sema.SyclIntHeader S
      ++ [IntHeader.mkKernelDesc (constructKernelName KernelNameType)
            KernelNameType Descs].
Proof.
  intros HLE HT HFB Hcap Hs Hd.
  assert (Forall well_formed (Flatten.visit_sequence (fields LE))) as Hwf.
  { apply Forall_and. by split. }
  destruct (buildArgTys_total LE (Builder.mkState [] (Sema.Diags S)) Hcap Hs)
    as (B & HB).
  destruct (populateIntHeader_total getTypeSizeInChars
              (constructKernelName KernelNameType) KernelNameType LE
              (Sema.SyclIntHeader S) Hwf) as (H & HH).
  destruct (entry_point KernelCallerFunc LE FunctionBody
              (constructKernelName KernelNameType) (Sema.Diags S) B
              HLE HFB HB Hs) as (HP & P & _ & Hbody).
  eexists _, _, _, _. split.
  { unfold Sema.ConstructOpenCLKernel. rewrite HLE. cbn [mbind option_bind].
    rewrite HB. cbn [mbind option_bind]. rewrite HT. cbn [mbind option_bind].
    rewrite HH. cbn [mbind option_bind]. rewrite Hbody.
    cbn [mbind option_bind]. reflexivity. }
  cbn. split_and!; try done.
  - by rewrite length_imap, HP.
  - by apply populateIntHeader_descriptors in HH.
Qed.

(** The kernel of [{ int x; Outer w; }]. *)
Lemma ConstructOpenCLKernel_returns_witness :
  ∃ OpenCLKernel S',
    Sema.ConstructOpenCLKernel Scenario.sizeInChars (λ _, "_ZTS4Name"%string)
      (Scenario.kernelCaller Scenario.nestedAccessor) (Sema.mkState [] [] [])
    = Some (OpenCLKernel, S') ∧
    fn_name OpenCLKernel = "_ZTS4Name"%string ∧
    length (fn_params OpenCLKernel) = 5%nat ∧
    (IntHeader.Name <$> Sema.SyclIntHeader S') = ["_ZTS4Name"%string].
Proof.
  destruct (ConstructOpenCLKernel_returns Scenario.sizeInChars
              (λ _, "_ZTS4Name"%string)
              (Scenario.kernelCaller Scenario.nestedAccessor)
              Scenario.nestedAccessor
              (RecordType (Scenario.record 80 TTK_Class "Name"
                             TranslationUnitDecl [] []))
              [TA_Type (RecordType Scenario.nestedAccessor)]
              (CompoundStmt
                 [OtherStmt "CXXOperatorCallExpr"
                    [DeclRefExpr
                       (ParmVarDecl "kernel_caller" 0 "KernelFuncObj"
                          (RecordType Scenario.nestedAccessor))
                       (RecordType Scenario.nestedAccessor) 90]] 89 91)
              (Sema.mkState [] [] []))
    as (K & S' & Descs & Body & Hrun & Hn & _ & Hp & _ & _ & HH);
    [reflexivity|reflexivity|reflexivity|discriminate
    |supported_by_evaluation| |].
  - vm_compute.
    repeat first [ apply List.Forall_nil | apply List.Forall_cons ];
      try discriminate.
    intros _ _. by eexists _, _, _.
  - exists K, S'. split; [exact Hrun|]. split; [exact Hn|]. split; [exact Hp|].
    by rewrite HH.
Defined.

(** ** Marking the device code *)

Section MarkAll.
Import Marker CallGraph.
Variable SYCLCG : gmap string (list string).
Variable SYCLAllowFuncPtr : bool.
Variable CheckSYCLType : QualType → SourceLocation → list Diagnostic.

Abbreviation reachable := (CallGraph.reachable SYCLCG).
Abbreviation isDevice Ds F := (hasAttr AK_SYCLDevice (FD_attrs (lookupFD Ds F))).
Abbreviation Visit := (Marker.Visit SYCLAllowFuncPtr CheckSYCLType).

Lemma hasAttr_existsb K l :
  hasAttr K l = existsb (λ A, bool_decide (getKind A = K)) l.
Proof.
  unfold hasAttr, getAttr. induction l as [|A l IH]; cbn; [done|].
  destruct (bool_decide (getKind A = K)); done.
Qed.

Lemma hasAttr_app K l l' : hasAttr K (l ++ l') = hasAttr K l || hasAttr K l'.
Proof. rewrite !hasAttr_existsb. apply existsb_app. Qed.

Lemma lookupFD_insert_ne Ds F F' D :
  F ≠ F' → lookupFD (<[F := D]> Ds) F' = lookupFD Ds F'.
Proof. intros. unfold lookupFD. by rewrite lookup_insert_ne. Qed.

(** What marking keeps: the two sets of the visitor, the bodies and the
    places of the functions, and the diagnostics reported so far; a
    definition marked as device code stays marked; one marked anew is
    registered with [AddSyclKernel]. *)
Record keeps (s s' : State) : Prop := mkKeeps {
  keeps_KernelSet : KernelSet s' = KernelSet s;
  keeps_RecursiveSet : RecursiveSet s' = RecursiveSet s;
  keeps_body : ∀ F, FD_body (lookupFD (Decls s') F)
                    = FD_body (lookupFD (Decls s) F);
  keeps_begin : ∀ F, FD_begin (lookupFD (Decls s') F)
                     = FD_begin (lookupFD (Decls s) F);
  keeps_device : ∀ F, isDevice (Decls s) F = true →
                      isDevice (Decls s') F = true;
  keeps_registered : ∀ F, isDevice (Decls s') F = true →
                          isDevice (Decls s) F = true ∨ F ∈ SyclKernels s';
  keeps_SyclKernels : SyclKernels s ⊆ SyclKernels s';
  keeps_reported : Diags s ⊆ Diags s'
}.

#[local] Instance keeps_refl : Reflexive keeps.
Proof. intros s. split; auto. Qed.

#[local] Instance keeps_trans : Transitive keeps.
Proof.
  intros s1 s2 s3 [K1 R1 B1 P1 D1 G1 S1 E1] [K2 R2 B2 P2 D2 G2 S2 E2]. split.
  - congruence.
  - congruence.
  - intros F. by rewrite B2, B1.
  - intros F. by rewrite P2, P1.
  - auto.
  - intros F HF. destruct (G2 F HF) as [HF2 | ?]; [|by right].
    destruct (G1 F HF2) as [? | ?]; [by left|]. right. by apply S2.
  - by etrans.
  - by etrans.
Qed.

Lemma keeps_Diags_sub Dg s :
  Diags s ⊆ Dg →
  keeps s (mkState (Decls s) (SyclKernels s) Dg
                   (KernelSet s) (RecursiveSet s)).
Proof. split; cbn; auto. Qed.

Lemma keeps_Diags l s :
  keeps s (mkState (Decls s) (SyclKernels s) (Diags s ++ l)
                   (KernelSet s) (RecursiveSet s)).
Proof. apply keeps_Diags_sub. set_solver. Qed.

(** An attribute added to a function, when the function is registered
    if the attribute marks it as device code. *)
Lemma addAttr_keeps F A s SK :
  SyclKernels s ⊆ SK →
  (getKind A = AK_SYCLDevice → F ∈ SK) →
  keeps s (mkState (<[F := addAttr A (lookupFD (Decls s) F)]> (Decls s))
                   SK (Diags s) (KernelSet s) (RecursiveSet s)).
Proof.
  intros HSK HA. split; cbn; try done.
  - intros F'. destruct (decide (F = F')) as [<- | Hne].
    + by rewrite lookupFD_insert.
    + by rewrite lookupFD_insert_ne.
  - intros F'. destruct (decide (F = F')) as [<- | Hne].
    + by rewrite lookupFD_insert.
    + by rewrite lookupFD_insert_ne.
  - intros F'. destruct (decide (F = F')) as [<- | Hne].
    + rewrite lookupFD_insert. cbn. rewrite hasAttr_app. by intros ->.
    + by rewrite lookupFD_insert_ne.
  - intros F'. destruct (decide (F = F')) as [<- | Hne].
    + rewrite lookupFD_insert. cbn. rewrite hasAttr_app.
      intros [? | HA']%orb_true_iff; [by left|]. right. apply HA.
      rewrite hasAttr_existsb in HA'. cbn in HA'. rewrite orb_false_r in HA'.
      by apply bool_decide_eq_true in HA'.
    + rewrite lookupFD_insert_ne by done. by left.
Qed.

Lemma setInvalidDecl_keeps F s :
  keeps s (mkState (<[F := setInvalidDecl (lookupFD (Decls s) F)]> (Decls s))
                   (SyclKernels s) (Diags s) (KernelSet s) (RecursiveSet s)).
Proof.
  split; cbn; try done.
  - intros F'. destruct (decide (F = F')) as [<- | Hne].
    + by rewrite lookupFD_insert.
    + by rewrite lookupFD_insert_ne.
  - intros F'. destruct (decide (F = F')) as [<- | Hne].
    + by rewrite lookupFD_insert.
    + by rewrite lookupFD_insert_ne.
  - intros F'. destruct (decide (F = F')) as [<- | Hne].
    + by rewrite lookupFD_insert.
    + by rewrite lookupFD_insert_ne.
  - intros F'. destruct (decide (F = F')) as [<- | Hne].
    + rewrite lookupFD_insert. by left.
    + rewrite lookupFD_insert_ne by done. by left.
Qed.

Lemma propagateAttr_keeps SYCLKernel A s s' :
  propagateAttr SYCLKernel A s = Some (tt, s') → keeps s s'.
Proof.
  destruct A as [| | | | |a v l| |]; try done.
  unfold propagateAttr, getDecl, gets, mbind, SE_bind.
  destruct (getAttr _ _) as [E|] eqn:HE.
  - destruct E; try done. case_bool_decide; cbn.
    + by intros [= <-].
    + intros [= <-].
      match goal with
      | |- keeps _ (mkState _ _ ?Dg _ _) =>
          trans (mkState (Decls s) (SyclKernels s) Dg
                         (KernelSet s) (RecursiveSet s))
      end; [apply keeps_Diags_sub; set_solver|].
      apply (setInvalidDecl_keeps SYCLKernel (mkState _ _ _ _ _)).
  - intros [= <-]. by apply addAttr_keeps.
Qed.

(** Marking a definition: it is marked afterwards. *)
Lemma mark_keeps F s :
  let s' := if negb (isDevice (Decls s) F) then
              mkState (<[F := addAttr SYCLDeviceAttr (lookupFD (Decls s) F)]>
                         (Decls s))
                      (SyclKernels s ++ [F]) (Diags s)
                      (KernelSet s) (RecursiveSet s)
            else s in
  keeps s s' ∧ isDevice (Decls s') F = true.
Proof.
  destruct (isDevice (Decls s) F) eqn:HD; cbn; [by rewrite HD|]. split.
  - apply addAttr_keeps; [set_solver|]. intros _. set_solver.
  - rewrite lookupFD_insert. cbn. rewrite hasAttr_app. apply orb_true_r.
Qed.

Lemma markDefinition_keeps F s :
  ∃ s', markDefinition F s = Some (tt, s') ∧ keeps s s'.
Proof.
  unfold markDefinition, getDecl, gets, mbind at 1, SE_bind at 1.
  case_bool_decide; [|by exists s].
  destruct (mark_keeps F s) as [HK _].
  destruct (isDevice (Decls s) F); cbn in *; [by exists s|].
  eexists. split; [reflexivity|exact HK].
Qed.

Lemma markDefinition_again_keeps F s :
  ∃ s', markDefinition_again F s = Some (tt, s') ∧ keeps s s'.
Proof.
  unfold markDefinition_again, getDecl, gets, mbind at 1, SE_bind at 1.
  case_bool_decide; [|by exists s].
  eexists. split; [reflexivity|]. cbn.
  apply addAttr_keeps; [set_solver|]. intros _. set_solver.
Qed.

Lemma CheckSYCLType_keeps Ty Loc s :
  ∃ s', CheckSYCLType_ CheckSYCLType Ty Loc s = Some (tt, s') ∧ keeps s s'.
Proof. eexists. split; [reflexivity|apply keeps_Diags]. Qed.

Lemma Diag_keeps Loc D s : ∃ s', Diag_ Loc D s = Some (tt, s') ∧ keeps s s'.
Proof. eexists. split; [reflexivity|apply keeps_Diags]. Qed.

Lemma ret_keeps s : ∃ s', mret (M := SE State) tt s = Some (tt, s') ∧ keeps s s'.
Proof. by exists s. Qed.

Lemma bind_keeps (m k : SE State unit) s :
  (∀ s0, ∃ s1, m s0 = Some (tt, s1) ∧ keeps s0 s1) →
  (∀ s0, ∃ s1, k s0 = Some (tt, s1) ∧ keeps s0 s1) →
  ∃ s', (m ;; k) s = Some (tt, s') ∧ keeps s s'.
Proof.
  intros Hm Hk. destruct (Hm s) as (s1 & H1 & K1).
  destruct (Hk s1) as (s2 & H2 & K2). exists s2.
  split; [by erewrite SE_bind_eq by exact H1|by etrans].
Qed.

Lemma forM__keeps {A} (body : A → SE State unit) l :
  (∀ x s0, ∃ s1, body x s0 = Some (tt, s1) ∧ keeps s0 s1) →
  ∀ s, ∃ s', forM_ body l s = Some (tt, s') ∧ keeps s s'.
Proof.
  intros Hbody. induction l as [|x l IH]; intros s; [by exists s|].
  rewrite forM__cons. apply bind_keeps; [apply Hbody|exact IH].
Qed.

(** A call: what is marked is kept, and a call of a function marked
    recursive is reported, with a note at that function. *)
Lemma VisitCallExpr_keeps e s :
  ∃ s', VisitCallExpr SYCLAllowFuncPtr CheckSYCLType e s = Some (tt, s')
        ∧ keeps s s'
        ∧ ∀ Callee, getDirectCallee e = Some Callee →
            Callee ∈ RecursiveSet s →
            recursive_call_error e ∈ Diags s'
            ∧ recursive_function_note (Decls s) Callee ∈ Diags s'.
Proof.
  unfold VisitCallExpr.
  destruct (forM__keeps (λ Arg : QualType * SourceLocation,
                           CheckSYCLType_ CheckSYCLType Arg.1 Arg.2)
              (arguments e) (λ Arg, CheckSYCLType_keeps Arg.1 Arg.2) s)
    as (s1 & H1 & K1).
  erewrite SE_bind_eq by exact H1.
  destruct (getDirectCallee e) as [Callee|].
  2:{ destruct (negb SYCLAllowFuncPtr); eexists; (split; [reflexivity|]);
        (split; [|done]); [|done].
      etrans; [exact K1|apply keeps_Diags]. }
  unfold getDecl, gets, mbind at 1 2, SE_bind at 1 2.
  set (D := lookupFD (Decls s1) Callee).
  assert (∃ s2, (if bool_decide (Callee ∈ RecursiveSet s1) then
                   Diag_ (getExprLoc e)
                     (err_sycl_restrict KernelCallRecursiveFunction) ;;
                   Diag_ (FD_begin D)
                     (note_sycl_recursive_function_declared_here
                        KernelCallRecursiveFunction)
                 else mret tt) s1 = Some (tt, s2) ∧ keeps s1 s2 ∧
                (Callee ∈ RecursiveSet s1 →
                 recursive_call_error e ∈ Diags s2 ∧
                 recursive_function_note (Decls s1) Callee ∈ Diags s2))
    as (s2 & H2 & K2 & R2).
  { case_bool_decide; [|by exists s1]. eexists. split; [reflexivity|].
    split.
    - etrans; [apply (keeps_Diags [recursive_call_error e])|].
      apply (keeps_Diags [recursive_function_note (Decls s1) Callee]).
    - intros _. cbn. unfold recursive_call_error, recursive_function_note.
      fold D. set_solver. }
  erewrite SE_bind_eq by exact H2.
  assert (∃ s3, (if FD_isVirtual D then
                   Diag_ (getExprLoc e)
                     (err_sycl_restrict KernelCallVirtualFunction)
                 else mret tt) s2 = Some (tt, s3) ∧ keeps s2 s3)
    as (s3 & H3 & K3).
  { destruct (FD_isVirtual D); [apply Diag_keeps|apply ret_keeps]. }
  erewrite SE_bind_eq by exact H3.
  destruct (bind_keeps (CheckSYCLType_ CheckSYCLType (FD_returnType D)
                          (FD_begin D))
              (markDefinition Callee) s3) as (s4 & H4 & K4).
  { intros s0. apply CheckSYCLType_keeps. }
  { intros s0. apply markDefinition_keeps. }
  exists s4. split; [exact H4|]. split.
  { etrans; [exact K1|]. etrans; [exact K2|]. by etrans. }
  intros Callee' [= <-] HR.
  rewrite <- (keeps_RecursiveSet _ _ K1) in HR. destruct (R2 HR) as [E N].
  assert (Diags s2 ⊆ Diags s4) as Hsub
    by (etrans; [exact (keeps_reported _ _ K3)|exact (keeps_reported _ _ K4)]).
  split; [by apply Hsub|]. apply Hsub.
  unfold recursive_function_note in *.
  by rewrite <- (keeps_begin _ _ K1 Callee).
Qed.

(** Every callback returns and keeps what is marked. *)
Lemma Visit_keeps c s : ∃ s', Visit c s = Some (tt, s') ∧ keeps s s'.
Proof.
  destruct c as [e|E|L|L|T L|T L|T L|T L|E|E|E|L|L|L|L|L|L];
    cbn [Marker.Visit]; try apply Diag_keeps; try apply CheckSYCLType_keeps.
  - destruct (VisitCallExpr_keeps e s) as (s' & H & K & _). by exists s'.
  - unfold VisitCXXConstructExpr.
    apply bind_keeps.
    { apply forM__keeps. intros Arg s0. apply CheckSYCLType_keeps. }
    intros s0. apply bind_keeps.
    { intros s1. apply markDefinition_again_keeps. }
    intros s1. destruct (getDestructor E);
      [apply markDefinition_again_keeps|apply ret_keeps].
  - unfold VisitMemberExpr. destruct (me_memberVarDecl E) as [VD|];
      [|apply ret_keeps].
    cbn zeta. destruct (_ && _); [apply Diag_keeps|apply ret_keeps].
  - unfold VisitDeclRefExpr. apply bind_keeps.
    { intros s0. apply CheckSYCLType_keeps. }
    intros s0. destruct (dre_varDecl E) as [VD|]; [|apply ret_keeps].
    cbn zeta. destruct (negb _ && vd_isStaticDataMember VD);
      [apply Diag_keeps|].
    destruct (_ && _); [apply Diag_keeps|apply ret_keeps].
  - unfold VisitCXXNewExpr. destruct (getOperatorNew E) as [[FD r]|];
      [|apply ret_keeps].
    destruct r; [apply Diag_keeps|apply markDefinition_keeps].
Qed.

(** The traversal of a body reports every call in it of a function marked
    recursive. *)
Lemma TraverseStmt_keeps Body s :
  ∃ s', TraverseStmt SYCLAllowFuncPtr CheckSYCLType Body s = Some (tt, s')
        ∧ keeps s s'
        ∧ ∀ e Callee, OnCallExpr e ∈ Body →
            getDirectCallee e = Some Callee →
            Callee ∈ RecursiveSet s →
            recursive_call_error e ∈ Diags s'
            ∧ recursive_function_note (Decls s) Callee ∈ Diags s'.
Proof.
  unfold TraverseStmt. revert s.
  induction Body as [|c Body IH]; intros s.
  { exists s. split_and!; [done..|]. by intros ? ? ?%elem_of_nil. }
  assert (∃ s1, Visit c s = Some (tt, s1) ∧ keeps s s1 ∧
                ∀ e Callee, c = OnCallExpr e →
                  getDirectCallee e = Some Callee →
                  Callee ∈ RecursiveSet s →
                  recursive_call_error e ∈ Diags s1
                  ∧ recursive_function_note (Decls s) Callee ∈ Diags s1)
    as (s1 & H1 & K1 & R1).
  { assert ((∃ e, c = OnCallExpr e) ∨ ∀ e, c ≠ OnCallExpr e)
      as [[e ->]|Hne] by (destruct c; eauto).
    - destruct (VisitCallExpr_keeps e s) as (s1 & H1 & K1 & R1).
      exists s1. split_and!; [done..|]. intros e' Callee [= <-]. apply R1.
    - destruct (Visit_keeps c s) as (s1 & H1 & K1). exists s1.
      split_and!; [done..|]. intros e Callee ->. by destruct (Hne e). }
  destruct (IH s1) as (s' & H2 & K2 & R2). exists s'. split_and!.
  - rewrite forM__cons. by erewrite SE_bind_eq by exact H1.
  - by etrans.
  - intros e Callee [Heq | Hin]%elem_of_cons HC HR.
    + destruct (R1 e Callee (eq_sym Heq) HC HR) as [E N].
      split; by apply (keeps_reported _ _ K2).
    + rewrite <- (keeps_RecursiveSet _ _ K1) in HR.
      destruct (R2 e Callee Hin HC HR) as [E N]. split; [done|].
      unfold recursive_function_note in *.
      by rewrite <- (keeps_begin _ _ K1 Callee).
Qed.

Lemma MarkDevice_definition_keeps elt s :
  ∃ s', MarkDevice_definition SYCLAllowFuncPtr CheckSYCLType elt s
        = Some (tt, s') ∧ keeps s s' ∧
        (is_Some (FD_body (lookupFD (Decls s) elt)) →
         isDevice (Decls s') elt = true) ∧
        ∀ Body e Callee,
          FD_body (lookupFD (Decls s) elt) = Some Body →
          OnCallExpr e ∈ Body → getDirectCallee e = Some Callee →
          Callee ∈ RecursiveSet s →
          recursive_call_error e ∈ Diags s'
          ∧ recursive_function_note (Decls s) Callee ∈ Diags s'.
Proof.
  unfold MarkDevice_definition, getDecl, gets, mbind at 1, SE_bind at 1.
  destruct (FD_body (lookupFD (Decls s) elt)) as [Body|] eqn:HB.
  2:{ exists s. split_and!; [done..|by intros [? ?]|done]. }
  destruct (mark_keeps elt s) as [K1 D1].
  set (s1 := if negb (isDevice (Decls s) elt) then _ else s) in *.
  assert ((if negb (isDevice (Decls s) elt) then
             update_decl elt (addAttr SYCLDeviceAttr) ;; AddSyclKernel elt
           else mret tt) s = Some (tt, s1)) as H1.
  { subst s1. by destruct (negb _). }
  erewrite SE_bind_eq by exact H1.
  destruct (TraverseStmt_keeps Body s1) as (s' & H2 & K2 & R2).
  exists s'. split_and!; [exact H2|by etrans| |].
  - intros _. by apply (keeps_device _ _ K2).
  - intros Body' e Callee [= <-] Hin HC HR.
    rewrite <- (keeps_RecursiveSet _ _ K1) in HR.
    destruct (R2 e Callee Hin HC HR) as [E N]. split; [done|].
    unfold recursive_function_note in *.
    by rewrite <- (keeps_begin _ _ K1 Callee).
Qed.

Lemma MarkDevice_definitions_keeps l :
  ∀ s, ∃ s',
    forM_ (MarkDevice_definition SYCLAllowFuncPtr CheckSYCLType) l s
    = Some (tt, s') ∧ keeps s s' ∧
    (∀ elt, elt ∈ l → is_Some (FD_body (lookupFD (Decls s) elt)) →
            isDevice (Decls s') elt = true) ∧
    ∀ elt Body e Callee,
      elt ∈ l → FD_body (lookupFD (Decls s) elt) = Some Body →
      OnCallExpr e ∈ Body → getDirectCallee e = Some Callee →
      Callee ∈ RecursiveSet s →
      recursive_call_error e ∈ Diags s'
      ∧ recursive_function_note (Decls s) Callee ∈ Diags s'.
Proof.
  induction l as [|x l IH]; intros s.
  { exists s. split_and!; [done..|by intros ? ?%elem_of_nil|].
    by intros ? ? ? ? ?%elem_of_nil. }
  destruct (MarkDevice_definition_keeps x s) as (s1 & E1 & K1 & D1 & R1).
  destruct (IH s1) as (s' & E2 & K2 & D2 & R2).
  exists s'. split_and!.
  - rewrite forM__cons. by erewrite SE_bind_eq.
  - by etrans.
  - intros elt [-> | Hin]%elem_of_cons HB.
    + apply (keeps_device _ _ K2). by apply D1.
    + apply D2; [done|]. by rewrite (keeps_body _ _ K1).
  - intros elt Body e Callee [-> | Hin]%elem_of_cons HB He HC HR.
    + destruct (R1 Body e Callee HB He HC HR) as [E N].
      split; by apply (keeps_reported _ _ K2).
    + rewrite <- (keeps_body _ _ K1) in HB.
      rewrite <- (keeps_RecursiveSet _ _ K1) in HR.
      destruct (R2 elt Body e Callee Hin HB He HC HR) as [E N].
      split; [done|]. unfold recursive_function_note in *.
      by rewrite <- (keeps_begin _ _ K1 Callee).
Qed.

(** *** The loop over the kernels *)

#[local] Existing Instance grows_refl.
#[local] Existing Instance grows_trans.

(** What both loops keep of the declarations. *)
Record marked (s s' : State) : Prop := mkMarked {
  marked_body : ∀ F, FD_body (lookupFD (Decls s') F)
                     = FD_body (lookupFD (Decls s) F);
  marked_begin : ∀ F, FD_begin (lookupFD (Decls s') F)
                      = FD_begin (lookupFD (Decls s) F);
  marked_device : ∀ F, isDevice (Decls s) F = true →
                       isDevice (Decls s') F = true;
  marked_registered : ∀ F, isDevice (Decls s') F = true →
                           isDevice (Decls s) F = true ∨ F ∈ SyclKernels s';
  marked_SyclKernels : SyclKernels s ⊆ SyclKernels s'
}.

Lemma keeps_marked s s' : keeps s s' → marked s s'.
Proof. intros [? ? ? ? ? ? ? ?]. by split. Qed.

Lemma grows_marked s s' : grows s s' → marked s s'.
Proof.
  intros [_ HD HS _]. split; rewrite ?HD, ?HS; auto.
Qed.

#[local] Instance marked_trans : Transitive marked.
Proof.
  intros s1 s2 s3 [B1 P1 D1 G1 S1] [B2 P2 D2 G2 S2]. split.
  - intros F. by rewrite B2, B1.
  - intros F. by rewrite P2, P1.
  - auto.
  - intros F HF. destruct (G2 F HF) as [HF2 | ?]; [|by right].
    destruct (G1 F HF2) as [? | ?]; [by left|]. right. by apply S2.
  - by etrans.
Qed.

Lemma propagateAttrs_keeps SYCLKernel Attrs :
  Forall isReqdSubGroupSize Attrs →
  ∀ s, ∃ s', forM_ (propagateAttr SYCLKernel) Attrs s = Some (tt, s')
             ∧ keeps s s'.
Proof.
  induction 1 as [|A Attrs HA _ IH]; intros s; [by exists s|].
  destruct (propagateAttr_total SYCLKernel A s HA) as [[[] s1] H1].
  destruct (IH s1) as (s' & H2 & K2). exists s'. split.
  - rewrite forM__cons. by erewrite SE_bind_eq.
  - etrans; [by eapply propagateAttr_keeps|done].
Qed.

Lemma MarkDevice_kernel_reaches SYCLKernel s :
  CallGraph.closed SYCLCG (KernelSet s) →
  ∃ fuel0 s',
    (∀ fuel, (fuel0 ≤ fuel)%nat →
       MarkDevice_kernel SYCLCG fuel SYCLKernel s = Some (tt, s')) ∧
    CallGraph.closed SYCLCG (KernelSet s') ∧
    KernelSet s ⊆ KernelSet s' ∧
    (∀ F, reachable SYCLKernel F → F ∈ KernelSet s') ∧
    marked s s'.
Proof.
  intros Hclosed.
  destruct (CollectKernelSet_total SYCLCG (size (dom SYCLCG)) s SYCLKernel
              SYCLKernel ∅) as (s1 & G1 & Hrun1).
  { unfold pending. apply subseteq_size. set_solver. }
  destruct (CollectKernelSet_walked SYCLCG _ SYCLKernel SYCLKernel ∅ s s1
              (Hrun1 _ (le_n _))) as [_ Hroot Hnew _]; [set_solver..|].
  assert (CallGraph.closed SYCLCG (KernelSet s1)) as Hclosed1.
  { intros x y Hx Hxy. destruct (decide (x ∈ KernelSet s)) as [Hin | Hin].
    - apply G1. by eapply Hclosed.
    - by apply (Hnew x Hx Hin). }
  destruct (CollectPossibleKernelAttributes_loop_total SYCLCG (Decls s1)
              (size (dom SYCLCG ∖ (∅ : gset string))) ∅ [SYCLKernel] [])
    as (fuelA & Attrs & HrunA); [done|].
  assert (Forall isReqdSubGroupSize Attrs) as Hkind.
  { eapply CollectPossibleKernelAttributes_loop_kind;
      [|by apply (HrunA fuelA)]. constructor. }
  destruct (propagateAttrs_keeps SYCLKernel Attrs Hkind s1) as (s' & Hrun2 & K2).
  exists (Nat.max (size (dom SYCLCG) + 1) fuelA), s'. split_and!.
  - intros fuel Hf. unfold MarkDevice_kernel.
    erewrite SE_bind_eq by (apply Hrun1; lia).
    unfold gets, mbind at 1, SE_bind at 1.
    unfold CollectPossibleKernelAttributes. rewrite HrunA by lia. exact Hrun2.
  - by rewrite (keeps_KernelSet _ _ K2).
  - rewrite (keeps_KernelSet _ _ K2). by destruct G1.
  - intros F HF. rewrite (keeps_KernelSet _ _ K2). revert F HF.
    apply (rtc_ind_r (λ z, z ∈ KernelSet s1)); [done|].
    intros y z _ Hyz Hy. by eapply Hclosed1.
  - etrans; [by apply grows_marked|by apply keeps_marked].
Qed.

Lemma MarkDevice_kernels_reach Kernels :
  ∀ s,
    CallGraph.closed SYCLCG (KernelSet s) →
    ∃ fuel0 s',
      (∀ fuel, (fuel0 ≤ fuel)%nat →
         forM_ (MarkDevice_kernel SYCLCG fuel) Kernels s = Some (tt, s')) ∧
      CallGraph.closed SYCLCG (KernelSet s') ∧
      KernelSet s ⊆ KernelSet s' ∧
      (∀ K F, K ∈ Kernels → reachable K F → F ∈ KernelSet s') ∧
      marked s s'.
Proof.
  induction Kernels as [|K Kernels IH]; intros s Hclosed.
  { exists 0%nat, s. split_and!; [done..|by intros ? ? ?%elem_of_nil|].
    split; auto. }
  destruct (MarkDevice_kernel_reaches K s Hclosed)
    as (f1 & s1 & H1 & C1 & S1 & R1 & M1).
  destruct (IH s1 C1) as (f2 & s' & H2 & C2 & S2 & R2 & M2).
  exists (Nat.max f1 f2), s'. split_and!.
  - intros fuel Hf. rewrite forM__cons.
    erewrite SE_bind_eq by (apply H1; lia). apply H2. lia.
  - done.
  - by etrans.
  - intros K' F [-> | Hin]%elem_of_cons HF; [|by eapply R2].
    apply S2. by apply R1.
  - by etrans.
Qed.

End MarkAll.

(** X15: [MarkDevice] ends, whatever the call graph and the bodies.
    Afterwards every function that a registered kernel reaches in the
    call graph and that has a definition is marked as device code; the
    bodies are untouched; and a function marked anew (a function called,
    a constructor or destructor used, an allocation function that is not
    replaceable) is registered with [AddSyclKernel]. *)
Theorem MarkDevice_marks_what_the_kernels_reach
    (SYCLCG : gmap string (list string)) (SYCLAllowFuncPtr : bool)
    (CheckSYCLType : QualType → SourceLocation → list Diagnostic)
    (Ds : gmap string Marker.FD) (Kernels : list string)
    (Dg : list Diagnostic) :
  ∃ fuel0 s',
    (∀ fuel, (fuel0 ≤ fuel)%nat →
       Marker.MarkDevice SYCLCG SYCLAllowFuncPtr CheckSYCLType fuel
         (Marker.mkState Ds Kernels Dg [] ∅) = Some (tt, s')) ∧
    (∀ K F, K ∈ Kernels → CallGraph.reachable SYCLCG K F →
            is_Some (Marker.FD_body (Marker.lookupFD Ds F)) →
            hasAttr AK_SYCLDevice
              (Marker.FD_attrs (Marker.lookupFD (Marker.Decls s') F)) = true) ∧
    (∀ F, Marker.FD_body (Marker.lookupFD (Marker.Decls s') F)
          = Marker.FD_body (Marker.lookupFD Ds F)) ∧
    (∀ F, hasAttr AK_SYCLDevice
            (Marker.FD_attrs (Marker.lookupFD (Marker.Decls s') F)) = true →
          hasAttr AK_SYCLDevice (Marker.FD_attrs (Marker.lookupFD Ds F)) = true
          ∨ F ∈ Marker.SyclKernels s').
Proof.
  set (s := Marker.mkState Ds Kernels Dg [] ∅).
  destruct (MarkDevice_kernels_reach SYCLCG Kernels s)
    as (fuel0 & s1 & H1 & _ & _ & R1 & M1).
  { intros x y Hx. by apply elem_of_nil in Hx. }
  destruct (MarkDevice_definitions_keeps SYCLAllowFuncPtr CheckSYCLType
              (Marker.KernelSet s1) s1) as (s' & H2 & K2 & D2 & _).
  assert (marked s s') as [MB _ MD MG MS]
    by (eapply marked_trans; [exact M1|by apply keeps_marked]).
  exists fuel0, s'. split_and!.
  - intros fuel Hf. unfold Marker.MarkDevice.
    unfold gets, mbind at 1, SE_bind at 1.
    erewrite SE_bind_eq by (apply H1; lia). exact H2.
  - intros K F HK HF HB. apply D2; [by eapply R1|].
    by rewrite (marked_body _ _ M1).
  - exact MB.
  - exact MG.
Qed.

(** ** Recursion detection (C2) *)

Section CycleDetection.
Import Marker CallGraph.
Variable SYCLCG : gmap string (list string).
Variable Kernels : list string.
Variables A B C : string.

Abbreviation calls := (CallGraph.calls SYCLCG).

Hypothesis A_calls_B : calls A B.
Hypothesis B_calls_C : calls B C.
Hypothesis C_calls_A : calls C A.















End CycleDetection.



(** ** Erasing the anonymous namespace from a type name *)

Section AnonymousNamespace.
Import Emit.

Lemma substring_all s : String.substring 0 (String.length s) s = s.
Proof. induction s as [|c s IH]; [done|]. cbn. by rewrite IH. Qed.

Lemma length_substring_le s :
  ∀ n m, (String.length (String.substring n m s) ≤ m)%nat.
Proof.
  induction s as [|c s IH]; intros [|n] [|m]; cbn; try lia.
  - specialize (IH 0%nat m). lia.
  - apply (IH n 0%nat).
  - apply (IH n (S m)).
Qed.

Lemma length_append a b :
  String.length (a +:+ b) = (String.length a + String.length b)%nat.
Proof. induction a as [|c a IH]; [done|]. simpl. by rewrite IH. Qed.

(** The scan stops before its fuel is used up. *)
Lemma eraseAnonNamespace_fuel_enough f1 :
  ∀ f2 Str,
    (String.length Str < f1)%nat → (String.length Str < f2)%nat →
    eraseAnonNamespace_fuel f1 Str = eraseAnonNamespace_fuel f2 Str.
Proof.
  induction f1 as [|f1 IH]; intros [|f2] Str H1 H2; try lia.
  destruct Str as [|c rest]; [done|].
  cbn [eraseAnonNamespace_fuel].
  destruct (String.prefix AnonNS (String c rest)).
  - apply IH.
    + pose proof (length_substring_le (String c rest) (String.length AnonNS)
                    (String.length (String c rest) - String.length AnonNS)).
      cbn in *. lia.
    + pose proof (length_substring_le (String c rest) (String.length AnonNS)
                    (String.length (String c rest) - String.length AnonNS)).
      cbn in *. lia.
  - f_equal. apply IH; cbn in *; lia.
Qed.

(** A character other than the opening parenthesis is kept. *)
Lemma eraseAnonNamespace_keeps c rest :
  c ≠ open_paren →
  eraseAnonNamespace (String c rest) = String c (eraseAnonNamespace rest).
Proof.
  intros Hc. unfold eraseAnonNamespace. cbn [eraseAnonNamespace_fuel].
  assert (String.prefix AnonNS (String c rest) = false) as ->.
  { unfold AnonNS. cbn [String.prefix].
    destruct (Ascii.ascii_dec _ c) as [E|]; [|done]. by destruct Hc. }
  reflexivity.
Qed.

(** A leading ["(anonymous namespace)::"] is dropped. *)
Lemma eraseAnonNamespace_fuel_step f c rest :
  eraseAnonNamespace_fuel (S f) (String c rest)
  = if String.prefix AnonNS (String c rest) then
      eraseAnonNamespace_fuel f
        (String.substring (String.length AnonNS)
           (String.length (String c rest) - String.length AnonNS)
           (String c rest))
    else String c (eraseAnonNamespace_fuel f rest).
Proof. reflexivity. Qed.

Lemma eraseAnonNamespace_drops rest :
  eraseAnonNamespace (AnonNS +:+ rest) = eraseAnonNamespace rest.
Proof.
  unfold eraseAnonNamespace.
  transitivity (eraseAnonNamespace_fuel (String.length (AnonNS +:+ rest)) rest).
  2:{ apply eraseAnonNamespace_fuel_enough; [|lia].
      rewrite length_append. unfold AnonNS. simpl. lia. }
  change (AnonNS +:+ rest)
    with (String open_paren ("anonymous namespace)::" +:+ rest)) at 2.
  rewrite eraseAnonNamespace_fuel_step.
  assert (String.prefix AnonNS
            (String open_paren ("anonymous namespace)::" +:+ rest))
          = true) as ->.
  { unfold AnonNS. by destruct rest. }
  f_equal. unfold AnonNS. simpl. rewrite Nat.sub_0_r. apply substring_all.
Qed.

End AnonymousNamespace.

(** X16: a type name without opening parenthesis is left as it is, and
    an occurrence of ["(anonymous namespace)::"] that follows a text
    without opening parenthesis is dropped, the scan going on behind
    it. *)
Theorem eraseAnonNamespace_drops_the_anonymous_namespace (pre rest : string) :
  open_paren ∉ String.list_ascii_of_string pre →
  Emit.eraseAnonNamespace pre = pre ∧
  Emit.eraseAnonNamespace (pre +:+ Emit.AnonNS +:+ rest)
  = pre +:+ Emit.eraseAnonNamespace rest.
Proof.
  induction pre as [|c pre IH]; intros Hpre.
  { split; [done|]. apply eraseAnonNamespace_drops. }
  cbn in Hpre. apply not_elem_of_cons in Hpre as [Hc Hpre].
  destruct (IH Hpre) as [IH1 IH2].
  change (String c pre +:+ Emit.AnonNS +:+ rest)
    with (String c (pre +:+ Emit.AnonNS +:+ rest)).
  rewrite !eraseAnonNamespace_keeps by done. by rewrite IH1, IH2.
Qed.

(** A template over two classes of anonymous namespaces. *)
Lemma eraseAnonNamespace_drops_the_anonymous_namespace_witness :
  Emit.eraseAnonNamespace
    ("K<" +:+ Emit.AnonNS +:+ "A, " +:+ Emit.AnonNS +:+ "B>")
  = "K<A, B>"%string.
Proof.
  assert (∀ l, Forall (λ c, c ≠ open_paren) l → open_paren ∉ l) as Hnot.
  { intros l Hl Hin. by eapply Forall_forall in Hl. }
  destruct (eraseAnonNamespace_drops_the_anonymous_namespace "K<"
              ("A, " +:+ Emit.AnonNS +:+ "B>")) as [_ E1].
  { apply Hnot. repeat constructor; discriminate. }
  destruct (eraseAnonNamespace_drops_the_anonymous_namespace "A, " "B>")
    as [_ E2].
  { apply Hnot. repeat constructor; discriminate. }
  destruct (eraseAnonNamespace_drops_the_anonymous_namespace "B>" "")
    as [E3 _].
  { apply Hnot. repeat constructor; discriminate. }
  rewrite E1, E2, E3. reflexivity.
Defined.

(** ** Forward declarations and their namespaces *)

Lemma enclosingNamespaces_inNamespaces Names Outer :
  getDeclKind Outer ≠ DK_Namespace →
  Emit.enclosingNamespaces (inNamespaces Names Outer)
  = (Names, negb (isTranslationUnit Outer)).
Proof.
  intros HO. induction Names as [|n Names IH] using rev_ind.
  - destruct Outer as [|k nm p]; [done|]. by destruct k.
  - unfold inNamespaces in *. rewrite foldl_app. cbn. by rewrite IH.
Qed.

(** X17: a declaration made in the namespaces [n1 ... nk] (outermost
    first) is forward declared behind [namespace n1 { ... namespace nk {]
    and in front of [k] closing braces; when the namespaces are not
    those of the translation unit but of a class or a function, the ones
    around that class or function are left out, and the declaration is
    reported when it is a complete definition, and printed all the
    same. *)
Theorem emitFwdDecl_wraps_the_declaration_in_its_namespaces
    (D : NamedDecl) (Names : list string) (Outer : DeclContext)
    (s : Emit.State) :
  d_context D = inNamespaces Names Outer →
  getDeclKind Outer ≠ DK_Namespace →
  Emit.emitFwdDecl D s
  = Some (tt,
          Emit.mkState
            (Emit.Out s
             ++ match Names with
                | [] => [Emit.Text (d_printed D +:+ ";")]
                | _ =>
                    [Emit.Text
                       (String.concat ""
                          (map (λ n, "namespace " +:+ n +:+ " { ") Names));
                     Emit.Text (d_printed D +:+ ";");
                     Emit.Text
                       (String.concat "" (replicate (length Names) "}"))]
                end)
            (Emit.Printed s)
            (Emit.Diags s
             ++ if negb (isTranslationUnit Outer) && d_isCompleteDefinition D
                then [Diag (d_begin D) err_sycl_kernel_name_class_not_top_level]
                else [])).
Proof.
  intros HC HO. unfold Emit.emitFwdDecl.
  rewrite HC, enclosingNamespaces_inNamespaces by done. cbn [fst snd].
  unfold mbind, SE_bind, Emit.Report, Emit.print, modify.
  destruct (negb (isTranslationUnit Outer) && d_isCompleteDefinition D);
    cbn [mret SE_ret Emit.Out Emit.Printed Emit.Diags];
    destruct Names as [|n Names]; cbn [length bool_decide];
    rewrite ?app_nil_r; try done;
    (rewrite bool_decide_true by (cbn; lia)); done.
Qed.

(** A class of the namespaces [a::b], and a class defined in a class. *)
Lemma emitFwdDecl_wraps_the_declaration_in_its_namespaces_witness :
  let D1 := mkNamedDecl 1 "K" (inNamespaces ["a"; "b"] TranslationUnitDecl)
                        true 5 "class K" in
  let D2 := mkNamedDecl 2 "L"
              (NamedContext DK_CXXRecord "Host" TranslationUnitDecl)
              true 9 "class L" in
  Emit.emitFwdDecl D1 (Emit.mkState [] ∅ [])
  = Some (tt, Emit.mkState
                [Emit.Text "namespace a { namespace b { ";
                 Emit.Text "class K;"; Emit.Text "}}"] ∅ []) ∧
  Emit.emitFwdDecl D2 (Emit.mkState [] ∅ [])
  = Some (tt, Emit.mkState [Emit.Text "class L;"] ∅
                [Diag 9 err_sycl_kernel_name_class_not_top_level]).
Proof.
  intros D1 D2. split.
  - apply (emitFwdDecl_wraps_the_declaration_in_its_namespaces D1
             ["a"; "b"]%string TranslationUnitDecl (Emit.mkState [] ∅ []));
      [reflexivity|discriminate].
  - apply (emitFwdDecl_wraps_the_declaration_in_its_namespaces D2
             [] (NamedContext DK_CXXRecord "Host" TranslationUnitDecl)
             (Emit.mkState [] ∅ []));
      [reflexivity|discriminate].
Defined.
